(** * libPLUMP: the HPYP model core ([src/libplump/hpyp_model.cc])

    A shallow embedding of [HPYPModel] over its collaborators.  Only the model
    core is part of the sources; the restaurant, the context tree, the
    parameter provider, the numeric utilities and the random source are
    interfaces the core consumes, so they appear here as type classes and the
    core is translated over them.  Doubles are an abstract number type [R]
    with the operations the core uses; nothing below relies on a property of
    floating point arithmetic unless a statement says so. *)

From Stdlib Require Import ZArith QArith Lia.
From stdpp Require Import base gmap list.

Open Scope Z_scope.

(* ------------------------------------------------------------------------ *)
(** ** Collaborator interfaces *)

(** Doubles and the numeric utilities of [utils.h] / [stirling.h]. *)
Class Num := {
  R : Type;
  r0 : R;
  r1 : R;
  radd : R -> R -> R;
  rsub : R -> R -> R;
  rmul : R -> R -> R;
  rdiv : R -> R -> R;
  ropp : R -> R;
  of_Z : Z -> R;             (* (double) n *)
  rlog : R -> R;
  rlog2 : R -> R;
  rexp : R -> R;
  rmax : R -> R -> R;
  neg_inf : R;               (* -INFINITY *)
  req0 : R -> bool;          (* x == 0 *)
  logKramp : R -> R -> Z -> R;   (* log of a rising factorial with step *)
  logStirling : Z -> Z -> R      (* stirlingGen->getLog(c, t) *)
}.

(** A node of the context tree as the model sees it ([WrappedNode]); the
    payload is the node manager's handle of the node's restaurant. *)
Record WrappedNode := mkWNode {
  wstart : Z;
  wend : Z;
  wdepth : Z;
  payload : nat
}.

Definition noNode : WrappedNode := mkWNode 0 0 0 0.

(** The restaurant of one node ([IAddRemoveRestaurant], with the direct
    mutators of [BaseCompactRestaurant]); the random source it draws from is
    threaded explicitly. *)
Class Restaurant {N : Num} := {
  RState : Type;
  AData : Type;
  Rng : Type;
  make : RState;
  computeProbability : RState -> Z -> R -> R -> R -> R;
  addCustomer : Rng -> RState -> Z -> R -> R -> R -> option AData -> R ->
                R * RState * Rng;
  removeCustomer : Rng -> RState -> Z -> R -> option AData -> R ->
                   R * RState * Rng;
  updateAfterSplit : RState -> RState -> R -> R -> bool -> RState * RState;
  getTypeVector : RState -> list Z;
  getCw : RState -> Z -> Z;
  getTw : RState -> Z -> Z;
  getC : RState -> Z;
  getT : RState -> Z;
  setT : RState -> Z -> Z -> RState;
  setC : RState -> Z -> Z -> RState;
  createAdditionalData : RState -> R -> R -> AData;
  sample_unnormalized_pdf : Rng -> list R -> nat * Rng
    (* the index drawn from an unnormalised categorical distribution *)
}.

Inductive InsertAction := INSERT_ACTION_NO_SPLIT | INSERT_ACTION_SPLIT
                        | INSERT_ACTION_SPLIT_SUFFIX.

Record InsertionResult := mkInsertionResult {
  ir_path : list WrappedNode;
  ir_action : InsertAction;
  ir_splitChild : WrappedNode
}.

(** The context tree ([ContextTree]); [dfsPaths] lists the paths its DFS path
    iterator visits, in order. *)
Class ContextTree := {
  Tree : Type;
  findLongestSuffix : Tree -> Z -> Z -> list WrappedNode;
  findLongestSuffixVirtual : Tree -> Z -> Z -> Z * list WrappedNode;
  findNode : Tree -> Z -> Z -> list WrappedNode;
  insertCtx : Tree -> Z -> Z -> InsertionResult * Tree;
  dfsPaths : Tree -> list (list WrappedNode)
}.

(** The parameter provider ([IParameters]). *)
Class Parameters {N : Num} {Rs : Restaurant} := {
  Params : Type;
  getDiscounts : Params -> list WrappedNode -> list R;
  getConcentrations : Params -> list WrappedNode -> list R -> list R;
  getDiscount : Params -> Z -> Z -> R;
  getConcentration : Params -> R -> Z -> Z -> R;
  extendDiscounts : Params -> list WrappedNode -> list R -> list R;
  extendConcentrations : Params -> list WrappedNode -> list R -> list R ->
                         list R;
  accumulateParameterGradient : Params -> (nat -> RState) -> list WrappedNode ->
                                list R -> list R -> list R -> Z -> Params;
  stepParameterGradient : Params -> R -> Params
}.

(* ------------------------------------------------------------------------ *)
(** ** The model state *)

Section Model.

Context {N : Num} {Rs : Restaurant} {CT : ContextTree} {Ps : Parameters}.

(** The fields of [HPYPModel]: the borrowed sequence, the context tree, the
    restaurants of the tree's nodes (by payload handle), the random source,
    the parameters and the alphabet size. *)
Record HPYPModel := mkModel {
  seq : list Z;
  tree : Tree;
  rests : gmap nat RState;
  rng : Rng;
  params : Params;
  numTypes : Z
}.

(** [baseProb = 1./((double) numTypes)], set once in the constructor. *)
Definition baseProb (m : HPYPModel) : R := rdiv r1 (of_Z (numTypes m)).

(** The restaurant behind a payload handle; a handle the node manager has
    just attached and nobody has seated at yet is a fresh restaurant. *)
Definition payloadOf (m : HPYPModel) (p : nat) : RState :=
  default make (rests m !! p).

(** Write back the restaurant of payload [p] and the random source. *)
Definition withRest (m : HPYPModel) (p : nat) (s : RState) (g : Rng)
  : HPYPModel :=
  mkModel (seq m) (tree m) (<[p := s]> (rests m)) g (params m) (numTypes m).

(** [v[j]] on a [d_vec]; out of range is undefined behaviour in the source,
    the aligned-length preconditions keep every index below in range. *)
Definition at_ (v : list R) (j : nat) : R := nth j v r0.

(** [seq[i]] *)
Definition seqAt (m : HPYPModel) (i : Z) : Z := nth (Z.to_nat i) (seq m) 0.

(* ------------------------------------------------------------------------ *)
(** ** Path operations *)

(** The loop of [computeProbabilityPath]: [it] runs over the path from the
    root, [j] indexes the discount and concentration paths. *)
Fixpoint probLoop (m : HPYPModel) (it : list WrappedNode) (j : nat)
    (d a : list R) (obs : Z) (prob : R) : list R :=
  match it with
  | [] => []
  | n :: rest =>
      let prob' := computeProbability (payloadOf m (payload n)) obs prob
                     (at_ d j) (at_ a j) in
      prob' :: probLoop m rest (S j) d a obs prob'
  end.

Definition computeProbabilityPath (m : HPYPModel) (path : list WrappedNode)
    (discount_path concentration_path : list R) (obs : Z) : list R :=
  baseProb m :: probLoop m path 0 discount_path concentration_path obs
                         (baseProb m).

(** The loop of [updatePath]: [rit] is the reverse iterator, [j] the index of
    the node it points to (an [unsigned int] that only wraps after the last
    iteration), [newTable] the weight of the customer to seat. *)
Fixpoint updateLoop (m : HPYPModel) (rit : list WrappedNode) (j : nat)
    (prob_path d a : list R) (obs : Z) (newTable : R) : HPYPModel :=
  match rit with
  | [] => m
  | n :: rest =>
      let '(nt, s', g') :=
        addCustomer (rng m) (payloadOf m (payload n)) obs (at_ prob_path j)
                    (at_ d j) (at_ a j) None newTable in
      let m' := withRest m (payload n) s' g' in
      if req0 nt then m' else updateLoop m' rest (j - 1) prob_path d a obs nt
  end%nat.

Definition updatePath (m : HPYPModel) (path : list WrappedNode)
    (prob_path discount_path concentration_path : list R) (obs : Z)
  : HPYPModel :=
  updateLoop m (rev path) (length path - 1) prob_path discount_path
             concentration_path obs r1.

(** The seating walk as the specification describes it: seat at the node of
    index [k] with weight [w] and parent probability [p[k]]; continue at
    index [k-1] with the returned fraction unless it is 0 or [k] is the
    root. *)
Fixpoint seatFrom (m : HPYPModel) (nodes : list WrappedNode)
    (prob_path d a : list R) (obs : Z) (k : nat) (w : R) {struct k}
  : HPYPModel :=
  let n := nth k nodes noNode in
  let '(f, s', g') :=
    addCustomer (rng m) (payloadOf m (payload n)) obs (at_ prob_path k)
                (at_ d k) (at_ a k) None w in
  let m' := withRest m (payload n) s' g' in
  if req0 f then m'
  else match k with
       | O => m'
       | S k' => seatFrom m' nodes prob_path d a obs k' f
       end.

End Model.

(* ------------------------------------------------------------------------ *)
(** ** Assertions and crashes *)

(** How a call of the model can end abnormally: an [assert] that fails, a
    dereference of a null pointer, or an unchecked [v[j]] past the end of a
    vector (undefined behaviour; its pointer is then dereferenced).
    Assertions are modelled as evaluated (a build without [NDEBUG]). *)
Inductive Fault := NullDeref | AssertFailed | OutOfBounds.

Inductive Outcome (A : Type) := Ok (a : A) | Crash (f : Fault).
Arguments Ok {A} a.
Arguments Crash {A} f.

Definition obind {A B} (c : Outcome A) (k : A -> Outcome B) : Outcome B :=
  match c with Ok a => k a | Crash f => Crash f end.

Notation "'let*' x := c 'in' k" := (obind c (fun x => k))
  (at level 200, x name, c at level 100, k at level 200).

Definition assert_ (b : bool) : Outcome unit :=
  if b then Ok tt else Crash AssertFailed.

(** The unchecked [v[j]] of a [std::vector]. *)
Definition vecAt {A} (v : list A) (j : nat) : Outcome A :=
  match nth_error v j with Some x => Ok x | None => Crash OutOfBounds end.

Section Core.

Context {N : Num} {Rs : Restaurant} {CT : ContextTree} {Ps : Parameters}.

Definition withTree (m : HPYPModel) (t : Tree) : HPYPModel :=
  mkModel (seq m) t (rests m) (rng m) (params m) (numTypes m).

Definition withParams (m : HPYPModel) (p : Params) : HPYPModel :=
  mkModel (seq m) (tree m) (rests m) (rng m) p (numTypes m).

Definition withRests (m : HPYPModel) (rs : gmap nat RState) : HPYPModel :=
  mkModel (seq m) (tree m) rs (rng m) (params m) (numTypes m).

(** [path.back()] (undefined on an empty path; every path the tree returns
    holds at least the root) *)
Definition back (path : list WrappedNode) : WrappedNode := List.last path noNode.

(** [removeObservationFromPath]: from the deepest node to the root, remove a
    customer with the fraction returned one level below (initially 1); the
    additional data is used when the data path is aligned with the path. *)
Fixpoint removeLoop (m : HPYPModel) (rit : list WrappedNode) (j : nat)
    (pathSize : nat) (d : list R) (obs : Z) (payloadDataPath : list AData)
    (frac_t : R) : HPYPModel :=
  match rit with
  | [] => m
  | n :: rest =>
      let payloadData :=
        if Nat.eqb (length payloadDataPath) pathSize
        then nth_error payloadDataPath j else None in
      let '(f, s', g') :=
        removeCustomer (rng m) (payloadOf m (payload n)) obs (at_ d j)
                       payloadData frac_t in
      let m' := withRest m (payload n) s' g' in
      if req0 f then m'
      else removeLoop m' rest (j - 1) pathSize d obs payloadDataPath f
  end%nat.

Definition removeObservationFromPath (m : HPYPModel) (path : list WrappedNode)
    (discountPath : list R) (obs : Z) (payloadDataPath : list AData)
  : HPYPModel :=
  removeLoop m (rev path) (length path - 1) (length path) discountPath obs
             payloadDataPath r1.

(** [insertRoot]: seat [obs] along the path of the empty context. *)
Definition insertRoot (m : HPYPModel) (obs : Z) : HPYPModel :=
  let root_path := findLongestSuffix (tree m) 0 0 in
  let discount_path := getDiscounts (params m) root_path in
  let concentration_path :=
    getConcentrations (params m) root_path discount_path in
  let prob_path :=
    computeProbabilityPath m root_path discount_path concentration_path obs in
  updatePath m root_path prob_path discount_path concentration_path obs.

(** [handleSplit(nodeA, nodeB, nodeC)]: [nodeA] the parent, [nodeB] the node
    whose edge was split, [nodeC] the new intermediate node. *)
Definition handleSplit (m : HPYPModel) (nodeA nodeB nodeC : WrappedNode)
  : Outcome HPYPModel :=
  let lengthA := wend nodeA - wstart nodeA in
  let lengthB := wend nodeB - wstart nodeB in
  let lengthC := wend nodeC - wstart nodeC in
  let* _ := assert_ ((lengthA <? lengthB) && (lengthA <? lengthC)) in
  let* _ := assert_ (lengthC <? lengthB) in
  let discBBeforeSplit := getDiscount (params m) lengthA lengthB in
  let discBAfterSplit := getDiscount (params m) lengthC lengthB in
  let '(sB, sC) :=
    updateAfterSplit (payloadOf m (payload nodeB)) (payloadOf m (payload nodeC))
                     discBBeforeSplit discBAfterSplit false in
  Ok (withRests m (<[payload nodeB := sB]> (<[payload nodeC := sC]> (rests m)))).

(** [insertContext]: insert the context and re-seat the split child when an
    edge was split; the split node is second to last ([SPLIT]) or last
    ([SPLIT_SUFFIX]) on the returned path, its parent just before it. *)
Definition insertContext (m : HPYPModel) (start stop : Z)
  : Outcome (list WrappedNode * HPYPModel) :=
  let '(ir, t') := insertCtx (tree m) start stop in
  let m1 := withTree m t' in
  let path := ir_path ir in
  let L := length path in
  match ir_action ir with
  | INSERT_ACTION_NO_SPLIT => Ok (path, m1)
  | INSERT_ACTION_SPLIT =>
      let* m2 := handleSplit m1 (nth (L - 3) path noNode) (ir_splitChild ir)
                             (nth (L - 2) path noNode) in
      Ok (path, m2)
  | INSERT_ACTION_SPLIT_SUFFIX =>
      let* m2 := handleSplit m1 (nth (L - 2) path noNode) (ir_splitChild ir)
                             (nth (L - 1) path noNode) in
      Ok (path, m2)
  end%nat.

(** The fixed rate [10e-4] of the gradient step. *)
Definition gradientRate : R := rdiv r1 (of_Z 1000).

Definition insertContextAndObservation (m : HPYPModel) (start stop obs : Z)
  : Outcome (list R * HPYPModel) :=
  obind (insertContext m start stop) (fun '(path, m1) =>
  let discountPath := getDiscounts (params m1) path in
  let concentrationPath := getConcentrations (params m1) path discountPath in
  let probabilityPath :=
    computeProbabilityPath m1 path discountPath concentrationPath obs in
  let m2 := withParams m1
              (accumulateParameterGradient (params m1) (payloadOf m1) path
                 probabilityPath discountPath concentrationPath obs) in
  let m3 := updatePath m2 path probabilityPath discountPath
                       concentrationPath obs in
  let m4 := withParams m3 (stepParameterGradient (params m3) gradientRate) in
  Ok (probabilityPath, m4)).

(** [insertObservation]; [cached_path] is [None] for a null pointer. *)
Definition insertObservation (m : HPYPModel) (start stop obs : Z)
    (cached_path : option (list WrappedNode)) : list R * HPYPModel :=
  let path := match cached_path with
              | Some p => p
              | None => findLongestSuffix (tree m) start stop
              end in
  let discount_path := getDiscounts (params m) path in
  let concentration_path :=
    getConcentrations (params m) path discount_path in
  let prob_path :=
    computeProbabilityPath m path discount_path concentration_path obs in
  (prob_path,
   updatePath m path prob_path discount_path concentration_path obs).

(** [removeObservation]: the assertion compares the path with
    [*cached_path], whichever branch chose the path. *)
Definition removeObservation (m : HPYPModel) (start stop obs : Z)
    (payloadDataPath : list AData) (cached_path : option (list WrappedNode))
  : Outcome HPYPModel :=
  let path := match cached_path with
              | Some p => p
              | None => findLongestSuffix (tree m) start stop
              end in
  let* cp := match cached_path with
             | Some p => Ok p
             | None => Crash NullDeref
             end in
  let* _ := assert_ (wend (back path) =? wend (back cp)) in
  let discountPath := getDiscounts (params m) path in
  Ok (removeObservationFromPath m path discountPath obs payloadDataPath).

(** The loop of [computeLosses] over [i = from .. stop-1]. *)
Fixpoint lossLoop (m : HPYPModel) (start from : Z) (fuel : nat)
  : Outcome (list R * HPYPModel) :=
  match fuel with
  | O => Ok ([], m)
  | S fuel' =>
      obind (insertContextAndObservation m start from (seqAt m from))
        (fun '(prob_path, m1) =>
           let prob := at_ prob_path (length prob_path - 2) in
           obind (lossLoop m1 start (from + 1) fuel')
             (fun '(rest, m2) => Ok (ropp (rlog2 prob) :: rest, m2)))
  end%nat.

Definition computeLosses (m : HPYPModel) (start stop : Z)
  : Outcome (list R * HPYPModel) :=
  let m1 := insertRoot m (seqAt m start) in
  obind (lossLoop m1 start (start + 1) (Z.to_nat (stop - (start + 1))))
    (fun '(losses, m2) => Ok (rlog2 (of_Z (numTypes m)) :: losses, m2)).

(* ------------------------------------------------------------------------ *)
(** ** Predictive queries *)

(** The queries are methods of a mutable object; each returns the model
    state it leaves behind. *)
Definition predict (m : HPYPModel) (start stop obs : Z) : R * HPYPModel :=
  let path := findLongestSuffix (tree m) start stop in
  let discount_path := getDiscounts (params m) path in
  let concentration_path :=
    getConcentrations (params m) path discount_path in
  let prob_path :=
    computeProbabilityPath m path discount_path concentration_path obs in
  (List.last prob_path r0, m).

Definition predictBelow (m : HPYPModel) (start stop obs : Z) : R * HPYPModel :=
  let path := snd (findLongestSuffixVirtual (tree m) start stop) in
  let discount_path := getDiscounts (params m) path in
  let concentration_path :=
    getConcentrations (params m) path discount_path in
  let prob_path :=
    computeProbabilityPath m path discount_path concentration_path obs in
  (List.last prob_path r0, m).

(** The restaurant factory's [make()]: a fresh payload handle, not used by
    any live restaurant, carrying an empty restaurant. *)
Definition freshPayload (m : HPYPModel) : nat := fresh (dom (rests m)).

Definition predictWithFragmentation (m : HPYPModel) (start stop obs : Z)
  : R * HPYPModel :=
  let '(fragLen, vpath) := findLongestSuffixVirtual (tree m) start stop in
  let discountPath := getDiscounts (params m) vpath in
  let concentrationPath := getConcentrations (params m) vpath discountPath in
  let probabilityPath :=
    computeProbabilityPath m vpath discountPath concentrationPath obs in
  if negb (fragLen =? 0) then
    let splitNode := freshPayload m in
    let m1 := withRests m (<[splitNode := make]> (rests m)) in
    let L := length vpath in
    let parent := nth (L - 2) vpath noNode in
    let parentLength := wend parent - wstart parent in
    let discountAfter :=
      getDiscount (params m1) fragLen (wend parent - wstart parent) in
    let last_ := nth (L - 1) vpath noNode in
    let discountFragmented := getDiscount (params m1) parentLength fragLen in
    let '(sOld, sNew) :=
      updateAfterSplit (payloadOf m1 (payload last_)) (payloadOf m1 splitNode)
                       (List.last discountPath r0) discountFragmented true in
    let m2 := withRests m1 (<[payload last_ := sOld]>
                              (<[splitNode := sNew]> (rests m1))) in
    let concentrationFragmented :=
      getConcentration (params m2) discountFragmented parentLength fragLen in
    let probability :=
      computeProbability (payloadOf m2 splitNode) obs
        (at_ probabilityPath (length probabilityPath - 2))
        discountFragmented concentrationFragmented in
    let m3 := withRests m2 (delete splitNode (rests m2)) in
    (probability, m3)
  else (List.last probabilityPath r0, m).

(** [predictiveDistribution]: one probability per type, sharing the path and
    the parameters. *)
Definition predictiveDistribution (m : HPYPModel) (start stop : Z)
  : list R * HPYPModel :=
  let path := findLongestSuffix (tree m) start stop in
  let discount_path := getDiscounts (params m) path in
  let concentration_path :=
    getConcentrations (params m) path discount_path in
  (map (fun i => List.last (computeProbabilityPath m path discount_path
                         concentration_path i) r0)
       (seqZ 0 (numTypes m)), m).

(** The mixing loop: [prob = sum_j w[j] p[j]], [sum = sum_j w[j]] over
    [j < min(|w|, |p|)]. *)
Fixpoint mixLoop (w p : list R) (prob sum : R) : R * R :=
  match w, p with
  | wj :: w', pj :: p' => mixLoop w' p' (radd prob (rmul wj pj)) (radd sum wj)
  | _, _ => (prob, sum)
  end.

Definition predictiveDistributionWithMixing (m : HPYPModel) (start stop : Z)
    (mixingWeights : list R) : list R * HPYPModel :=
  let path := findLongestSuffix (tree m) start stop in
  let discount_path := getDiscounts (params m) path in
  let concentration_path :=
    getConcentrations (params m) path discount_path in
  (map (fun i =>
          let prob_path :=
            computeProbabilityPath m path discount_path concentration_path i in
          let '(prob, sum) := mixLoop mixingWeights prob_path r0 r0 in
          radd prob (rmul (rsub r1 sum) (List.last prob_path r0)))
       (seqZ 0 (numTypes m)), m).

End Core.

(* ------------------------------------------------------------------------ *)
(** ** Vector utilities of [utils.h] *)

(** Modelled from the spec ([utils.h] is not part of the sources): the
    numerically stable subtract-max, the element-wise sum and the in-place
    exponential over fixed-size vectors. *)
Definition subMax_vec `{Num} (v : list R) : list R :=
  match v with
  | [] => []
  | x :: xs => let mx := fold_left rmax xs x in map (fun y => rsub y mx) v
  end.

Definition add_vec `{Num} (v w : list R) : list R := zip_with radd v w.

Definition exp_vec `{Num} (v : list R) : list R := map rexp v.

(* ------------------------------------------------------------------------ *)
(** ** Gibbs samplers *)

Section Gibbs.

Context {N : Num} {Rs : Restaurant} {CT : ContextTree} {Ps : Parameters}.

(** The four log-weight vectors filled by the candidate loop. *)
Definition Vecs : Type := (list R * list R * list R * list R)%type.

(** [for (int tw = from; ...; ++tw) body(tw)], [fuel] iterations. *)
Fixpoint forTw (body : Z -> Vecs -> Vecs) (tw : Z) (fuel : nat) (v : Vecs)
  : Vecs :=
  match fuel with
  | O => v
  | S fuel' => forTw body (tw + 1) fuel' (body tw v)
  end.

(** The loop body below a parent restaurant. *)
Definition bodyNonRoot (dj aj ap : R) (currentCw currentTw otherT parentCw
    parentTw parentOtherC : Z) (tw : Z) (v : Vecs) : Vecs :=
  let '(lp1, lp2, lp3, lp4) := v in
  let i := Z.to_nat (tw - 1) in
  let newParentCw := parentCw - currentTw + tw in
  if newParentCw <? parentTw then (lp1, lp2, lp3, <[i := neg_inf]> lp4)
  else (<[i := logKramp (radd aj dj) dj (otherT + tw - 1)]> lp1,
        <[i := ropp (logKramp (radd ap r1) r1 (parentOtherC + tw - 1))]> lp2,
        <[i := logStirling currentCw tw]> lp3,
        <[i := logStirling newParentCw parentTw]> lp4).

(** The loop body at the root, where the base distribution is the parent. *)
Definition bodyRoot (dj aj bp : R) (currentCw otherT : Z) (tw : Z) (v : Vecs)
  : Vecs :=
  let '(lp1, lp2, lp3, lp4) := v in
  let i := Z.to_nat (tw - 1) in
  (<[i := logKramp (radd aj dj) dj (otherT + tw - 1)]> lp1,
   <[i := logStirling currentCw tw]> lp2,
   <[i := rmul (of_Z tw) (rlog bp)]> lp3,
   lp4).

(** The entry the loop body below a parent writes for the candidate [tw] in
    the vector [i] (0 to 3); an entry the body skips keeps its initial 0. *)
Definition nonRootAddend (i : nat) (dj aj ap : R) (currentCw currentTw otherT
    parentCw parentTw parentOtherC : Z) (tw : Z) : R :=
  let newParentCw := parentCw - currentTw + tw in
  let infeasible := newParentCw <? parentTw in
  match i with
  | 0%nat => if infeasible then r0 else logKramp (radd aj dj) dj (otherT + tw - 1)
  | 1%nat => if infeasible then r0
             else ropp (logKramp (radd ap r1) r1 (parentOtherC + tw - 1))
  | 2%nat => if infeasible then r0 else logStirling currentCw tw
  | _ => if infeasible then neg_inf else logStirling newParentCw parentTw
  end.

(** The same at the root; the body leaves the last vector at 0. *)
Definition rootAddend (i : nat) (dj aj bp : R) (currentCw otherT : Z) (tw : Z)
  : R :=
  match i with
  | 0%nat => logKramp (radd aj dj) dj (otherT + tw - 1)
  | 1%nat => logStirling currentCw tw
  | 2%nat => rmul (of_Z tw) (rlog bp)
  | _ => r0
  end.

(** The weights handed to the sampler: each vector max-subtracted, summed
    into [logProbs] (initially 0), max-subtracted again, exponentiated. *)
Definition combineWeights (zeros : list R) (v : Vecs) : list R :=
  let '(lp1, lp2, lp3, lp4) := v in
  exp_vec (subMax_vec
    (add_vec (add_vec (add_vec (add_vec zeros (subMax_vec lp1))
                                 (subMax_vec lp2)) (subMax_vec lp3))
             (subMax_vec lp4))).

(** The weights of the candidates [tw = 1 .. c(node,y)] for the node of
    index [j] of [path]: the four log-weight vectors filled by the candidate
    loop, combined. *)
Definition levelWeights (m : HPYPModel) (path : list WrappedNode)
    (d a : list R) (bp : R) (y : Z) (j : nat) : list R :=
  let s := payloadOf m (payload (nth j path noNode)) in
  let currentCw := getCw s y in
  let currentTw := getTw s y in
  let otherT := getT s - currentTw in
  let zeros := repeat r0 (Z.to_nat currentCw) in
  let vecs :=
    match j with
    | S jp =>
        let par := payloadOf m (payload (nth jp path noNode)) in
        forTw (bodyNonRoot (at_ d j) (at_ a j) (at_ a jp) currentCw currentTw
                 otherT (getCw par y) (getTw par y) (getC par - currentTw))
              1 (Z.to_nat currentCw) (zeros, zeros, zeros, zeros)
    | O =>
        forTw (bodyRoot (at_ d j) (at_ a j) bp currentCw otherT)
              1 (Z.to_nat currentCw) (zeros, zeros, zeros, zeros)
    end in
  combineWeights zeros vecs.

(** The body of the loop of [directGibbsSamplePath] at index [j]: read the
    Stirling generator [payloadDataPath[j]] (and [payloadDataPath[j-1]],
    in range whenever [payloadDataPath[j]] is), resample [t(node,y)] and fix
    [c(parent,y)]; the flag is [sampledTw != currentTw], the test that
    decides whether [current] and [j] are moved up. The generators'
    [getLog] is the log Stirling number they tabulate. *)
Definition gibbsLevel (m : HPYPModel) (path : list WrappedNode) (d a : list R)
    (payloadDataPath : list AData) (bp : R) (y : Z) (j : nat)
  : Outcome (HPYPModel * bool) :=
  let* _ := vecAt payloadDataPath j in
  let cur := payload (nth j path noNode) in
  let s := payloadOf m cur in
  let currentTw := getTw s y in
  let '(k, g') :=
    sample_unnormalized_pdf (rng m) (levelWeights m path d a bp y j) in
  let sampledTw := Z.of_nat k + 1 in
  let m1 := withRest m cur (setT s y sampledTw) g' in
  match j with
  | S jp =>
      let pp := payload (nth jp path noNode) in
      let par1 := payloadOf m1 pp in
      let newCw := getCw par1 y - currentTw + sampledTw in
      let* _ := assert_ (getTw par1 y <=? newCw) in
      Ok (withRest m1 pp (setC par1 y newCw) (rng m1),
          negb (sampledTw =? currentTw))
  | O => Ok (m1, negb (sampledTw =? currentTw))
  end.

(** [while (goUp && j != -1) { goUp = false; ...
    if (sampledTw != currentTw) { --current; --j; } else goUp = false; }]:
    the body clears [goUp] on entry and nothing sets it again. [j = -1] is
    the move up from index 0. *)
Fixpoint gibbsWalk (m : HPYPModel) (path : list WrappedNode) (d a : list R)
    (payloadDataPath : list AData) (bp : R) (y : Z) (j : nat) (goUp : bool)
    {struct j} : Outcome HPYPModel :=
  if goUp then
    let goUp := false in
    obind (gibbsLevel m path d a payloadDataPath bp y j) (fun '(m1, moved) =>
      if moved then match j with
                    | O => Ok m1
                    | S j' => gibbsWalk m1 path d a payloadDataPath bp y j' goUp
                    end
      else Ok m1)
  else Ok m.

Definition pathAsserts (path : list WrappedNode) (d a : list R) : Outcome unit :=
  assert_ ((0 <? length path)%nat && (length path =? length d)%nat
           && (length path =? length a)%nat).

(** [directGibbsSamplePath]: for every type of the last restaurant with more
    than one customer, walk upwards resampling table counts. *)
Definition directGibbsSamplePath (m : HPYPModel) (path : list WrappedNode)
    (d a : list R) (payloadDataPath : list AData) (bp : R)
  : Outcome HPYPModel :=
  let* _ := pathAsserts path d a in
  let main := payload (back path) in
  fold_left (fun acc y =>
               let* m' := acc in
               if getCw (payloadOf m' main) y =? 1 then Ok m'
               else gibbsWalk m' path d a payloadDataPath bp y (length d - 1)
                              true)
            (getTypeVector (payloadOf m main)) (Ok m).

(** The removal walk of [addRemoveSamplePath]: returns the index where it
    stopped ([-1] past the root). *)
Fixpoint arRemove (m : HPYPModel) (path : list WrappedNode) (d : list R)
    (pdp : list AData) (useAD : bool) (y : Z) (j : nat) {struct j}
  : HPYPModel * Z :=
  let n := payload (nth j path noNode) in
  let ad := if useAD then nth_error pdp j else None in
  let '(f, s', g') := removeCustomer (rng m) (payloadOf m n) y (at_ d j) ad r1 in
  let m1 := withRest m n s' g' in
  if req0 f then (m1, Z.of_nat j)
  else match j with
       | O => (m1, -1)
       | S j' => arRemove m1 path d pdp useAD y j'
       end.

(** The recomputation of the probability path from one past the stopping
    point: [p[j+1]] from the restaurant at index [j]. *)
Fixpoint arRecompute (m : HPYPModel) (path : list WrappedNode) (d a : list R)
    (y : Z) (j : nat) (fuel : nat) (pp : list R) : list R :=
  match fuel with
  | O => pp
  | S fuel' =>
      let pp' := <[S j := computeProbability (payloadOf m (payload
                              (nth j path noNode))) y (at_ pp j) (at_ d j)
                              (at_ a j)]> pp in
      arRecompute m path d a y (S j) fuel' pp'
  end.

(** The seating walk of [addRemoveSamplePath]. *)
Fixpoint arAdd (m : HPYPModel) (path : list WrappedNode) (pp d a : list R)
    (pdp : list AData) (useAD : bool) (y : Z) (j : nat) {struct j}
  : HPYPModel :=
  let n := payload (nth j path noNode) in
  let ad := if useAD then nth_error pdp j else None in
  let '(f, s', g') :=
    addCustomer (rng m) (payloadOf m n) y (at_ pp j) (at_ d j) (at_ a j) ad r1 in
  let m1 := withRest m n s' g' in
  if req0 f then m1
  else match j with
       | O => m1
       | S j' => arAdd m1 path pp d a pdp useAD y j'
       end.

(** One customer of [addRemoveSamplePath]: remove, recompute, re-seat. *)
Definition arCustomer (m : HPYPModel) (path : list WrappedNode) (d a : list R)
    (pdp : list AData) (useAD : bool) (y : Z) (pp : list R)
  : HPYPModel * list R :=
  let top := (length d - 1)%nat in
  let '(m1, jstop) := arRemove m path d pdp useAD y top in
  let j0 := Z.to_nat (Z.max jstop 0) in
  let pp' := arRecompute m1 path d a y j0 (length pp - 1 - j0) pp in
  (arAdd m1 path pp' d a pdp useAD y top, pp').

Fixpoint arCustomers (m : HPYPModel) (path : list WrappedNode) (d a : list R)
    (pdp : list AData) (useAD : bool) (y : Z) (pp : list R) (n : nat)
  : HPYPModel :=
  match n with
  | O => m
  | S n' =>
      let '(m1, pp1) := arCustomer m path d a pdp useAD y pp in
      arCustomers m1 path d a pdp useAD y pp1 n'
  end.

Definition addRemoveSamplePath (m : HPYPModel) (path : list WrappedNode)
    (d a : list R) (payloadDataPath : list AData) (bp : R)
  : Outcome HPYPModel :=
  let* _ := pathAsserts path d a in
  let useAD := (length payloadDataPath =? length path)%nat in
  let main := payload (back path) in
  fold_left (fun acc y =>
               let* m' := acc in
               let cw := getCw (payloadOf m' main) y in
               if cw =? 1 then Ok m'
               else
                 let pp := computeProbabilityPath m' path d a y in
                 Ok (arCustomers m' path d a payloadDataPath useAD y pp
                                 (Z.to_nat cw)))
            (getTypeVector (payloadOf m main)) (Ok m).

(** [makeAdditionalDataPtr] for the node of index [i] of [p]. *)
Definition makeAD (m : HPYPModel) (p : list WrappedNode) (d a : list R)
    (i : nat) : AData :=
  createAdditionalData (payloadOf m (payload (nth i p noNode))) (at_ d i)
                       (at_ a i).

(** The parameter and data paths for the first path of the iterator. *)
Definition initPaths (m : HPYPModel) (p : list WrappedNode)
  : list R * list R * list AData :=
  let d := getDiscounts (params m) p in
  let a := getConcentrations (params m) p d in
  (d, a, map (makeAD m p d a) (List.seq 0 (length p))).

(** The update of the parameter and data paths when the iterator moves to
    [p] from a path of length [pathLength]: sibling, ascent, or ascent then
    descent. *)
Definition advance (m : HPYPModel) (p : list WrappedNode) (pathLength : nat)
    (d a : list R) (pdp : list AData)
  : Outcome (list R * list R * list AData) :=
  let P := params m in
  if (length p =? pathLength)%nat then
    let d' := extendDiscounts P p (removelast d) in
    let a' := extendConcentrations P p d' (removelast a) in
    Ok (d', a', removelast pdp ++ [createAdditionalData
                   (payloadOf m (payload (back p))) (List.last d' r0)
                   (List.last a' r0)])
  else if (length p =? pathLength - 1)%nat then
    Ok (removelast d, removelast a, removelast pdp)
  else
    let d' := extendDiscounts P p (removelast d) in
    let a' := extendConcentrations P p d' (removelast a) in
    let pdp0 := removelast pdp in
    let pdp' := pdp0 ++ map (makeAD m p d' a')
                            (List.seq (length pdp0) (length d' - length pdp0)) in
    let* _ := assert_ (Nat.max (length pdp0) (length d') =? length p)%nat in
    Ok (d', a', pdp').

Definition sampleWith (directGibbs : bool) (m : HPYPModel)
    (p : list WrappedNode) (d a : list R) (pdp : list AData)
  : Outcome HPYPModel :=
  if directGibbs then directGibbsSamplePath m p d a pdp (baseProb m)
  else addRemoveSamplePath m p d a pdp (baseProb m).

Fixpoint sweepLoop (directGibbs : bool) (m : HPYPModel)
    (paths : list (list WrappedNode)) (d a : list R) (pdp : list AData)
    (pathLength : nat) : Outcome HPYPModel :=
  match paths with
  | [] => Ok m
  | p :: rest =>
      if (length p =? 0)%nat then Ok m
      else obind (advance m p pathLength d a pdp) (fun '(d', a', pdp') =>
             obind (sampleWith directGibbs m p d' a' pdp') (fun m1 =>
               sweepLoop directGibbs m1 rest d' a' pdp' (length p)))
  end.

(** [runGibbsSampler(directGibbs)]: sample at every path of the DFS path
    iterator, maintaining the parameter and data paths incrementally. *)
Definition runGibbsSampler (m : HPYPModel) (directGibbs : bool)
  : Outcome HPYPModel :=
  let paths := dfsPaths (tree m) in
  let first := hd [] paths in
  let '(d, a, pdp) := initPaths m first in
  let* m1 := sampleWith directGibbs m first d a pdp in
  sweepLoop directGibbs m1 (tl paths) d a pdp (length first).

(* ------------------------------------------------------------------------ *)
(** ** Joint log-probability *)

(** [computeLogRestaurantProb]: the log-probability of the seating of the
    last restaurant of [path]; the Stirling generator is read from
    [payloadDataPath[j]], and its [getLog] is the log Stirling number it
    tabulates. *)
Definition computeLogRestaurantProb (m : HPYPModel) (path : list WrappedNode)
    (d a : list R) (payloadDataPath : list AData) (bp : R) : Outcome R :=
  let* _ := pathAsserts path d a in
  let s := payloadOf m (payload (back path)) in
  let j := (length d - 1)%nat in
  let c := getC s in
  if c =? 1 then Ok r0
  else
    let t := getT s in
    let lp := radd r0 (logKramp (radd (at_ a j) (at_ d j)) (at_ d j) (t - 1)) in
    let lp := rsub lp (logKramp (radd (at_ a j) r1) r1 (c - 1)) in
    let* _ := vecAt payloadDataPath j in
    Ok (fold_left (fun lp y =>
                     let lp := radd lp (logStirling (getCw s y) (getTw s y)) in
                     if (j =? 0)%nat
                     then radd lp (rmul (of_Z (getTw s y)) (rlog bp))
                     else lp)
                  (getTypeVector s) lp).

Fixpoint jointLoop (m : HPYPModel) (paths : list (list WrappedNode))
    (d a : list R) (pdp : list AData) (pathLength : nat) (logJoint : R)
  : Outcome R :=
  match paths with
  | [] => Ok logJoint
  | p :: rest =>
      if (length p =? 0)%nat then Ok logJoint
      else obind (advance m p pathLength d a pdp) (fun '(d', a', pdp') =>
             obind (computeLogRestaurantProb m p d' a' pdp' (baseProb m))
               (fun lp => jointLoop m rest d' a' pdp' (length p)
                                    (radd logJoint lp)))
  end.

Definition computeLogJoint (m : HPYPModel) : Outcome R :=
  let paths := dfsPaths (tree m) in
  let first := hd [] paths in
  let '(d, a, pdp) := initPaths m first in
  let* lp := computeLogRestaurantProb m first d a pdp (baseProb m) in
  jointLoop m (tl paths) d a pdp (length first) (radd r0 lp).

End Gibbs.

(* ------------------------------------------------------------------------ *)
(** ** Drivers over the sequence, and the consistency check *)

(** The restaurant's own [checkConsistency(payload)]. *)
Class RestaurantCheck {N : Num} (Rs : @Restaurant N) := {
  restCheckConsistency : @RState N Rs -> bool
}.

Section Drivers.

Context {N : Num} {Rs : Restaurant} {CT : ContextTree} {Ps : Parameters}.

(** The loop of [removeAddSweep] over [i = from .. stop-1]: remove [seq[i]]
    and insert it again, along the path of the node of the context
    [start, i], with an empty data path. The timing output is left out. *)
Fixpoint removeAddLoop (m : HPYPModel) (start from : Z) (fuel : nat)
  : Outcome HPYPModel :=
  match fuel with
  | O => Ok m
  | S fuel' =>
      let path := findNode (tree m) start from in
      let* m1 := removeObservation m start from (seqAt m from) [] (Some path) in
      let m2 := snd (insertObservation m1 start from (seqAt m1 from)
                                       (Some path)) in
      removeAddLoop m2 start (from + 1) fuel'
  end.

Definition removeAddSweep (m : HPYPModel) (start stop : Z)
  : Outcome HPYPModel :=
  removeAddLoop m start start (Z.to_nat (stop - start)).

(** The loop of [computeLossesWithDeletion] over [i = from .. stop-1]: as
    the loop of [computeLosses], and then, when [i - lag >= start], the
    removal of [seq[i - lag]] along the path of the node of the context
    [start, i - lag]. *)
Fixpoint lossDelLoop (m : HPYPModel) (start from lag : Z) (fuel : nat)
  : Outcome (list R * HPYPModel) :=
  match fuel with
  | O => Ok ([], m)
  | S fuel' =>
      obind (insertContextAndObservation m start from (seqAt m from))
        (fun '(prob_path, m1) =>
           let prob := at_ prob_path (length prob_path - 2)%nat in
           let* m2 :=
             if start <=? from - lag then
               let path := findNode (tree m1) start (from - lag) in
               removeObservation m1 start (from - lag) (seqAt m1 (from - lag))
                                 [] (Some path)
             else Ok m1 in
           obind (lossDelLoop m2 start (from + 1) lag fuel')
             (fun '(rest, m3) => Ok (ropp (rlog2 prob) :: rest, m3)))
  end.

Definition computeLossesWithDeletion (m : HPYPModel) (start stop lag : Z)
  : Outcome (list R * HPYPModel) :=
  let m1 := insertRoot m (seqAt m start) in
  obind (lossDelLoop m1 start (start + 1) lag (Z.to_nat (stop - (start + 1))))
    (fun '(losses, m2) => Ok (rlog2 (of_Z (numTypes m)) :: losses, m2)).

Inductive PredictMode := ABOVE | FRAGMENT | BELOW.

(** The loop of [predictSequence] over [i = from .. stop-1]. *)
Fixpoint predictLoop (m : HPYPModel) (start from : Z) (mode : PredictMode)
    (fuel : nat) : list R * HPYPModel :=
  match fuel with
  | O => ([], m)
  | S fuel' =>
      let '(p, m1) :=
        match mode with
        | ABOVE => predict m start from (seqAt m from)
        | FRAGMENT => predictWithFragmentation m start from (seqAt m from)
        | BELOW => predictBelow m start from (seqAt m from)
        end in
      let '(ps, m2) := predictLoop m1 start (from + 1) mode fuel' in
      (p :: ps, m2)
  end.

Definition predictSequence (m : HPYPModel) (start stop : Z)
    (mode : PredictMode) : list R * HPYPModel :=
  predictLoop m start start mode (Z.to_nat (stop - start)).

(** [insertContextAndObservation(0, i, seq[i])] for [i = from .. ]. *)
Fixpoint treeLoop (m : HPYPModel) (from : Z) (fuel : nat)
  : Outcome HPYPModel :=
  match fuel with
  | O => Ok m
  | S fuel' =>
      obind (insertContextAndObservation m 0 from (seqAt m from))
        (fun '(_, m1) => treeLoop m1 (from + 1) fuel')
  end.

Definition buildTree (m : HPYPModel) (stop : Z) : Outcome HPYPModel :=
  treeLoop (insertRoot m (seqAt m 0)) 1 (Z.to_nat (stop - 1)).

Definition updateTree (m : HPYPModel) (start stop : Z) : Outcome HPYPModel :=
  treeLoop m start (Z.to_nat (stop - start)).

(** [table_counts[*key_it] += getT(child, *key_it)] over the children and
    the types of each child, from an empty [std::map]. *)
Definition childTableCounts (m : HPYPModel) (children : list WrappedNode)
  : gmap Z Z :=
  fold_left (fun tc ch =>
               let s := payloadOf m (payload ch) in
               fold_left (fun tc y => <[y := default 0 (tc !! y) + getTw s y]> tc)
                         (getTypeVector s) tc)
            children ∅.

(** [checkConsistency(node, children)]: the restaurant's own check, and
    [getC(node, y) >= table_counts[y]] for every entry of the map. The map
    is visited in the order of its keys; the conjunction does not depend on
    the order. The diagnostic output is left out. *)
Definition checkConsistencyNode {RC : RestaurantCheck Rs} (m : HPYPModel)
    (node : WrappedNode) (children : list WrappedNode) : bool :=
  let consistent := restCheckConsistency (payloadOf m (payload node)) in
  fold_left (fun consistent '(y, n) =>
               (n <=? getCw (payloadOf m (payload node)) y) && consistent)
            (map_to_list (childTableCounts m children)) consistent.

End Drivers.

(* ------------------------------------------------------------------------ *)
(** ** Small concrete collaborators

    Concrete instances of the interfaces, on which the model is run below on
    small inputs. *)

Module Toy.

(** A rational stand-in for doubles: exact arithmetic; the transcendental
    functions, on which none of the runs below depends, are replaced by
    rational stand-ins. *)
Definition QNum : Num := {|
  R := Q; r0 := 0%Q; r1 := 1%Q; radd := Qplus; rsub := Qminus;
  rmul := Qmult; rdiv := Qdiv; ropp := Qopp; of_Z := inject_Z;
  rlog := fun x => Qminus x 1; rlog2 := fun x => Qminus x 1;
  rexp := fun x => Qplus 1 x; rmax := fun x y => if Qle_bool x y then y else x; neg_inf := (-1000000)%Q;
  req0 := fun x => Qeq_bool x 0;
  logKramp := fun _ _ _ => 0%Q; logStirling := fun _ _ => 0%Q |}.

#[local] Existing Instance QNum.

(** Per-type entries of a restaurant, by type. *)
Fixpoint lookupE {V} (dflt : V) (s : list (Z * V)) (y : Z) : V :=
  match s with
  | [] => dflt
  | (y', v) :: s' => if y' =? y then v else lookupE dflt s' y
  end.

Fixpoint updE {V} (s : list (Z * V)) (y : Z) (v : V) : list (Z * V) :=
  match s with
  | [] => [(y, v)]
  | (y', v') :: s' => if y' =? y then (y, v) :: s' else (y', v') :: updE s' y v
  end.

Definition sumZ (l : list Z) : Z := fold_right Z.add 0 l.

(** The predictive formula of the Pitman-Yor restaurant,
    [((cw - d tw) + (a + d t) pp) / (a + c)], and [pp] when empty. *)
Definition pyProb (c t cw tw : Z) (pp d a : Q) : Q :=
  if c =? 0 then pp
  else ((inject_Z cw - d * inject_Z tw) + (a + d * inject_Z t) * pp)
       / (a + inject_Z c).

(** A scripted random source: the successive draws of one run. *)
Definition draw (g : list nat) : nat * list nat := (hd 0%nat g, tl g).

Fixpoint removeAt (ts : list Z) (i : nat) : option (list Z * bool) :=
  match ts, i with
  | [], _ => None
  | t :: ts', O => Some (if t =? 1 then (ts', true) else ((t - 1) :: ts', false))
  | t :: ts', S i' =>
      match removeAt ts' i' with
      | Some (r, closed) => Some (t :: r, closed)
      | None => None
      end
  end.

(** Modelled from the spec: the add/remove restaurant with explicit tables
    (for each type the sizes of its tables).  Seating draws from the random
    source: draw 0 opens a new table (returning the fraction 1), draw [k > 0]
    joins table [k - 1] (returning 0).  Removal draws the table [k] that
    loses the customer, and returns 1 when the table closes.  It has no
    direct mutators: [setT] and [setC] leave it unchanged. *)
Definition TableRest : @Restaurant QNum := {|
  RState := list (Z * list Z);
  AData := unit;
  Rng := list nat;
  make := [];
  computeProbability := fun s y pp d a =>
    let ts := lookupE [] s y in
    pyProb (sumZ (map (fun e => sumZ (snd e)) s))
           (Z.of_nat (sum_list_with (fun e => length (snd e)) s))
           (sumZ ts) (Z.of_nat (length ts)) pp d a;
  addCustomer := fun g s y pp d a _ w =>
    let '(k, g') := draw g in
    let ts := lookupE [] s y in
    match k with
    | O => (1%Q, updE s y (ts ++ [1]), g')
    | S i => if (i <? length ts)%nat
             then (0%Q, updE s y (alter Z.succ i ts), g')
             else (1%Q, updE s y (ts ++ [1]), g')
    end;
  removeCustomer := fun g s y d _ frac =>
    let '(k, g') := draw g in
    match removeAt (lookupE [] s y) k with
    | Some (ts', true) => (1%Q, updE s y ts', g')
    | Some (ts', false) => (0%Q, updE s y ts', g')
    | None => (0%Q, s, g')
    end;
  updateAfterSplit := fun o n _ _ _ =>
    (o, map (fun e => (fst e, [Z.of_nat (length (snd e))])) o);
  getTypeVector := fun s => map fst (filter (fun e => bool_decide (snd e <> [])) s);
  getCw := fun s y => sumZ (lookupE [] s y);
  getTw := fun s y => Z.of_nat (length (lookupE [] s y));
  getC := fun s => sumZ (map (fun e => sumZ (snd e)) s);
  getT := fun s => Z.of_nat (sum_list_with (fun e => length (snd e)) s);
  setT := fun s _ _ => s;
  setC := fun s _ _ => s;
  createAdditionalData := fun _ _ _ => tt;
  sample_unnormalized_pdf := fun g _ => draw g |}.

(** A restaurant that keeps only the counts [(c(y), t(y))] of each type, with
    direct mutators: a customer opens a table exactly when its type had no
    customer, and leaves its table closed exactly when it was the last one
    (the Kneser-Ney seating). *)
Definition CountRest : @Restaurant QNum := {|
  RState := list (Z * (Z * Z));
  AData := unit;
  Rng := list nat;
  make := [];
  computeProbability := fun s y pp d a =>
    let '(cw, tw) := lookupE (0, 0) s y in
    pyProb (sumZ (map (fun e => fst (snd e)) s))
           (sumZ (map (fun e => snd (snd e)) s)) cw tw pp d a;
  addCustomer := fun g s y pp d a _ w =>
    let '(cw, tw) := lookupE (0, 0) s y in
    if cw =? 0 then (1%Q, updE s y (1, tw + 1), g)
    else (0%Q, updE s y (cw + 1, tw), g);
  removeCustomer := fun g s y d _ frac =>
    let '(cw, tw) := lookupE (0, 0) s y in
    if cw =? 1 then (1%Q, updE s y (0, tw - 1), g)
    else (0%Q, updE s y (cw - 1, tw), g);
  updateAfterSplit := fun o n _ _ _ =>
    (o, map (fun e => (fst e, (snd (snd e), Z.min 1 (snd (snd e))))) o);
  getTypeVector := fun s => map fst (filter (fun e => bool_decide (fst (snd e) <> 0)) s);
  getCw := fun s y => fst (lookupE (0, 0) s y);
  getTw := fun s y => snd (lookupE (0, 0) s y);
  getC := fun s => sumZ (map (fun e => fst (snd e)) s);
  getT := fun s => sumZ (map (fun e => snd (snd e)) s);
  setT := fun s y v => updE s y (fst (lookupE (0, 0) s y), v);
  setC := fun s y v => updE s y (v, snd (lookupE (0, 0) s y));
  createAdditionalData := fun _ _ _ => tt;
  sample_unnormalized_pdf := fun g _ => draw g |}.

(** A fixed tree given by the paths of its DFS traversal, the root path
    first; every lookup answers the root path and insertion does not split. *)
Definition StaticTree : ContextTree := {|
  Tree := list (list WrappedNode);
  findLongestSuffix := fun t _ _ => hd [] t;
  findLongestSuffixVirtual := fun t _ _ => (0, hd [] t);
  findNode := fun t _ _ => hd [] t;
  insertCtx := fun t _ _ =>
    (mkInsertionResult (hd [] t) INSERT_ACTION_NO_SPLIT noNode, t);
  dfsPaths := fun t => t |}.

(** Constant parameters: discount 1/2 and concentration 1 at every node. *)
Definition ConstParams {Rs : @Restaurant QNum} : @Parameters QNum Rs := {|
  Params := unit;
  getDiscounts := fun _ p => map (fun _ => (1 # 2)%Q) p;
  getConcentrations := fun _ p _ => map (fun _ => 1%Q) p;
  getDiscount := fun _ _ _ => (1 # 2)%Q;
  getConcentration := fun _ _ _ _ => 1%Q;
  extendDiscounts := fun _ p _ => map (fun _ => (1 # 2)%Q) p;
  extendConcentrations := fun _ p _ _ => map (fun _ => 1%Q) p;
  accumulateParameterGradient := fun _ _ _ _ _ _ _ => tt;
  stepParameterGradient := fun _ _ => tt |}.

(** The root and one child, with payload handles 0 and 1. *)
Definition rootN : WrappedNode := mkWNode 0 0 0 0.
Definition childN : WrappedNode := mkWNode 0 1 1 1.

(** A model over the count restaurant whose tree is a single root that has
    seen one [0]. *)
Definition rootModel : @HPYPModel QNum CountRest StaticTree ConstParams :=
  @mkModel QNum CountRest StaticTree ConstParams [0; 1] [[rootN]] {[0%nat := [(0, (1, 1))]]} [] tt 2.

(** A root with one child, both over the count restaurant: the root has
    one customer of type [0] at one table, the child two customers of type
    [0] at one table; the random source will draw [1] and then [0]. *)
Definition gibbsPath : list WrappedNode := [rootN; childN].

Definition gibbsModel : @HPYPModel QNum CountRest StaticTree ConstParams :=
  @mkModel QNum CountRest StaticTree ConstParams [0; 1] [[rootN]; gibbsPath]
    (<[1%nat := [(0, (2, 1))]]> {[0%nat := [(0, (1, 1))]]}) [1%nat; 0%nat] tt 2.

Definition gibbsD : list Q := [1 # 2; 1 # 2].
Definition gibbsA : list Q := [1%Q; 1%Q].

(** A root over the table restaurant with two tables of type [0], of one
    and two customers; the random source will draw [2] and then [0]. *)
Definition tableModel : @HPYPModel QNum TableRest StaticTree ConstParams :=
  @mkModel QNum TableRest StaticTree ConstParams [0; 1] [[rootN]]
    {[0%nat := [(0, [1; 2])]]} [2%nat; 0%nat] tt 2.

(** A count restaurant that keeps every seating consistent: a customer opens
    a table exactly when its type had no customer, and a leaving customer
    closes a table exactly when every table of its type has one customer.
    Its type vector lists the types with customers, and its sampler draws
    from the random source an index clamped to the vector. *)
Definition KRest : @Restaurant QNum := {|
  RState := list (Z * (Z * Z));
  AData := unit;
  Rng := list nat;
  make := [];
  computeProbability := fun s y pp d a =>
    let '(cw, tw) := lookupE (0, 0) s y in
    pyProb (sumZ (map (fun e => fst (snd e)) s))
           (sumZ (map (fun e => snd (snd e)) s)) cw tw pp d a;
  addCustomer := fun g s y pp d a _ w =>
    let '(cw, tw) := lookupE (0, 0) s y in
    if cw =? 0 then (1%Q, updE s y (1, tw + 1), g)
    else (0%Q, updE s y (cw + 1, tw), g);
  removeCustomer := fun g s y d _ frac =>
    let '(cw, tw) := lookupE (0, 0) s y in
    if tw =? cw then (1%Q, updE s y (cw - 1, tw - 1), g)
    else (0%Q, updE s y (cw - 1, tw), g);
  updateAfterSplit := fun o n _ _ _ =>
    (o, map (fun e => (fst e, (snd (snd e), Z.min 1 (snd (snd e))))) o);
  getTypeVector := fun s =>
    List.filter (fun y => negb (fst (lookupE (0, 0) s y) =? 0)) (map fst s);
  getCw := fun s y => fst (lookupE (0, 0) s y);
  getTw := fun s y => snd (lookupE (0, 0) s y);
  getC := fun s => sumZ (map (fun e => fst (snd e)) s);
  getT := fun s => sumZ (map (fun e => snd (snd e)) s);
  setT := fun s y v => updE s y (fst (lookupE (0, 0) s y), v);
  setC := fun s y v => updE s y (v, snd (lookupE (0, 0) s y));
  createAdditionalData := fun _ _ _ => tt;
  sample_unnormalized_pdf := fun g ws =>
    let '(k, g') := draw g in (Nat.min k (length ws - 1), g') |}.

(** A root with two customers of type [0] at one table, and a child with two
    customers of type [0] at two tables, over [KRest]; the random source
    will draw [0] twice. *)
Definition sweepModel : @HPYPModel QNum KRest StaticTree ConstParams :=
  @mkModel QNum KRest StaticTree ConstParams [0; 1] [[rootN]; gibbsPath]
    (<[1%nat := [(0, (2, 2))]]> {[0%nat := [(0, (2, 1))]]}) [0%nat; 0%nat] tt 2.

(** The child relation of the tree of [sweepModel]. *)
Definition sweepChildren (h : nat) : list nat :=
  match h with O => [1%nat] | _ => [] end.

End Toy.

(* ------------------------------------------------------------------------ *)
(** ** Contracts of the collaborators and observational equality *)

Section Contracts.

Context {N : Num} {Rs : Restaurant} {CT : ContextTree} {Ps : Parameters}.

(** Modelled from the spec: a context lies on an exact node of the tree when
    the virtual lookup reports no fragment and the same path as the ordinary
    lookup. *)
Definition onExactNode (t : Tree) (start stop : Z) : Prop :=
  findLongestSuffixVirtual t start stop = (0, findLongestSuffix t start stop).

(** Modelled from the spec: [updateAfterSplit(old, new, dBefore, dAfter,
    true)] updates the new payload only. *)
Definition splitUpdatesNewOnly : Prop :=
  forall o n dB dA, fst (updateAfterSplit o n dB dA true) = o.

(** Two model states that agree on the sequence, the tree, the parameters,
    the random source, the alphabet and the restaurant of every handle. *)
Definition sameState (m m' : HPYPModel) : Prop :=
  seq m' = seq m /\ tree m' = tree m /\ params m' = params m /\
  rng m' = rng m /\ numTypes m' = numTypes m /\
  forall p, payloadOf m' p = payloadOf m p.

(** Exact addition: [0] is a left unit, and [+] is commutative and
    associative (true of the reals, not of doubles). *)
Definition exactAddition : Prop :=
  (forall x, radd r0 x = x) /\ (forall x y, radd x y = radd y x) /\
  (forall x y z, radd (radd x y) z = radd x (radd y z)).

Definition sumR (l : list R) : R := fold_right radd r0 l.

(** The spec's log-probability of the seating of one restaurant [s] with
    discount [d] and concentration [a]: [0] when [c = 1], and otherwise
    [logKramp(a + d, d, t - 1) - logKramp(a + 1, 1, c - 1)
     + sum_y logStirling(c(y), t(y))], plus [sum_y t(y) log(baseProb)] at
    the root. *)
Definition logRestaurantProbSpec (s : RState) (d a bp : R) (isRoot : bool)
  : R :=
  if getC s =? 1 then r0
  else
    let base :=
      radd (rsub (logKramp (radd a d) d (getT s - 1))
                 (logKramp (radd a r1) r1 (getC s - 1)))
           (sumR (map (fun y => logStirling (getCw s y) (getTw s y))
                      (getTypeVector s))) in
    if isRoot
    then radd base (sumR (map (fun y => rmul (of_Z (getTw s y)) (rlog bp))
                              (getTypeVector s)))
    else base.

(** The contribution of the last node of the root path [p], with the
    parameters of [p] as the provider computes them for the whole path. *)
Definition nodeContribution (m : HPYPModel) (p : list WrappedNode) : R :=
  let d := getDiscounts (params m) p in
  let a := getConcentrations (params m) p d in
  let j := (length p - 1)%nat in
  logRestaurantProbSpec (payloadOf m (payload (back p))) (at_ d j) (at_ a j)
                        (baseProb m) (length p =? 1)%nat.

(** Modelled from the spec: the parameter paths.  [d[j]] and [a[j]] depend on
    the nodes [j - 1] and [j] only, so the paths of a prefix are the prefixes
    of the paths; the incremental variants complete a prefix of the batch
    paths. *)
Definition paramsCoherent (P : Params) : Prop :=
  (forall p, length (getDiscounts P p) = length p) /\
  (forall p, length (getConcentrations P p (getDiscounts P p)) = length p) /\
  (forall p ext, getDiscounts P p
                 = firstn (length p) (getDiscounts P (p ++ ext))) /\
  (forall p ext, getConcentrations P p (getDiscounts P p)
                 = firstn (length p) (getConcentrations P (p ++ ext)
                                        (getDiscounts P (p ++ ext)))) /\
  (forall q k, extendDiscounts P q (firstn k (getDiscounts P q))
               = getDiscounts P q) /\
  (forall q k, extendConcentrations P q (getDiscounts P q)
                 (firstn k (getConcentrations P q (getDiscounts P q)))
               = getConcentrations P q (getDiscounts P q)).

(** Modelled from the spec: each path of the DFS path iterator drops the last
    node of the previous one and appends nodes (none: ascent; one: sibling;
    more: ascent then descent). *)
Fixpoint dfsSteps (ps : list (list WrappedNode)) : Prop :=
  match ps with
  | p :: ((q :: _) as rest) =>
      (exists ext, q = removelast p ++ ext) /\ dfsSteps rest
  | _ => True
  end.

(** Modelled from the spec: the iterator visits non-empty root paths. *)
Definition dfsOrder (t : Tree) : Prop :=
  dfsPaths t <> [] /\ Forall (fun p => p <> []) (dfsPaths t) /\
  dfsSteps (dfsPaths t).

(** Exact subtraction and negation, on top of exact addition: [x - y] is
    [x + -y] and [-(x + y)] is [-x + -y]. *)
Definition exactArith : Prop :=
  exactAddition /\ (forall x y, rsub x y = radd x (ropp y)) /\
  (forall x y, ropp (radd x y) = radd (ropp x) (ropp y)).

(** The candidate table counts [tw = 1 .. n]. *)
Definition candidates (n : nat) : list Z :=
  map (fun i => Z.of_nat i + 1) (List.seq 0 n).

(** The spec's log-weight of the candidate [tw] for a non-root node: [-oo]
    when [newParentCw < parentTw], and otherwise
    [logKramp(a + d, d, otherT + tw - 1)
     - logKramp(a_parent + 1, 1, parentOtherC + tw - 1)
     + logStirling(cw, tw) + logStirling(newParentCw, parentTw)]. *)
Definition specLogWeightNonRoot (d a aParent : R) (cw currentTw otherT
    parentCw parentTw parentOtherC : Z) (tw : Z) : R :=
  let newParentCw := parentCw - currentTw + tw in
  if newParentCw <? parentTw then neg_inf
  else radd (radd (rsub (logKramp (radd a d) d (otherT + tw - 1))
                        (logKramp (radd aParent r1) r1 (parentOtherC + tw - 1)))
                  (logStirling cw tw))
            (logStirling newParentCw parentTw).

(** The spec's log-weight of the candidate [tw] at the root:
    [logKramp(a + d, d, otherT + tw - 1) + logStirling(cw, tw)
     + tw log(baseProb)]. *)
Definition specLogWeightRoot (d a bp : R) (cw otherT : Z) (tw : Z) : R :=
  radd (radd (logKramp (radd a d) d (otherT + tw - 1)) (logStirling cw tw))
       (rmul (of_Z tw) (rlog bp)).

(** The loss recorded for a probability path: [-log2] of its second to last
    entry. *)
Definition lossOf (prob_path : list R) : R :=
  ropp (rlog2 (at_ prob_path (length prob_path - 2))).

(** The probability paths returned by the calls
    [insertContextAndObservation(start, i, seq[i])] for [i = from, from+1,
    ...] ([fuel] calls), each on the state the previous one left. *)
Fixpoint insertTrace (m : HPYPModel) (start from : Z) (fuel : nat)
  : Outcome (list (list R) * HPYPModel) :=
  match fuel with
  | O => Ok ([], m)
  | S fuel' =>
      obind (insertContextAndObservation m start from (seqAt m from))
        (fun '(pp, m1) =>
           obind (insertTrace m1 start (from + 1) fuel')
             (fun '(pps, m2) => Ok (pp :: pps, m2)))
  end.

(** Two restaurant states with the same counts: [c], [t], and [c(y)],
    [t(y)] for every type [y]. *)
Definition sameCounts (s s' : RState) : Prop :=
  getC s = getC s' /\ getT s = getT s' /\
  forall y, getCw s y = getCw s' y /\ getTw s y = getTw s' y.

(** Modelled from the spec: removal undoes seating.  Right after
    [addCustomer] seated a customer of type [y] with the weight [w] and
    returned the fraction [f], [removeCustomer] of the same type with the
    weight [w] returns [f] as well and brings every count back, whatever the
    random source, the discount and the additional data. *)
Definition removeUndoesAdd : Prop :=
  forall g s y pp d a w f s1 g1,
    addCustomer g s y pp d a None w = (f, s1, g1) ->
    forall g2 d' ad,
      fst (fst (removeCustomer g2 s1 y d' ad w)) = f /\
      sameCounts (snd (fst (removeCustomer g2 s1 y d' ad w))) s.

(** Two model states with the same sequence, tree, parameters and alphabet
    size: they may differ only in their restaurants and random source. *)
Definition keepsShape (m m' : HPYPModel) : Prop :=
  seq m' = seq m /\ tree m' = tree m /\ params m' = params m /\
  numTypes m' = numTypes m.

(** The entry assertions of the path samplers: a non-empty path with
    discount and concentration paths of its length. *)
Definition alignedPath (path : list WrappedNode) (d a : list R) : Prop :=
  path <> [] /\ length d = length path /\ length a = length path.

(** [m'] differs from [m] at most in the random source and the restaurants
    of the handles satisfying [T]. *)
Definition touchesOnly (T : nat -> Prop) (m m' : HPYPModel) : Prop :=
  keepsShape m m' /\ forall h, ~ T h -> payloadOf m' h = payloadOf m h.

(** How often [y] occurs in a type vector. *)
Definition typeOccurrences (ys : list Z) (y : Z) : Z :=
  Z.of_nat (length (List.filter (Z.eqb y) ys)).

(** The tables of type [y] over the children: for each child, [t(child, y)]
    once per occurrence of [y] in the child's type vector. *)
Definition childTables (m : HPYPModel) (children : list WrappedNode) (y : Z)
  : Z :=
  fold_right Z.add 0
    (map (fun ch => let s := payloadOf m (payload ch) in
                    typeOccurrences (getTypeVector s) y * getTw s y) children).

(** Invariant 1 of the spec (per-node consistency) for one restaurant, with
    counts that are naturals: [0 <= t(y) <= c(y)], and [t(y) >= 1] exactly
    when [c(y) >= 1], for every type. *)
Definition restConsistent (s : RState) : Prop :=
  forall y, 0 <= getTw s y <= getCw s y /\ (1 <= getTw s y <-> 1 <= getCw s y).

Definition nodesConsistent (m : HPYPModel) : Prop :=
  forall h, restConsistent (payloadOf m h).

(** [sum_{C in hs} t(C, y)]. *)
Definition kidTables (m : HPYPModel) (hs : list nat) (y : Z) : Z :=
  fold_right Z.add 0 (map (fun h => getTw (payloadOf m h) y) hs).

(** Invariant 2 of the spec (hierarchical consistency), for the children
    [children h] of each payload handle [h]:
    [c(h, y) >= sum_{C in children h} t(C, y)]. *)
Definition hierConsistent (children : nat -> list nat) (m : HPYPModel) : Prop :=
  forall h y, kidTables m (children h) y <= getCw (payloadOf m h) y.

(** How far [c(h, y)] exceeds the tables of [h]'s children:
    [hierConsistent] says it is never negative. *)
Definition slack (children : nat -> list nat) (m : HPYPModel) (h : nat) (y : Z)
  : Z :=
  getCw (payloadOf m h) y - kidTables m (children h) y.

(** Modelled from the spec: [children] is the child relation of a tree whose
    root-to-node paths are [paths]: each node is listed once and has at most
    one parent, the first node of a path is the root (no one's child), and
    each node of a path is a child of the one before it, the nodes of a path
    being distinct. *)
Definition treeShaped (children : nat -> list nat)
    (paths : list (list WrappedNode)) : Prop :=
  (forall h, List.NoDup (children h)) /\
  (forall h h' c, In c (children h) -> In c (children h') -> h = h') /\
  Forall (fun p =>
    List.NoDup (map payload p) /\
    (forall h, ~ In (payload (nth 0 p noNode)) (children h)) /\
    (forall j, (S j < length p)%nat ->
       In (payload (nth (S j) p noNode)) (children (payload (nth j p noNode)))))
    paths.

(** Modelled from the spec: the direct mutators set one count of one
    type. *)
Definition settersExact : Prop :=
  (forall s y v y', getTw (setT s y v) y' = if y' =? y then v else getTw s y') /\
  (forall s y v y', getCw (setT s y v) y' = getCw s y') /\
  (forall s y v y', getCw (setC s y v) y' = if y' =? y then v else getCw s y') /\
  (forall s y v y', getTw (setC s y v) y' = getTw s y').

(** Modelled from the spec: the type vector lists types that have
    customers. *)
Definition typesSeated : Prop :=
  forall s y, In y (getTypeVector s) -> getCw s y <> 0.

(** [sample_unnormalized_pdf] draws an index of the vector it is given. *)
Definition samplerInRange : Prop :=
  forall g ws, ws <> [] -> (fst (sample_unnormalized_pdf g ws) < length ws)%nat.

(** Modelled from the spec: seating a customer of type [y] in a consistent
    restaurant adds one to [c(y)] and opens a table exactly when the returned
    fraction is not zero; unseating one from a type with customers takes one
    from [c(y)] and closes a table exactly when the fraction is not zero.
    Both keep the other types and the restaurant's consistency. *)
Definition seatingExact : Prop :=
  (forall g s y pp d a ad w f s' g',
     addCustomer g s y pp d a ad w = (f, s', g') -> restConsistent s ->
     restConsistent s' /\ getCw s' y = getCw s y + 1 /\
     getTw s' y = getTw s y + (if req0 f then 0 else 1) /\
     forall y', y' <> y -> getCw s' y' = getCw s y' /\ getTw s' y' = getTw s y') /\
  (forall g s y d ad frac f s' g',
     removeCustomer g s y d ad frac = (f, s', g') -> restConsistent s ->
     1 <= getCw s y ->
     restConsistent s' /\ getCw s' y = getCw s y - 1 /\
     getTw s' y = getTw s y - (if req0 f then 0 else 1) /\
     forall y', y' <> y -> getCw s' y' = getCw s y' /\ getTw s' y' = getTw s y').

End Contracts.

(* ======================================================================== *)
(** * Proofs *)

Section PathProofs.

Context {N : Num} {Rs : Restaurant} {CT : ContextTree} {Ps : Parameters}.

Lemma length_probLoop m it j d a obs prob :
  length (probLoop m it j d a obs prob) = length it.
Proof.
  revert j prob. induction it as [|n it IH]; intros j prob; simpl; auto.
Qed.

Lemma nth_probLoop m it j0 d a obs prob k :
  (k < length it)%nat ->
  nth k (probLoop m it j0 d a obs prob) r0 =
  computeProbability (payloadOf m (payload (nth k it noNode))) obs
    (nth k (prob :: probLoop m it j0 d a obs prob) r0)
    (at_ d (j0 + k)) (at_ a (j0 + k)).
Proof.
  revert j0 prob k. induction it as [|n it IH]; intros j0 prob k Hk;
    simpl in Hk; [lia|].
  destruct k as [|k].
  - simpl. now rewrite Nat.add_0_r.
  - cbn [probLoop nth].
    rewrite IH by lia. cbn [nth].
    now rewrite Nat.add_succ_r.
Qed.

(** C1: [computeProbabilityPath] returns [|path|+1] probabilities; the first
    is the base probability [1/numTypes] and entry [j >= 1] is the
    restaurant's predictive probability at node [j-1] given entry [j-1] and
    the parameters of index [j-1]. *)
Theorem computeProbabilityPath_spec (m : HPYPModel) (path : list WrappedNode)
    (d a : list R) (obs : Z) :
  let p := computeProbabilityPath m path d a obs in
  length p = S (length path) /\
  at_ p 0 = rdiv r1 (of_Z (numTypes m)) /\
  (forall j, (1 <= j <= length path)%nat ->
     at_ p j =
     computeProbability (payloadOf m (payload (nth (j - 1) path noNode))) obs
       (at_ p (j - 1)) (at_ d (j - 1)) (at_ a (j - 1))).
Proof.
  cbv zeta. unfold computeProbabilityPath. split; [|split].
  - simpl. now rewrite length_probLoop.
  - reflexivity.
  - intros j Hj. destruct j as [|j]; [lia|].
    replace (S j - 1)%nat with j by lia.
    unfold at_ at 1 2. simpl.
    rewrite nth_probLoop by lia. reflexivity.
Qed.

Lemma updateLoop_seatFrom m pre x suf pp d a obs w :
  updateLoop m (x :: rev pre) (length pre) pp d a obs w =
  seatFrom m (pre ++ x :: suf) pp d a obs (length pre) w.
Proof.
  revert x suf m w. induction pre as [|y pre IH] using rev_ind;
    intros x suf m w.
  - simpl. destruct (addCustomer _ _ _ _ _ _ _ _) as [[f s'] g'].
    now destruct (req0 f).
  - rewrite rev_app_distr, length_app. simpl.
    replace (length pre + 1)%nat with (S (length pre)) by lia.
    rewrite <- app_assoc. simpl.
    assert (Hx : nth (S (length pre)) (pre ++ y :: x :: suf) noNode = x).
    { rewrite app_nth2 by lia. now replace (S (length pre) - length pre)%nat
        with 1%nat by lia. }
    rewrite Hx.
    destruct (addCustomer _ _ _ _ _ _ _ _) as [[f s'] g'].
    destruct (req0 f); [reflexivity|].
    rewrite Nat.sub_0_r. exact (IH y (x :: suf) (withRest m (payload x) s' g') f).
Qed.

(** C2: [updatePath] seats one observation on a non-empty path [path ++ [n]]
    ([n] the deepest node, of index [|path|]) exactly as [seatFrom]: from the
    deepest node towards the root, [addCustomer] at the node of index [k]
    with parent probability [p[k]] and the previously returned fraction as
    weight (initially 1), stopping as soon as the fraction is 0. *)
Theorem updatePath_deepest_to_root (m : HPYPModel) (path : list WrappedNode)
    (n : WrappedNode) (pp d a : list R) (obs : Z) :
  updatePath m (path ++ [n]) pp d a obs =
  seatFrom m (path ++ [n]) pp d a obs (length path) r1.
Proof.
  unfold updatePath. rewrite rev_app_distr, length_app. simpl.
  replace (length path + 1 - 1)%nat with (length path) by lia.
  apply updateLoop_seatFrom.
Qed.

End PathProofs.

(* ------------------------------------------------------------------------ *)
(** ** Removal with a null cached path *)

Section RemoveProofs.

Context {N : Num} {Rs : Restaurant} {CT : ContextTree} {Ps : Parameters}.

(** C9: with [cached_path == NULL], [removeObservation] still evaluates the
    assertion [path.back().end == cached_path->back().end], so every such
    call ends in the dereference of the null pointer, whatever the lookup
    returned. *)
Theorem removeObservation_null_cached_path (m : HPYPModel) (start stop obs : Z)
    (payloadDataPath : list AData) :
  removeObservation m start stop obs payloadDataPath None = Crash NullDeref.
Proof. reflexivity. Qed.

End RemoveProofs.

(* ------------------------------------------------------------------------ *)
(** ** Prediction modes *)

Section PredictProofs.

Context {N : Num} {Rs : Restaurant} {CT : ContextTree} {Ps : Parameters}.

(** C7: when the virtual lookup reports no fragment, [predictWithFragmentation]
    returns the value of [predictBelow]; on a context that lies on an exact
    node, [predict], [predictBelow] and [predictWithFragmentation] return the
    same value. *)
Theorem prediction_modes_agree (m : HPYPModel) (start stop obs : Z) :
  (fst (findLongestSuffixVirtual (tree m) start stop) = 0 ->
   fst (predictWithFragmentation m start stop obs)
   = fst (predictBelow m start stop obs)) /\
  (onExactNode (tree m) start stop ->
   fst (predict m start stop obs) = fst (predictBelow m start stop obs) /\
   fst (predictBelow m start stop obs)
   = fst (predictWithFragmentation m start stop obs)).
Proof.
  unfold predictWithFragmentation, predictBelow, predict, onExactNode.
  destruct (findLongestSuffixVirtual (tree m) start stop) as [fl vp] eqn:E.
  split.
  - simpl. intros ->. reflexivity.
  - intros H. injection H as -> ->. split; reflexivity.
Qed.

End PredictProofs.

Lemma prediction_modes_agree_witness :
  fst (@predict _ _ _ _ Toy.rootModel 0 1 0)
  = fst (predictBelow Toy.rootModel 0 1 0) /\
  fst (predictBelow Toy.rootModel 0 1 0)
  = fst (predictWithFragmentation Toy.rootModel 0 1 0).
Proof.
  apply (proj2 (prediction_modes_agree Toy.rootModel 0 1 0)).
  reflexivity.
Defined.

(* ------------------------------------------------------------------------ *)
(** ** Frame of the predictive queries *)

Section FrameProofs.

Context {N : Num} {Rs : Restaurant} {CT : ContextTree} {Ps : Parameters}.

Lemma sameState_refl (m : HPYPModel) : sameState m m.
Proof. repeat split. Qed.

Lemma freshPayload_unused (m : HPYPModel) : rests m !! freshPayload m = None.
Proof.
  apply not_elem_of_dom. unfold freshPayload. apply is_fresh.
Qed.

(** C10: [predict], [predictBelow], [predictWithFragmentation],
    [predictiveDistribution] and [predictiveDistributionWithMixing] leave the
    tree, the parameters, the random source and the restaurant of every
    handle as they were; [predictWithFragmentation] works on a freshly
    allocated handle, unused before the call and released after it (given that
    [updateAfterSplit] in its only-new mode leaves the old payload alone). *)
Theorem predictive_queries_frame (m : HPYPModel) (start stop obs : Z)
    (mixingWeights : list R) :
  splitUpdatesNewOnly ->
  sameState m (snd (predict m start stop obs)) /\
  sameState m (snd (predictBelow m start stop obs)) /\
  sameState m (snd (predictWithFragmentation m start stop obs)) /\
  sameState m (snd (predictiveDistribution m start stop)) /\
  sameState m (snd (predictiveDistributionWithMixing m start stop
                      mixingWeights)) /\
  rests m !! freshPayload m = None /\
  rests (snd (predictWithFragmentation m start stop obs)) !! freshPayload m
  = None.
Proof.
  intros Hsplit.
  pose proof (freshPayload_unused m) as Hfresh.
  split; [apply sameState_refl|].
  split; [apply sameState_refl|].
  unfold predictWithFragmentation.
  destruct (findLongestSuffixVirtual (tree m) start stop) as [fl vp].
  destruct (negb (fl =? 0)); cycle 1.
  { repeat split; try apply sameState_refl; exact Hfresh. }
  set (sn := freshPayload m) in *.
  set (m1 := withRests m (<[sn := make]> (rests m))).
  set (pl := payload (nth (length vp - 1) vp noNode)).
  destruct (updateAfterSplit (payloadOf m1 pl) (payloadOf m1 sn) _ _ true)
    as [sOld sNew] eqn:U.
  assert (HsOld : sOld = payloadOf m1 pl).
  { pose proof (Hsplit (payloadOf m1 pl) (payloadOf m1 sn)
                  (List.last (getDiscounts (params m) vp) r0)
                  (getDiscount (params m1) (wend (nth (length vp - 2) vp noNode)
                     - wstart (nth (length vp - 2) vp noNode)) fl)) as H.
    rewrite U in H. exact H. }
  simpl. repeat split; try apply sameState_refl.
  - intros p. unfold payloadOf; simpl.
    destruct (decide (p = sn)) as [->|Hne].
    + rewrite lookup_delete_eq, Hfresh. reflexivity.
    + rewrite lookup_delete_ne by congruence.
      destruct (decide (p = pl)) as [->|Hne'].
      * rewrite lookup_insert_eq, HsOld. unfold payloadOf, m1; simpl.
        rewrite lookup_insert_ne by congruence. reflexivity.
      * rewrite !lookup_insert_ne by congruence. reflexivity.
  - exact Hfresh.
  - apply lookup_delete_eq.
Qed.

End FrameProofs.

Lemma predictive_queries_frame_witness :
  sameState Toy.rootModel (snd (predictWithFragmentation Toy.rootModel 0 1 0)).
Proof.
  apply (predictive_queries_frame Toy.rootModel 0 1 0 []).
  intros o n dB dA. reflexivity.
Defined.

(* ------------------------------------------------------------------------ *)
(** ** Losses *)

Section LossProofs.

Context {N : Num} {Rs : Restaurant} {CT : ContextTree} {Ps : Parameters}.

Lemma lossLoop_trace (m : HPYPModel) (start from : Z) (fuel : nat) :
  lossLoop m start from fuel =
  obind (insertTrace m start from fuel)
        (fun '(pps, m') => Ok (map lossOf pps, m')).
Proof.
  revert m from. induction fuel as [|fuel IH]; intros m from; [reflexivity|].
  simpl. destruct (insertContextAndObservation m start from (seqAt m from))
    as [[pp m1]|f]; simpl; [|reflexivity].
  rewrite IH. destruct (insertTrace m1 start (from + 1) fuel) as [[pps m2]|f];
    reflexivity.
Qed.

Lemma insertRoot_single (m : HPYPModel) (r : WrappedNode) (obs : Z) :
  findLongestSuffix (tree m) 0 0 = [r] ->
  exists s g, insertRoot m obs = withRest m (payload r) s g.
Proof.
  intros Hr. unfold insertRoot, updatePath. rewrite Hr. simpl.
  destruct (addCustomer _ _ _ _ _ _ _ _) as [[f s] g].
  exists s, g. destruct (req0 f); reflexivity.
Qed.

(** C6: [computeLosses(start, stop)] records [log2(numTypes)] first, seats
    [seq[start]] with [insertRoot], which changes the root's restaurant only
    (the empty context is looked up to the root alone), and then records, for
    [i = start+1 .. stop-1], [-log2 p[|p|-2]] of the probability path [p]
    returned by [insertContextAndObservation(start, i, seq[i])], the calls
    made in order, each on the state the previous one left. *)
Theorem computeLosses_spec (m : HPYPModel) (start stop : Z) (r : WrappedNode) :
  findLongestSuffix (tree m) 0 0 = [r] ->
  (exists s g, insertRoot m (seqAt m start) = withRest m (payload r) s g) /\
  computeLosses m start stop =
  obind (insertTrace (insertRoot m (seqAt m start)) start (start + 1)
                     (Z.to_nat (stop - (start + 1))))
        (fun '(pps, m') =>
           Ok (rlog2 (of_Z (numTypes m)) :: map lossOf pps, m')).
Proof.
  intros Hr. split; [now apply insertRoot_single|].
  unfold computeLosses. rewrite lossLoop_trace.
  destruct (insertTrace _ _ _ _) as [[pps m']|f]; reflexivity.
Qed.

End LossProofs.

Lemma computeLosses_spec_witness :
  exists s g, insertRoot Toy.rootModel (seqAt Toy.rootModel 0)
              = withRest Toy.rootModel (payload Toy.rootN) s g.
Proof.
  apply (computeLosses_spec Toy.rootModel 0 2 Toy.rootN).
  reflexivity.
Defined.

(* ------------------------------------------------------------------------ *)
(** ** Joint log-probability *)

Section JointProofs.

Context {N : Num} {Rs : Restaurant} {CT : ContextTree} {Ps : Parameters}.

Lemma radd_0_r (Hx : exactAddition) x : radd x r0 = x.
Proof. destruct Hx as (H0 & Hc & _). rewrite Hc. apply H0. Qed.

Lemma fold_types_plain (Hx : exactAddition) (f : Z -> R) ys x :
  fold_left (fun lp y => radd lp (f y)) ys x = radd x (sumR (map f ys)).
Proof.
  revert x. induction ys as [|y ys IH]; intros x; simpl.
  - symmetry. now apply radd_0_r.
  - rewrite IH. destruct Hx as (_ & _ & Ha). now rewrite Ha.
Qed.

Lemma fold_types_root (Hx : exactAddition) (f g : Z -> R) ys x :
  fold_left (fun lp y => radd (radd lp (f y)) (g y)) ys x
  = radd (radd x (sumR (map f ys))) (sumR (map g ys)).
Proof.
  revert x. induction ys as [|y ys IH]; intros x; simpl.
  - rewrite !(radd_0_r Hx). reflexivity.
  - rewrite IH. destruct Hx as (_ & Hc & Ha). rewrite !Ha. f_equal. f_equal.
    rewrite <- !Ha. f_equal. apply Hc.
Qed.

Lemma pathAsserts_ok (p : list WrappedNode) (d a : list R) :
  p <> [] -> length d = length p -> length a = length p ->
  pathAsserts p d a = Ok tt.
Proof.
  intros Hp Hd Ha. unfold pathAsserts. rewrite Hd, Ha, !Nat.eqb_refl.
  destruct p; [congruence|]. reflexivity.
Qed.

Lemma computeLogRestaurantProb_c1 (m : HPYPModel) p d a pdp bp :
  p <> [] -> length d = length p -> length a = length p ->
  getC (payloadOf m (payload (back p))) = 1 ->
  computeLogRestaurantProb m p d a pdp bp = Ok r0.
Proof.
  intros Hp Hd Ha Hc. unfold computeLogRestaurantProb.
  rewrite pathAsserts_ok by assumption. simpl. rewrite Hc. reflexivity.
Qed.

Lemma vecAt_in_range {A} (v : list A) (j : nat) :
  (j < length v)%nat -> exists x, vecAt v j = Ok x.
Proof.
  intros Hj. unfold vecAt. destruct (nth_error v j) as [x|] eqn:E; [eauto|].
  apply nth_error_None in E. lia.
Qed.

Lemma computeLogRestaurantProb_eq (Hx : exactAddition) (m : HPYPModel) p d a
    pdp bp :
  p <> [] -> length d = length p -> length a = length p ->
  length pdp = length p ->
  computeLogRestaurantProb m p d a pdp bp
  = Ok (logRestaurantProbSpec (payloadOf m (payload (back p)))
          (at_ d (length p - 1)) (at_ a (length p - 1)) bp
          (length p =? 1)%nat).
Proof.
  intros Hp Hd Ha Hpdp. unfold computeLogRestaurantProb, logRestaurantProbSpec.
  rewrite pathAsserts_ok by assumption. simpl. rewrite Hd.
  destruct (getC (payloadOf m (payload (back p))) =? 1); [reflexivity|].
  destruct (vecAt_in_range pdp (length p - 1)) as [gen ->].
  { destruct p; [congruence|]. simpl in *. lia. }
  simpl. f_equal. destruct Hx as (H0 & Hc & Has) eqn:Ex. rewrite H0.
  assert (Hj : ((length p - 1 =? 0) = (length p =? 1))%nat).
  { destruct p as [|x p']; [congruence|]. simpl. now rewrite Nat.sub_0_r. }
  rewrite Hj. destruct (length p =? 1)%nat.
  - apply (fold_types_root Hx).
  - apply (fold_types_plain Hx).
Qed.

Lemma length_removelast {A} (l : list A) : length (removelast l) = (length l - 1)%nat.
Proof. rewrite removelast_firstn_len, length_firstn. lia. Qed.

Section Coherent.

Variable P : Params.
Hypothesis Hc : paramsCoherent P.

Lemma removelast_discounts rp (x : WrappedNode) :
  removelast (getDiscounts P (rp ++ [x])) = getDiscounts P rp.
Proof.
  destruct Hc as (L1 & _ & L3 & _).
  rewrite removelast_firstn_len, L1, length_app. simpl.
  replace (pred (length rp + 1)) with (length rp) by lia.
  symmetry. apply L3.
Qed.

Lemma removelast_concentrations rp (x : WrappedNode) :
  removelast (getConcentrations P (rp ++ [x]) (getDiscounts P (rp ++ [x])))
  = getConcentrations P rp (getDiscounts P rp).
Proof.
  destruct Hc as (_ & L2 & _ & L4 & _).
  rewrite removelast_firstn_len, L2, length_app. simpl.
  replace (pred (length rp + 1)) with (length rp) by lia.
  symmetry. apply L4.
Qed.

End Coherent.

Lemma advance_ok (m : HPYPModel) (p q ext : list WrappedNode)
    (pdp : list AData) :
  paramsCoherent (params m) ->
  p <> [] -> q = removelast p ++ ext -> length pdp = length p ->
  exists pdp',
    advance m q (length p) (getDiscounts (params m) p)
      (getConcentrations (params m) p (getDiscounts (params m) p)) pdp
    = Ok (getDiscounts (params m) q,
          getConcentrations (params m) q (getDiscounts (params m) q), pdp')
    /\ length pdp' = length q.
Proof.
  intros Hc Hp Hq Hpdp.
  destruct (exists_last Hp) as (rp & x & ->).
  rewrite removelast_last in Hq. subst q.
  pose proof Hc as (L1 & L2 & L3 & L4 & L5 & L6).
  rewrite length_app in Hpdp. simpl in Hpdp.
  replace (length (rp ++ [x])) with (S (length rp))
    by (rewrite length_app; simpl; lia).
  unfold advance.
  rewrite (removelast_discounts _ Hc), (removelast_concentrations _ Hc).
  destruct (length (rp ++ ext) =? S (length rp))%nat eqn:E1.
  - (* sibling *)
    rewrite (L4 rp ext), (L3 rp ext), L5, L6.
    eexists. split; [reflexivity|].
    apply Nat.eqb_eq in E1. rewrite length_app, length_removelast. simpl. lia.
  - destruct (length (rp ++ ext) =? S (length rp) - 1)%nat eqn:E2.
    + (* ascent *)
      apply Nat.eqb_eq in E2. rewrite length_app in E2.
      assert (ext = []) as -> by (apply length_zero_iff_nil; lia).
      rewrite app_nil_r. eexists. split; [reflexivity|].
      rewrite length_removelast. lia.
    + (* ascent, then descent *)
      rewrite (L4 rp ext), (L3 rp ext), L5, L6.
      rewrite length_removelast, L1, Hpdp.
      replace (Nat.max (length rp + 1 - 1) (length (rp ++ ext)))
        with (length (rp ++ ext)) by (rewrite length_app; lia).
      rewrite Nat.eqb_refl. simpl.
      eexists. split; [reflexivity|].
      rewrite length_app, length_map, length_seq, length_removelast, Hpdp.
      rewrite length_app. lia.
Qed.

Lemma jointLoop_ok (Hx : exactAddition) (m : HPYPModel)
    (paths : list (list WrappedNode)) (p : list WrappedNode)
    (pdp : list AData) (acc : R) :
  paramsCoherent (params m) ->
  Forall (fun q => q <> []) paths -> dfsSteps (p :: paths) -> p <> [] ->
  length pdp = length p ->
  jointLoop m paths (getDiscounts (params m) p)
    (getConcentrations (params m) p (getDiscounts (params m) p)) pdp
    (length p) acc
  = Ok (fold_left (fun acc q => radd acc (nodeContribution m q)) paths acc).
Proof.
  intros Hc. revert p pdp acc.
  induction paths as [|q rest IH]; intros p pdp acc Hne Hsteps Hp Hpdp;
    [reflexivity|].
  inversion Hne as [|? ? Hq Hrest]; subst.
  destruct Hsteps as ((ext & Hext) & Hsteps).
  pose proof Hc as (L1 & L2 & _).
  simpl jointLoop.
  destruct (length q =? 0)%nat eqn:E0.
  { apply Nat.eqb_eq, length_zero_iff_nil in E0. contradiction. }
  destruct (advance_ok m p q ext pdp Hc Hp Hext Hpdp) as (pdp' & Hadv & Hlen).
  rewrite Hadv. simpl.
  rewrite (computeLogRestaurantProb_eq Hx) by auto.
  simpl. apply IH; auto.
Qed.


End JointProofs.

(* ------------------------------------------------------------------------ *)
(** ** Facts about the small collaborators *)

Module ToyFacts.

Lemma QNum_exactAddition : @exactAddition Toy.QNum.
Proof.
  unfold exactAddition; simpl. split; [|split].
  - intros [n d]. unfold Qplus. simpl. rewrite Z.mul_1_r. reflexivity.
  - intros [n1 d1] [n2 d2]. unfold Qplus. simpl. f_equal; [ring|].
    apply Pos.mul_comm.
  - intros [n1 d1] [n2 d2] [n3 d3]. unfold Qplus. simpl.
    f_equal; [rewrite !Pos2Z.inj_mul; ring|]. symmetry. apply Pos.mul_assoc.
Qed.

Lemma take_length_app {A} (p ext : list A) : firstn (length p) (p ++ ext) = p.
Proof. rewrite firstn_app, firstn_all, Nat.sub_diag. simpl. apply app_nil_r. Qed.

Lemma ConstParams_coherent (Rs : @Restaurant Toy.QNum) (P : unit) :
  @paramsCoherent Toy.QNum Rs (@Toy.ConstParams Rs) P.
Proof.
  unfold paramsCoherent; simpl.
  repeat split; intros; rewrite ?length_map, ?firstn_map, ?take_length_app;
    reflexivity.
Qed.

End ToyFacts.


(* ------------------------------------------------------------------------ *)
(** ** Direct Gibbs resampling of one table count *)

Section GibbsProofs.

Context {N : Num} {Rs : Restaurant} {CT : ContextTree} {Ps : Parameters}.

Lemma fill_step {A} (pre : list A) (z x : A) rest (i : nat) :
  length pre = i -> <[i := x]> (pre ++ z :: rest) = pre ++ x :: rest.
Proof.
  intros <-. induction pre as [|y pre IH]; [reflexivity|].
  simpl. rewrite IH. reflexivity.
Qed.

Lemma length_candidates n : length (candidates n) = n.
Proof. unfold candidates. rewrite length_map, length_seq. reflexivity. Qed.

Lemma candidates_S n : candidates (S n) = candidates n ++ [Z.of_nat n + 1].
Proof. unfold candidates. rewrite seq_S, map_app. reflexivity. Qed.

Lemma forTw_fill (body : Z -> Vecs -> Vecs) (f1 f2 f3 f4 : Z -> R) :
  (forall (k : nat) p1 p2 p3 p4 q1 q2 q3 q4,
     length p1 = k -> length p2 = k -> length p3 = k -> length p4 = k ->
     body (Z.of_nat k + 1)
          (p1 ++ r0 :: q1, p2 ++ r0 :: q2, p3 ++ r0 :: q3, p4 ++ r0 :: q4)
     = (p1 ++ f1 (Z.of_nat k + 1) :: q1, p2 ++ f2 (Z.of_nat k + 1) :: q2,
        p3 ++ f3 (Z.of_nat k + 1) :: q3, p4 ++ f4 (Z.of_nat k + 1) :: q4)) ->
  forall fuel k,
  forTw body (Z.of_nat k + 1) fuel
    (map f1 (candidates k) ++ repeat r0 fuel,
     map f2 (candidates k) ++ repeat r0 fuel,
     map f3 (candidates k) ++ repeat r0 fuel,
     map f4 (candidates k) ++ repeat r0 fuel)
  = (map f1 (candidates (k + fuel)), map f2 (candidates (k + fuel)),
     map f3 (candidates (k + fuel)), map f4 (candidates (k + fuel))).
Proof.
  intros Hbody fuel. induction fuel as [|fuel IH]; intros k.
  - simpl. rewrite !app_nil_r, Nat.add_0_r. reflexivity.
  - simpl forTw. simpl repeat.
    rewrite Hbody by (rewrite length_map, length_candidates; reflexivity).
    assert (E : forall f : Z -> R,
      map f (candidates k) ++ f (Z.of_nat k + 1) :: repeat r0 fuel
      = map f (candidates (S k)) ++ repeat r0 fuel).
    { intros f. rewrite candidates_S, map_app, <- app_assoc. reflexivity. }
    rewrite (E f1), (E f2), (E f3), (E f4).
    replace (Z.of_nat k + 1 + 1) with (Z.of_nat (S k) + 1) by lia.
    rewrite IH. rewrite Nat.add_succ_r. reflexivity.
Qed.

Lemma forTw_fill_from_zero (body : Z -> Vecs -> Vecs) (f1 f2 f3 f4 : Z -> R)
    (n : nat) :
  (forall (k : nat) p1 p2 p3 p4 q1 q2 q3 q4,
     length p1 = k -> length p2 = k -> length p3 = k -> length p4 = k ->
     body (Z.of_nat k + 1)
          (p1 ++ r0 :: q1, p2 ++ r0 :: q2, p3 ++ r0 :: q3, p4 ++ r0 :: q4)
     = (p1 ++ f1 (Z.of_nat k + 1) :: q1, p2 ++ f2 (Z.of_nat k + 1) :: q2,
        p3 ++ f3 (Z.of_nat k + 1) :: q3, p4 ++ f4 (Z.of_nat k + 1) :: q4)) ->
  forTw body 1 n (repeat r0 n, repeat r0 n, repeat r0 n, repeat r0 n)
  = (map f1 (candidates n), map f2 (candidates n), map f3 (candidates n),
     map f4 (candidates n)).
Proof. intros H. exact (forTw_fill body f1 f2 f3 f4 H n 0). Qed.

Lemma repeat_as_map (L : list Z) (n : nat) :
  length L = n -> repeat r0 n = map (fun _ => r0) L.
Proof.
  intros <-. induction L as [|x L IH]; [reflexivity|]. simpl. now rewrite IH.
Qed.

Lemma zip_with_map_same {A B C D} (h : B -> C -> D) (g : A -> B) (f : A -> C)
    (L : list A) :
  zip_with h (map g L) (map f L) = map (fun x => h (g x) (f x)) L.
Proof. induction L as [|x L IH]; [reflexivity|]. simpl. now rewrite IH. Qed.

Lemma subMax_shift (Hs : forall x y, rsub x y = radd x (ropp y)) (v : list R) :
  exists c, subMax_vec v = map (fun x => radd x c) v.
Proof.
  destruct v as [|x xs]; [exists r0; reflexivity|].
  exists (ropp (fold_left rmax xs x)). unfold subMax_vec.
  apply map_ext. intros y. apply Hs.
Qed.

Lemma radd_shuffle (Hx : exactAddition) x c y e :
  radd (radd x c) (radd y e) = radd (radd x y) (radd c e).
Proof.
  destruct Hx as (_ & Hc & Ha).
  rewrite !Ha. f_equal. rewrite <- !Ha. f_equal. apply Hc.
Qed.

Lemma radd_shuffle4 (Hx : exactAddition) x1 x2 x3 x4 c1 c2 c3 c4 :
  radd (radd (radd (radd x1 c1) (radd x2 c2)) (radd x3 c3)) (radd x4 c4)
  = radd (radd (radd (radd x1 x2) x3) x4) (radd (radd (radd c1 c2) c3) c4).
Proof.
  rewrite (radd_shuffle Hx x1 c1 x2 c2), (radd_shuffle Hx (radd x1 x2)),
    (radd_shuffle Hx (radd (radd x1 x2) x3)).
  reflexivity.
Qed.

(** Max-subtracting each vector, summing, max-subtracting the sum and
    exponentiating gives the exponentials of the plain sums, all shifted by
    one constant. *)
Lemma combineWeights_maps (Hx : exactArith) (f1 f2 f3 f4 : Z -> R)
    (L : list Z) :
  exists C,
    combineWeights (map (fun _ => r0) L)
                   (map f1 L, map f2 L, map f3 L, map f4 L)
    = map (fun tw => rexp (radd (radd (radd (radd (radd r0 (f1 tw)) (f2 tw))
                                            (f3 tw)) (f4 tw)) C)) L.
Proof.
  destruct Hx as (Hx & Hs & _). pose proof Hx as (H0 & _ & Ha).
  destruct (subMax_shift Hs (map f1 L)) as [c1 E1].
  destruct (subMax_shift Hs (map f2 L)) as [c2 E2].
  destruct (subMax_shift Hs (map f3 L)) as [c3 E3].
  destruct (subMax_shift Hs (map f4 L)) as [c4 E4].
  unfold combineWeights. rewrite E1, E2, E3, E4, !map_map.
  unfold add_vec. rewrite !zip_with_map_same.
  match goal with |- context [subMax_vec ?v] =>
    destruct (subMax_shift Hs v) as [c5 E5]; rewrite E5 end.
  unfold exp_vec. rewrite !map_map.
  exists (radd (radd (radd (radd c1 c2) c3) c4) c5).
  apply map_ext. intros tw. f_equal.
  rewrite !H0, (radd_shuffle4 Hx). apply Ha.
Qed.

Lemma bodyNonRoot_fill dj aj ap cw tw0 otherT pcw ptw poc :
  forall (k : nat) p1 p2 p3 p4 q1 q2 q3 q4,
  length p1 = k -> length p2 = k -> length p3 = k -> length p4 = k ->
  bodyNonRoot dj aj ap cw tw0 otherT pcw ptw poc (Z.of_nat k + 1)
    (p1 ++ r0 :: q1, p2 ++ r0 :: q2, p3 ++ r0 :: q3, p4 ++ r0 :: q4)
  = (p1 ++ nonRootAddend 0 dj aj ap cw tw0 otherT pcw ptw poc (Z.of_nat k + 1)
        :: q1,
     p2 ++ nonRootAddend 1 dj aj ap cw tw0 otherT pcw ptw poc (Z.of_nat k + 1)
        :: q2,
     p3 ++ nonRootAddend 2 dj aj ap cw tw0 otherT pcw ptw poc (Z.of_nat k + 1)
        :: q3,
     p4 ++ nonRootAddend 3 dj aj ap cw tw0 otherT pcw ptw poc (Z.of_nat k + 1)
        :: q4).
Proof.
  intros k p1 p2 p3 p4 q1 q2 q3 q4 H1 H2 H3 H4.
  unfold bodyNonRoot, nonRootAddend. cbv beta zeta.
  replace (Z.to_nat (Z.of_nat k + 1 - 1)) with k by lia.
  destruct (pcw - tw0 + (Z.of_nat k + 1) <? ptw);
    rewrite ?fill_step by assumption; reflexivity.
Qed.

Lemma bodyRoot_fill dj aj bp cw otherT :
  forall (k : nat) p1 p2 p3 p4 q1 q2 q3 q4,
  length p1 = k -> length p2 = k -> length p3 = k -> length p4 = k ->
  bodyRoot dj aj bp cw otherT (Z.of_nat k + 1)
    (p1 ++ r0 :: q1, p2 ++ r0 :: q2, p3 ++ r0 :: q3, p4 ++ r0 :: q4)
  = (p1 ++ rootAddend 0 dj aj bp cw otherT (Z.of_nat k + 1) :: q1,
     p2 ++ rootAddend 1 dj aj bp cw otherT (Z.of_nat k + 1) :: q2,
     p3 ++ rootAddend 2 dj aj bp cw otherT (Z.of_nat k + 1) :: q3,
     p4 ++ rootAddend 3 dj aj bp cw otherT (Z.of_nat k + 1) :: q4).
Proof.
  intros k p1 p2 p3 p4 q1 q2 q3 q4 H1 H2 H3 H4.
  unfold bodyRoot, rootAddend. cbv beta zeta.
  replace (Z.to_nat (Z.of_nat k + 1 - 1)) with k by lia.
  rewrite !fill_step by assumption. reflexivity.
Qed.

Lemma levelWeights_nonroot (Hx : exactArith) (m : HPYPModel)
    (path : list WrappedNode) (d a : list R) (bp : R) (y : Z) (jp : nat) :
  let s := payloadOf m (payload (nth (S jp) path noNode)) in
  let par := payloadOf m (payload (nth jp path noNode)) in
  exists C,
    levelWeights m path d a bp y (S jp)
    = map (fun tw => rexp (radd (specLogWeightNonRoot (at_ d (S jp))
              (at_ a (S jp)) (at_ a jp) (getCw s y) (getTw s y)
              (getT s - getTw s y) (getCw par y) (getTw par y)
              (getC par - getTw s y) tw) C))
          (candidates (Z.to_nat (getCw s y))).
Proof.
  intros s par. unfold levelWeights. fold s par.
  set (args := fun i => nonRootAddend i (at_ d (S jp)) (at_ a (S jp)) (at_ a jp)
    (getCw s y) (getTw s y) (getT s - getTw s y) (getCw par y) (getTw par y)
    (getC par - getTw s y)).
  rewrite (forTw_fill_from_zero _ (args 0%nat) (args 1%nat) (args 2%nat)
    (args 3%nat) (Z.to_nat (getCw s y)) (bodyNonRoot_fill _ _ _ _ _ _ _ _ _)).
  rewrite (repeat_as_map (candidates (Z.to_nat (getCw s y))))
    by apply length_candidates.
  destruct (combineWeights_maps Hx (args 0%nat) (args 1%nat) (args 2%nat)
    (args 3%nat) (candidates (Z.to_nat (getCw s y)))) as [C ->].
  subst args.
  exists C. apply map_ext. intros tw. f_equal. f_equal.
  destruct Hx as ((H0 & _) & Hs & _).
  unfold specLogWeightNonRoot, nonRootAddend. cbv beta zeta.
  destruct (getCw par y - getTw s y + tw <? getTw par y).
  - rewrite !H0. reflexivity.
  - rewrite H0, Hs. reflexivity.
Qed.

Lemma levelWeights_root (Hx : exactArith) (m : HPYPModel)
    (path : list WrappedNode) (d a : list R) (bp : R) (y : Z) :
  let s := payloadOf m (payload (nth 0 path noNode)) in
  exists C,
    levelWeights m path d a bp y 0
    = map (fun tw => rexp (radd (specLogWeightRoot (at_ d 0) (at_ a 0) bp
              (getCw s y) (getT s - getTw s y) tw) C))
          (candidates (Z.to_nat (getCw s y))).
Proof.
  intros s. unfold levelWeights. fold s.
  set (args := fun i => rootAddend i (at_ d 0) (at_ a 0) bp (getCw s y)
    (getT s - getTw s y)).
  rewrite (forTw_fill_from_zero _ (args 0%nat) (args 1%nat) (args 2%nat)
    (args 3%nat) (Z.to_nat (getCw s y)) (bodyRoot_fill _ _ _ _ _)).
  rewrite (repeat_as_map (candidates (Z.to_nat (getCw s y))))
    by apply length_candidates.
  destruct (combineWeights_maps Hx (args 0%nat) (args 1%nat) (args 2%nat)
    (args 3%nat) (candidates (Z.to_nat (getCw s y)))) as [C ->].
  subst args.
  exists C. apply map_ext. intros tw. f_equal. f_equal.
  destruct Hx as (Hx & _). pose proof Hx as (H0 & _).
  unfold specLogWeightRoot, rootAddend.
  rewrite H0, (radd_0_r Hx). reflexivity.
Qed.

Lemma gibbsLevel_nonroot (m : HPYPModel) (path : list WrappedNode)
    (d a : list R) (pdp : list AData) (bp : R) (y : Z) (jp : nat) :
  let curH := payload (nth (S jp) path noNode) in
  let parH := payload (nth jp path noNode) in
  let s := payloadOf m curH in
  let par := payloadOf m parH in
  curH <> parH ->
  gibbsLevel m path d a pdp bp y (S jp)
  = let* _ := vecAt pdp (S jp) in
    let '(k, g') :=
      sample_unnormalized_pdf (rng m) (levelWeights m path d a bp y (S jp)) in
    let tw' := Z.of_nat k + 1 in
    let newParentCw := getCw par y - getTw s y + tw' in
    if getTw par y <=? newParentCw
    then Ok (withRest (withRest m curH (setT s y tw') g') parH
               (setC par y newParentCw) g', negb (tw' =? getTw s y))
    else Crash AssertFailed.
Proof.
  intros curH parH s par Hne. unfold gibbsLevel. fold curH parH s.
  destruct (vecAt pdp (S jp)) as [gen|f]; [|reflexivity]. simpl.
  destruct (sample_unnormalized_pdf _ _) as [k g'].
  assert (Hpar : forall X, payloadOf (withRest m curH X g') parH = par).
  { intros X. unfold payloadOf, withRest. simpl.
    rewrite lookup_insert_ne by congruence. reflexivity. }
  simpl. rewrite !Hpar.
  destruct (getTw par y <=? getCw par y - getTw s y + (Z.of_nat k + 1));
    reflexivity.
Qed.

Lemma gibbsLevel_root (m : HPYPModel) (path : list WrappedNode)
    (d a : list R) (pdp : list AData) (bp : R) (y : Z) :
  let curH := payload (nth 0 path noNode) in
  let s := payloadOf m curH in
  gibbsLevel m path d a pdp bp y 0
  = let* _ := vecAt pdp 0 in
    let '(k, g') :=
      sample_unnormalized_pdf (rng m) (levelWeights m path d a bp y 0) in
    let tw' := Z.of_nat k + 1 in
    Ok (withRest m curH (setT s y tw') g', negb (tw' =? getTw s y)).
Proof.
  intros curH s. unfold gibbsLevel. fold curH s.
  destruct (vecAt pdp 0) as [gen|f]; [|reflexivity]. simpl.
  destruct (sample_unnormalized_pdf _ _) as [k g']. reflexivity.
Qed.

Lemma gibbsWalk_once (m : HPYPModel) (path : list WrappedNode)
    (d a : list R) (pdp : list AData) (bp : R) (y : Z) (j : nat) :
  gibbsWalk m path d a pdp bp y j true
  = obind (gibbsLevel m path d a pdp bp y j) (fun '(m1, _) => Ok m1).
Proof.
  destruct j as [|j']; simpl;
    destruct (gibbsLevel _ _ _ _ _ _ _ _) as [[m1 []]|f]; simpl;
    try destruct j'; reflexivity.
Qed.

Lemma fold_left_ext_pointwise {A B} (f g : A -> B -> A) (l : list B) (x : A) :
  (forall acc b, f acc b = g acc b) -> fold_left f l x = fold_left g l x.
Proof.
  intros H. revert x. induction l as [|b l IH]; intros x; [reflexivity|].
  simpl. rewrite H. apply IH.
Qed.

(** C5 (code bug). What [directGibbsSamplePath] does: for each type [y] of
    the last restaurant with [c(last, y) <> 1], the loop body runs once, at
    the last node of the path (index [length d - 1]): [goUp] is cleared on
    entry to the body and never set again, so the walk does not go on to the
    parent whatever the sampled [tw'] is, contrary to the spec's "the walk
    continues upward iff [tw' <> tw]". The body reads [payloadDataPath[j]]
    unchecked. With exact arithmetic, the weights handed to the sampler for
    the candidates [tw = 1 .. cw] are [exp (w(tw) + C)] for one constant [C],
    where below a parent [w] is the spec's log-weight
    [logKramp(a + d, d, otherT + tw - 1)
     - logKramp(aParent + 1, 1, parentOtherC + tw - 1)
     + logStirling(cw, tw) + logStirling(newParentCw, parentTw)], or
    [neg_inf] when [newParentCw < parentTw], and at the root
    [logKramp(a + d, d, otherT + tw - 1) + logStirling(cw, tw)
     + tw log(baseProb)]. The sampled [tw'] is stored with [setT]; below a
    parent, after the assertion [newParentCw >= t(P, y)], [c(P, y)] is set to
    [newParentCw]. *)
Theorem directGibbsSamplePath_spec (Hx : exactArith) :
  (forall m path d a pdp bp,
     directGibbsSamplePath m path d a pdp bp
     = let* _ := pathAsserts path d a in
       fold_left (fun acc y =>
                    let* m' := acc in
                    if getCw (payloadOf m' (payload (back path))) y =? 1
                    then Ok m'
                    else obind (gibbsLevel m' path d a pdp bp y (length d - 1))
                               (fun '(m1, _) => Ok m1))
                 (getTypeVector (payloadOf m (payload (back path)))) (Ok m))
  /\
  (forall m path d a pdp bp y jp,
     let curH := payload (nth (S jp) path noNode) in
     let parH := payload (nth jp path noNode) in
     let s := payloadOf m curH in
     let par := payloadOf m parH in
     curH <> parH ->
     (exists C,
        levelWeights m path d a bp y (S jp)
        = map (fun tw => rexp (radd (specLogWeightNonRoot (at_ d (S jp))
                  (at_ a (S jp)) (at_ a jp) (getCw s y) (getTw s y)
                  (getT s - getTw s y) (getCw par y) (getTw par y)
                  (getC par - getTw s y) tw) C))
              (candidates (Z.to_nat (getCw s y)))) /\
     gibbsLevel m path d a pdp bp y (S jp)
     = (let* _ := vecAt pdp (S jp) in
        let '(k, g') :=
          sample_unnormalized_pdf (rng m) (levelWeights m path d a bp y (S jp)) in
        let tw' := Z.of_nat k + 1 in
        let newParentCw := getCw par y - getTw s y + tw' in
        if getTw par y <=? newParentCw
        then Ok (withRest (withRest m curH (setT s y tw') g') parH
                   (setC par y newParentCw) g', negb (tw' =? getTw s y))
        else Crash AssertFailed))
  /\
  (forall m path d a pdp bp y,
     let curH := payload (nth 0 path noNode) in
     let s := payloadOf m curH in
     (exists C,
        levelWeights m path d a bp y 0
        = map (fun tw => rexp (radd (specLogWeightRoot (at_ d 0) (at_ a 0) bp
                  (getCw s y) (getT s - getTw s y) tw) C))
              (candidates (Z.to_nat (getCw s y)))) /\
     gibbsLevel m path d a pdp bp y 0
     = (let* _ := vecAt pdp 0 in
        let '(k, g') :=
          sample_unnormalized_pdf (rng m) (levelWeights m path d a bp y 0) in
        let tw' := Z.of_nat k + 1 in
        Ok (withRest m curH (setT s y tw') g', negb (tw' =? getTw s y)))).
Proof.
  split; [|split].
  - intros m path d a pdp bp. unfold directGibbsSamplePath.
    destruct (pathAsserts path d a) as [[]|f]; [|reflexivity]. simpl.
    apply fold_left_ext_pointwise. intros acc y.
    destruct acc as [m'|f]; [|reflexivity]. simpl.
    destruct (_ =? 1); [reflexivity|]. apply gibbsWalk_once.
  - intros m path d a pdp bp y jp curH parH s par Hne. split.
    + apply (levelWeights_nonroot Hx).
    + apply (gibbsLevel_nonroot m path d a pdp bp y jp Hne).
  - intros m path d a pdp bp y curH s. split.
    + apply (levelWeights_root Hx).
    + apply gibbsLevel_root.
Qed.

End GibbsProofs.

Module ToyGibbs.

Lemma QNum_exactArith : @exactArith Toy.QNum.
Proof.
  split; [exact ToyFacts.QNum_exactAddition|]. split.
  - intros x y. reflexivity.
  - intros [n1 d1] [n2 d2]. simpl. unfold Qopp, Qplus. simpl. f_equal. ring.
Qed.

End ToyGibbs.

(** The direct sampler below the root at the toy model: the weights of the
    child's two candidates are the spec's, up to one constant. *)
Lemma directGibbsSamplePath_spec_witness :
  exists C : Q,
    levelWeights Toy.gibbsModel Toy.gibbsPath Toy.gibbsD Toy.gibbsA (1 # 2) 0 1
    = map (fun tw => @rexp Toy.QNum (@radd Toy.QNum
             (@specLogWeightNonRoot Toy.QNum (1 # 2)%Q 1%Q 1%Q 2 1 0 1 1 0 tw)
             C))
          (candidates 2).
Proof.
  pose proof (proj1 (proj2 (@directGibbsSamplePath_spec Toy.QNum Toy.CountRest
    Toy.StaticTree (@Toy.ConstParams Toy.CountRest) ToyGibbs.QNum_exactArith))
    Toy.gibbsModel Toy.gibbsPath Toy.gibbsD Toy.gibbsA [tt; tt] (1 # 2) 0 0%nat)
    as H.
  cbv zeta in H. destruct H as [H _]; [discriminate|]. exact H.
Defined.

(** With a data path of the path's length, the child of the toy model is
    resampled from one table to two ([tw' <> tw]), yet the root is not
    resampled: the second draw of the random source is left unused, and the
    root keeps its single table. *)
Lemma directGibbsSamplePath_stops_after_last :
  match directGibbsSamplePath Toy.gibbsModel Toy.gibbsPath Toy.gibbsD
          Toy.gibbsA [tt; tt] (1 # 2) with
  | Ok m' =>
      getTw (payloadOf m' 1) 0 = 2 /\ getTw (payloadOf Toy.gibbsModel 1) 0 = 1
      /\ getCw (payloadOf m' 0) 0 = 2 /\ getTw (payloadOf m' 0) 0 = 1
      /\ rng m' = [0%nat]
  | Crash _ => False
  end.
Proof. vm_compute. repeat split. Qed.

(* ------------------------------------------------------------------------ *)
(** ** Seating and unseating one observation *)

Section RoundTripProofs.

Context {N : Num} {Rs : Restaurant} {CT : ContextTree} {Ps : Parameters}.

Lemma sameCounts_refl (s : RState) : sameCounts s s.
Proof. split; [reflexivity|split; [reflexivity|]]. intros y. split; reflexivity. Qed.

Lemma payloadOf_withRest_eq (m : HPYPModel) p s g :
  payloadOf (withRest m p s g) p = s.
Proof. unfold payloadOf, withRest. simpl. rewrite lookup_insert_eq. reflexivity. Qed.

Lemma payloadOf_withRest_ne (m : HPYPModel) p q s g :
  q <> p -> payloadOf (withRest m p s g) q = payloadOf m q.
Proof.
  intros H. unfold payloadOf, withRest. simpl.
  rewrite lookup_insert_ne by congruence. reflexivity.
Qed.

Lemma updateLoop_other (m : HPYPModel) rit j pp d a obs w h :
  ~ In h (map payload rit) ->
  payloadOf (updateLoop m rit j pp d a obs w) h = payloadOf m h.
Proof.
  revert m j w. induction rit as [|n rest IH]; intros m j w Hh; [reflexivity|].
  simpl in Hh. cbn [updateLoop].
  destruct (addCustomer _ _ _ _ _ _ _ _) as [[nt s'] g'].
  assert (E : payloadOf (withRest m (payload n) s' g') h = payloadOf m h)
    by (apply payloadOf_withRest_ne; intros ->; tauto).
  destruct (req0 nt); [exact E|]. rewrite IH by tauto. exact E.
Qed.

Lemma removeLoop_other (M : HPYPModel) rit j pathSize d obs pdp f h :
  ~ In h (map payload rit) ->
  payloadOf (removeLoop M rit j pathSize d obs pdp f) h = payloadOf M h.
Proof.
  revert M j f. induction rit as [|n rest IH]; intros M j f Hh; [reflexivity|].
  simpl in Hh. cbn [removeLoop].
  destruct (removeCustomer _ _ _ _ _ _) as [[f' s'] g'].
  assert (E : payloadOf (withRest M (payload n) s' g') h = payloadOf M h)
    by (apply payloadOf_withRest_ne; intros ->; tauto).
  destruct (req0 f'); [exact E|]. rewrite IH by tauto. exact E.
Qed.

(** The removal walk run on any state that agrees on the path's restaurants
    with the state the seating walk left brings their counts back. *)
Lemma roundTrip_loops (Hlaw : removeUndoesAdd) (rit : list WrappedNode) :
  List.NoDup (map payload rit) ->
  forall m j pp d a obs w M j' pathSize d' pdp,
  (forall h, In h (map payload rit) ->
     payloadOf M h = payloadOf (updateLoop m rit j pp d a obs w) h) ->
  forall h, In h (map payload rit) ->
  sameCounts (payloadOf (removeLoop M rit j' pathSize d' obs pdp w) h)
             (payloadOf m h).
Proof.
  induction rit as [|n rest IH];
    intros Hnd m j pp d a obs w M j' pathSize d' pdp Hag h Hh; [destruct Hh|].
  simpl map in Hnd, Hag, Hh. apply NoDup_cons_iff in Hnd as [Hn Hnd].
  cbn [updateLoop] in Hag.
  destruct (addCustomer (rng m) (payloadOf m (payload n)) obs (at_ pp j)
              (at_ d j) (at_ a j) None w) as [[nt s'] g'] eqn:Hadd.
  assert (HMn : payloadOf M (payload n) = s').
  { rewrite (Hag (payload n) (or_introl eq_refl)).
    destruct (req0 nt); [apply payloadOf_withRest_eq|].
    rewrite updateLoop_other by exact Hn. apply payloadOf_withRest_eq. }
  cbn [removeLoop]. rewrite HMn.
  set (pd := if Nat.eqb (length pdp) pathSize then nth_error pdp j' else None).
  pose proof (Hlaw _ _ _ _ _ _ _ _ _ _ Hadd (rng M) (at_ d' j') pd) as [Hf Hs].
  destruct (removeCustomer (rng M) s' obs (at_ d' j') pd w) as [[f' s2] g3].
  simpl in Hf, Hs. subst f'.
  destruct (req0 nt) eqn:Hz.
  - destruct Hh as [<-|Hh].
    + rewrite payloadOf_withRest_eq. exact Hs.
    + assert (Hne : h <> payload n) by (intros ->; contradiction).
      rewrite payloadOf_withRest_ne by exact Hne.
      rewrite (Hag h (or_intror Hh)), payloadOf_withRest_ne by exact Hne.
      apply sameCounts_refl.
  - destruct Hh as [<-|Hh].
    + rewrite removeLoop_other by exact Hn. rewrite payloadOf_withRest_eq.
      exact Hs.
    + assert (Hne : h <> payload n) by (intros ->; contradiction).
      rewrite <- (payloadOf_withRest_ne m (payload n) h s' g' Hne).
      apply (IH Hnd _ (j - 1)%nat pp d a obs nt _ (j' - 1)%nat pathSize d' pdp);
        [|exact Hh].
      intros h' Hh'.
      assert (Hne' : h' <> payload n) by (intros ->; contradiction).
      rewrite payloadOf_withRest_ne by exact Hne'.
      apply (Hag h' (or_intror Hh')).
Qed.

(** C3 (corrected). When both calls are given the same cached path, whose
    nodes have distinct restaurants, and the restaurants' removal undoes
    seating ([removeUndoesAdd]), [insertObservation] followed by
    [removeObservation] of the same type succeeds and brings back the counts
    [c], [t], [c(y)] and [t(y)] of every restaurant. *)
Theorem insert_remove_roundtrip (Hlaw : removeUndoesAdd) (m : HPYPModel)
    (start stop obs : Z) (payloadDataPath : list AData)
    (path : list WrappedNode) :
  List.NoDup (map payload path) ->
  exists m2,
    removeObservation (snd (insertObservation m start stop obs (Some path)))
      start stop obs payloadDataPath (Some path) = Ok m2 /\
    forall h, sameCounts (payloadOf m2 h) (payloadOf m h).
Proof.
  intros Hnd. unfold removeObservation, insertObservation. simpl.
  rewrite Z.eqb_refl. simpl.
  eexists; split; [reflexivity|].
  intros h. unfold removeObservationFromPath, updatePath.
  destruct (in_dec Nat.eq_dec h (map payload (rev path))) as [Hin|Hout].
  - eapply (roundTrip_loops Hlaw); [|intros h' _; reflexivity|exact Hin].
    rewrite map_rev. apply NoDup_rev. exact Hnd.
  - rewrite removeLoop_other, updateLoop_other by exact Hout.
    apply sameCounts_refl.
Qed.

End RoundTripProofs.

Module ToyRoundTrip.

Import Toy.

Lemma lookupE_updE_eq {V} (dflt : V) (s : list (Z * V)) (y : Z) (v : V) :
  lookupE dflt (updE s y v) y = v.
Proof.
  induction s as [|[y' v'] s IH]; simpl.
  - rewrite Z.eqb_refl. reflexivity.
  - destruct (y' =? y) eqn:E; simpl.
    + rewrite Z.eqb_refl. reflexivity.
    + rewrite E. exact IH.
Qed.

Lemma updE_updE {V} (s : list (Z * V)) (y : Z) (v v' : V) :
  updE (updE s y v) y v' = updE s y v'.
Proof.
  induction s as [|[y' w] s IH]; simpl.
  - rewrite Z.eqb_refl. reflexivity.
  - destruct (y' =? y) eqn:E; simpl.
    + rewrite Z.eqb_refl. reflexivity.
    + rewrite E, IH. reflexivity.
Qed.

(** Writing back the entry of a type keeps every count of the count
    restaurant. *)
Lemma updE_lookupE_counts (s : list (Z * (Z * Z))) (y : Z) :
  let r := updE s y (lookupE (0, 0) s y) in
  sumZ (map (fun e => fst (snd e)) r) = sumZ (map (fun e => fst (snd e)) s) /\
  sumZ (map (fun e => snd (snd e)) r) = sumZ (map (fun e => snd (snd e)) s) /\
  forall y', lookupE (0, 0) r y' = lookupE (0, 0) s y'.
Proof.
  induction s as [|[y' v'] s IH]; simpl.
  - split; [reflexivity|split; [reflexivity|]].
    intros y'. destruct (y =? y'); reflexivity.
  - destruct (y' =? y) eqn:E.
    + apply Z.eqb_eq in E. subst y'. simpl.
      split; [reflexivity|split; [reflexivity|]]. intros; reflexivity.
    + destruct IH as (H1 & H2 & H3). simpl. unfold sumZ in *. simpl.
      rewrite H1, H2. split; [reflexivity|split; [reflexivity|]].
      intros y''. destruct (y' =? y''); [reflexivity|]. apply H3.
Qed.

Lemma CountRest_undo :
  @removeUndoesAdd QNum CountRest.
Proof.
  unfold removeUndoesAdd. intros g s y pp d a w f s1 g1 Hadd g2 d' ad.
  simpl in Hadd |- *.
  destruct (lookupE (0, 0) s y) as [cw tw] eqn:Hl.
  assert (Hc : forall v, updE (updE s y v) y (cw, tw) = updE s y (lookupE (0, 0) s y))
    by (intros v; rewrite updE_updE, Hl; reflexivity).
  destruct (updE_lookupE_counts s y) as (H1 & H2 & H3).
  destruct (cw =? 0) eqn:E0; injection Hadd as <- <- <-;
    rewrite lookupE_updE_eq.
  - apply Z.eqb_eq in E0. subst cw. simpl.
    replace (tw + 1 - 1) with tw by lia. rewrite Hc.
    split; [reflexivity|]. unfold sameCounts. simpl.
    rewrite H1, H2. split; [reflexivity|split; [reflexivity|]].
    intros y'. rewrite H3. split; reflexivity.
  - assert (E1 : (cw + 1 =? 1) = false) by (apply Z.eqb_neq; apply Z.eqb_neq in E0; lia).
    rewrite E1. simpl. replace (cw + 1 - 1) with cw by lia. rewrite Hc.
    split; [reflexivity|]. unfold sameCounts. simpl.
    rewrite H1, H2. split; [reflexivity|split; [reflexivity|]].
    intros y'. rewrite H3. split; reflexivity.
Qed.

End ToyRoundTrip.

(** A round trip of one [0] at the root of the count restaurant. *)
Lemma insert_remove_roundtrip_witness :
  exists m2,
    removeObservation (snd (insertObservation Toy.rootModel 0 0 0
                              (Some [Toy.rootN])))
      0 0 0 [] (Some [Toy.rootN]) = Ok m2 /\
    forall h, sameCounts (payloadOf m2 h) (payloadOf Toy.rootModel h).
Proof.
  apply insert_remove_roundtrip.
  - exact ToyRoundTrip.CountRest_undo.
  - constructor; [intros []|constructor].
Defined.

(** At the table restaurant the new customer joins the table of two, and
    the removal takes the customer of the table of one: the type's customers
    are three again, but its tables went from two to one. *)
Lemma insert_remove_changes_tables :
  match removeObservation (snd (insertObservation Toy.tableModel 0 0 0
                                  (Some [Toy.rootN])))
          0 0 0 [] (Some [Toy.rootN]) with
  | Ok m2 =>
      getCw (payloadOf m2 0) 0 = 3 /\ getCw (payloadOf Toy.tableModel 0) 0 = 3 /\
      getTw (payloadOf m2 0) 0 = 1 /\ getTw (payloadOf Toy.tableModel 0) 0 = 2
  | Crash _ => False
  end.
Proof. vm_compute. repeat split. Qed.

(* ------------------------------------------------------------------------ *)
(** ** What the seating operations leave alone *)

Section FrameMore.

Context {N : Num} {Rs : Restaurant} {CT : ContextTree} {Ps : Parameters}.

Lemma keepsShape_refl (m : HPYPModel) : keepsShape m m.
Proof. repeat split. Qed.

Lemma keepsShape_trans (m1 m2 m3 : HPYPModel) :
  keepsShape m1 m2 -> keepsShape m2 m3 -> keepsShape m1 m3.
Proof.
  intros (A1 & B1 & C1 & D1) (A2 & B2 & C2 & D2).
  repeat split; congruence.
Qed.

Lemma keepsShape_withRest (m : HPYPModel) p s g :
  keepsShape m (withRest m p s g).
Proof. repeat split. Qed.

Lemma updateLoop_shape (m : HPYPModel) rit j pp d a obs w :
  keepsShape m (updateLoop m rit j pp d a obs w).
Proof.
  revert m j w. induction rit as [|n rest IH]; intros m j w;
    [apply keepsShape_refl|].
  cbn [updateLoop]. destruct (addCustomer _ _ _ _ _ _ _ _) as [[nt s'] g'].
  destruct (req0 nt); [apply keepsShape_withRest|].
  eapply keepsShape_trans; [apply keepsShape_withRest|apply IH].
Qed.

Lemma removeLoop_shape (M : HPYPModel) rit j pathSize d obs pdp f :
  keepsShape M (removeLoop M rit j pathSize d obs pdp f).
Proof.
  revert M j f. induction rit as [|n rest IH]; intros M j f;
    [apply keepsShape_refl|].
  cbn [removeLoop]. destruct (removeCustomer _ _ _ _ _ _) as [[f' s'] g'].
  destruct (req0 f'); [apply keepsShape_withRest|].
  eapply keepsShape_trans; [apply keepsShape_withRest|apply IH].
Qed.

Lemma in_map_payload_rev (h : nat) (path : list WrappedNode) :
  In h (map payload (rev path)) <-> In h (map payload path).
Proof. rewrite map_rev. split; [apply in_rev|apply in_rev]. Qed.

Lemma insertObservation_frame (m : HPYPModel) start stop obs cp :
  let path := match cp with
              | Some p => p
              | None => findLongestSuffix (tree m) start stop
              end in
  let m1 := snd (insertObservation m start stop obs cp) in
  keepsShape m m1 /\
  forall h, ~ In h (map payload path) -> payloadOf m1 h = payloadOf m h.
Proof.
  intros path m1. split.
  - apply updateLoop_shape.
  - intros h Hh. apply updateLoop_other. rewrite in_map_payload_rev.
    exact Hh.
Qed.

Lemma removeObservation_frame (m : HPYPModel) start stop obs pdp path :
  exists m2,
    removeObservation m start stop obs pdp (Some path) = Ok m2 /\
    keepsShape m m2 /\
    forall h, ~ In h (map payload path) -> payloadOf m2 h = payloadOf m h.
Proof.
  unfold removeObservation. simpl. rewrite Z.eqb_refl. simpl.
  eexists. split; [reflexivity|]. split.
  - apply removeLoop_shape.
  - intros h Hh. apply removeLoop_other. rewrite in_map_payload_rev.
    exact Hh.
Qed.

(** X: [insertObservation] changes only the restaurants of the nodes on the
    path it seats along (the cached path, or else the longest suffix of the
    context), besides the random source; [removeObservation] given a cached
    path always succeeds and changes only the restaurants on that path. Both
    leave the sequence, the tree, the parameters and [numTypes] alone. *)
Theorem observation_updates_stay_on_path (m : HPYPModel) (start stop obs : Z)
    (cp : option (list WrappedNode)) (pdp : list AData)
    (path : list WrappedNode) :
  (let chosen := match cp with
                 | Some p => p
                 | None => findLongestSuffix (tree m) start stop
                 end in
   let m1 := snd (insertObservation m start stop obs cp) in
   keepsShape m m1 /\
   forall h, ~ In h (map payload chosen) -> payloadOf m1 h = payloadOf m h) /\
  exists m2,
    removeObservation m start stop obs pdp (Some path) = Ok m2 /\
    keepsShape m m2 /\
    forall h, ~ In h (map payload path) -> payloadOf m2 h = payloadOf m h.
Proof.
  split; [apply insertObservation_frame|apply removeObservation_frame].
Qed.

End FrameMore.

(* ------------------------------------------------------------------------ *)
(** ** Entry assertions *)

Section AssertProofs.

Context {N : Num} {Rs : Restaurant} {CT : ContextTree} {Ps : Parameters}.

Lemma pathAsserts_cases (path : list WrappedNode) (d a : list R) :
  (pathAsserts path d a = Ok tt /\ alignedPath path d a) \/
  (pathAsserts path d a = Crash AssertFailed /\ ~ alignedPath path d a).
Proof.
  unfold pathAsserts, assert_, alignedPath.
  destruct (Nat.ltb_spec 0 (length path)) as [Hp|Hp];
  destruct (Nat.eqb_spec (length path) (length d)) as [Hd|Hd];
  destruct (Nat.eqb_spec (length path) (length a)) as [Ha|Ha]; simpl;
  try (right; split; [reflexivity|]; intros (Hne & Hd' & Ha');
       destruct path; simpl in *; [congruence|lia]);
  left; split; auto; split; [intros ->; simpl in Hp; lia|split; auto].
Qed.

End AssertProofs.

(* ------------------------------------------------------------------------ *)
(** ** How the drivers compose *)

Section DriverProofs.

Context {N : Num} {Rs : Restaurant} {CT : ContextTree} {Ps : Parameters}.

Lemma obind_assoc {A B C} (c : Outcome A) (f : A -> Outcome B)
    (g : B -> Outcome C) :
  obind (obind c f) g = obind c (fun x => obind (f x) g).
Proof. destruct c; reflexivity. Qed.

Lemma treeLoop_app (m : HPYPModel) (from : Z) (k l : nat) :
  treeLoop m from (k + l) =
  obind (treeLoop m from k) (fun m' => treeLoop m' (from + Z.of_nat k) l).
Proof.
  revert m from. induction k as [|k IH]; intros m from.
  - simpl. rewrite Z.add_0_r. reflexivity.
  - cbn [treeLoop Nat.add]. rewrite obind_assoc.
    destruct (insertContextAndObservation m 0 from (seqAt m from))
      as [[pp m1]|f]; [|reflexivity].
    simpl. rewrite IH.
    replace (from + 1 + Z.of_nat k) with (from + Z.of_nat (S k)) by lia.
    reflexivity.
Qed.

(** X: [updateTree] over [start .. stop) is [updateTree] over
    [start .. mid) followed by [updateTree] over [mid .. stop), for any
    split point [mid] in between; a failed assertion in the first part ends
    the whole run. *)
Theorem updateTree_split (m : HPYPModel) (start mid stop : Z) :
  start <= mid <= stop ->
  updateTree m start stop =
  obind (updateTree m start mid) (fun m' => updateTree m' mid stop).
Proof.
  intros Hr. unfold updateTree.
  replace (Z.to_nat (stop - start))
    with (Z.to_nat (mid - start) + Z.to_nat (stop - mid))%nat by lia.
  rewrite treeLoop_app.
  replace (start + Z.of_nat (Z.to_nat (mid - start))) with mid by lia.
  reflexivity.
Qed.

(** X: [buildTree(stop)] is [buildTree(mid)] followed by
    [updateTree(mid, stop)], for any [1 <= mid <= stop]: a tree can be
    built in stages. *)
Theorem buildTree_then_updateTree (m : HPYPModel) (mid stop : Z) :
  1 <= mid <= stop ->
  buildTree m stop =
  obind (buildTree m mid) (fun m' => updateTree m' mid stop).
Proof.
  intros Hr. unfold buildTree, updateTree.
  replace (Z.to_nat (stop - 1))
    with (Z.to_nat (mid - 1) + Z.to_nat (stop - mid))%nat by lia.
  rewrite treeLoop_app.
  replace (1 + Z.of_nat (Z.to_nat (mid - 1))) with mid by lia.
  reflexivity.
Qed.

Lemma lossLoop_state (m : HPYPModel) (from : Z) (fuel : nat) :
  obind (lossLoop m 0 from fuel) (fun '(_, m') => Ok m') =
  treeLoop m from fuel.
Proof.
  revert m from. induction fuel as [|fuel IH]; intros m from; [reflexivity|].
  cbn [lossLoop treeLoop].
  destruct (insertContextAndObservation m 0 from (seqAt m from))
    as [[pp m1]|f]; [|reflexivity].
  simpl. rewrite <- IH.
  destruct (lossLoop m1 0 (from + 1) fuel) as [[rest m2]|f]; reflexivity.
Qed.

(** X: [computeLosses(0, stop)] leaves the model in the state
    [buildTree(stop)] leaves it in, and fails exactly when [buildTree]
    fails: it is [buildTree] that also records the losses. *)
Theorem computeLosses_builds_tree (m : HPYPModel) (stop : Z) :
  obind (computeLosses m 0 stop) (fun '(_, m') => Ok m') = buildTree m stop.
Proof.
  unfold computeLosses, buildTree. change (0 + 1) with 1.
  rewrite <- lossLoop_state.
  destruct (lossLoop _ 0 1 _) as [[l m']|f]; reflexivity.
Qed.

Lemma lossDelLoop_no_deletion (m : HPYPModel) (start from lag : Z)
    (fuel : nat) :
  (forall k, (k < fuel)%nat -> from + Z.of_nat k - lag < start) ->
  lossDelLoop m start from lag fuel = lossLoop m start from fuel.
Proof.
  revert m from. induction fuel as [|fuel IH]; intros m from Hk;
    [reflexivity|].
  cbn [lossDelLoop lossLoop].
  destruct (insertContextAndObservation m start from (seqAt m from))
    as [[pp m1]|f]; [|reflexivity].
  simpl.
  destruct (Z.leb_spec start (from - lag)) as [Hle|_].
  { specialize (Hk 0%nat ltac:(lia)). lia. }
  simpl. rewrite IH; [reflexivity|].
  intros k Hlt. specialize (Hk (S k) ltac:(lia)). lia.
Qed.

(** X: when the lag is at least the length of the window
    ([stop - start <= lag]), [computeLossesWithDeletion] never removes an
    observation and returns the same losses and model as [computeLosses]. *)
Theorem computeLossesWithDeletion_large_lag (m : HPYPModel)
    (start stop lag : Z) :
  stop - start <= lag ->
  computeLossesWithDeletion m start stop lag = computeLosses m start stop.
Proof.
  intros Hlag. unfold computeLossesWithDeletion, computeLosses.
  rewrite lossDelLoop_no_deletion; [reflexivity|].
  intros k Hk. lia.
Qed.

Lemma lossLoop_length (m : HPYPModel) (start from : Z) (fuel : nat) l m' :
  lossLoop m start from fuel = Ok (l, m') -> length l = fuel.
Proof.
  revert m from l m'. induction fuel as [|fuel IH]; intros m from l m' Hok.
  - simpl in Hok. injection Hok as <- _. reflexivity.
  - cbn [lossLoop] in Hok.
    destruct (insertContextAndObservation m start from (seqAt m from))
      as [[pp m1]|f]; [|discriminate].
    simpl in Hok.
    destruct (lossLoop m1 start (from + 1) fuel) as [[rest m2]|f] eqn:E;
      [|discriminate].
    simpl in Hok. injection Hok as <- _. simpl. f_equal. exact (IH _ _ _ _ E).
Qed.

Lemma lossDelLoop_length (m : HPYPModel) (start from lag : Z) (fuel : nat)
    l m' :
  lossDelLoop m start from lag fuel = Ok (l, m') -> length l = fuel.
Proof.
  revert m from l m'. induction fuel as [|fuel IH]; intros m from l m' Hok.
  - simpl in Hok. injection Hok as <- _. reflexivity.
  - cbn [lossDelLoop] in Hok.
    destruct (insertContextAndObservation m start from (seqAt m from))
      as [[pp m1]|f]; [|discriminate].
    simpl in Hok.
    destruct (if start <=? from - lag then _ else Ok m1) as [m2|f];
      [|discriminate].
    simpl in Hok.
    destruct (lossDelLoop m2 start (from + 1) lag fuel) as [[rest m3]|f] eqn:E;
      [|discriminate].
    simpl in Hok. injection Hok as <- _. simpl. f_equal. exact (IH _ _ _ _ E).
Qed.

(** X: when [computeLosses(start, stop)] or
    [computeLossesWithDeletion(start, stop, lag)] returns, its list holds one
    loss for [start] and one for each of [start+1 .. stop-1]: at least one
    entry, and [stop - start] entries when [start < stop]. *)
Theorem losses_length (m : HPYPModel) (start stop lag : Z) l m' :
  (computeLosses m start stop = Ok (l, m') \/
   computeLossesWithDeletion m start stop lag = Ok (l, m')) ->
  length l = S (Z.to_nat (stop - (start + 1))).
Proof.
  intros [Hok|Hok].
  - unfold computeLosses in Hok.
    destruct (lossLoop _ _ _ _) as [[rest m2]|f] eqn:E; [|discriminate].
    simpl in Hok. injection Hok as <- _. simpl.
    f_equal. exact (lossLoop_length _ _ _ _ _ _ E).
  - unfold computeLossesWithDeletion in Hok.
    destruct (lossDelLoop _ _ _ _ _) as [[rest m2]|f] eqn:E; [|discriminate].
    simpl in Hok. injection Hok as <- _. simpl.
    f_equal. exact (lossDelLoop_length _ _ _ _ _ _ _ E).
Qed.

Lemma seqZ_succ (from : Z) (k : nat) :
  seqZ from (Z.of_nat (S k)) = from :: seqZ (from + 1) (Z.of_nat k).
Proof.
  rewrite seqZ_cons by lia. f_equal; f_equal; lia.
Qed.

Lemma predictLoop_above (m : HPYPModel) (start from : Z) (fuel : nat) :
  predictLoop m start from ABOVE fuel =
  (map (fun i => fst (predict m start i (seqAt m i)))
       (seqZ from (Z.of_nat fuel)), m).
Proof.
  revert from. induction fuel as [|fuel IH]; intros from; [reflexivity|].
  rewrite seqZ_succ. cbn [predictLoop].
  replace (predict m start from (seqAt m from))
    with (fst (predict m start from (seqAt m from)), m) by reflexivity.
  cbv beta iota. rewrite IH. reflexivity.
Qed.

Lemma predictLoop_below (m : HPYPModel) (start from : Z) (fuel : nat) :
  predictLoop m start from BELOW fuel =
  (map (fun i => fst (predictBelow m start i (seqAt m i)))
       (seqZ from (Z.of_nat fuel)), m).
Proof.
  revert from. induction fuel as [|fuel IH]; intros from; [reflexivity|].
  rewrite seqZ_succ. cbn [predictLoop].
  replace (predictBelow m start from (seqAt m from))
    with (fst (predictBelow m start from (seqAt m from)), m) by reflexivity.
  cbv beta iota. rewrite IH. reflexivity.
Qed.

Lemma seqZ_to_nat (from n : Z) : seqZ from (Z.of_nat (Z.to_nat n)) = seqZ from n.
Proof. unfold seqZ. rewrite Nat2Z.id. reflexivity. Qed.

(** X: [predictSequence] in the modes [ABOVE] and [BELOW] returns, for each
    [i] of [start .. stop-1] in order, the probability [predict] (resp.
    [predictBelow]) gives [seq[i]] in context [start .. i] on the model as it
    was before the call, and leaves the model unchanged; the list is empty
    when [stop <= start]. *)
Theorem predictSequence_above_below (m : HPYPModel) (start stop : Z) :
  predictSequence m start stop ABOVE =
  (map (fun i => fst (predict m start i (seqAt m i)))
       (seqZ start (stop - start)), m) /\
  predictSequence m start stop BELOW =
  (map (fun i => fst (predictBelow m start i (seqAt m i)))
       (seqZ start (stop - start)), m).
Proof.
  unfold predictSequence.
  rewrite predictLoop_above, predictLoop_below, !seqZ_to_nat. split; reflexivity.
Qed.

Lemma sameState_trans (m1 m2 m3 : HPYPModel) :
  sameState m1 m2 -> sameState m2 m3 -> sameState m1 m3.
Proof.
  intros (A1 & B1 & C1 & D1 & E1 & F1) (A2 & B2 & C2 & D2 & E2 & F2).
  repeat split; try congruence.
  all: intros p; rewrite F2; apply F1.
Qed.

Lemma predictWithFragmentation_frame (Hsplit : splitUpdatesNewOnly)
    (m : HPYPModel) (start stop obs : Z) :
  sameState m (snd (predictWithFragmentation m start stop obs)).
Proof.
  pose proof (freshPayload_unused m) as Hfresh.
  unfold predictWithFragmentation.
  destruct (findLongestSuffixVirtual (tree m) start stop) as [fl vp].
  destruct (negb (fl =? 0)); [|apply sameState_refl].
  set (sn := freshPayload m) in *.
  set (m1 := withRests m (<[sn := make]> (rests m))).
  set (pl := payload (nth (length vp - 1) vp noNode)).
  destruct (updateAfterSplit (payloadOf m1 pl) (payloadOf m1 sn) _ _ true)
    as [sOld sNew] eqn:U.
  assert (HsOld : sOld = payloadOf m1 pl).
  { pose proof (Hsplit (payloadOf m1 pl) (payloadOf m1 sn)
                  (List.last (getDiscounts (params m) vp) r0)
                  (getDiscount (params m1) (wend (nth (length vp - 2) vp noNode)
                     - wstart (nth (length vp - 2) vp noNode)) fl)) as H.
    rewrite U in H. exact H. }
  simpl. repeat split.
  intros p. unfold payloadOf; simpl.
  destruct (decide (p = sn)) as [->|Hne].
  - rewrite lookup_delete_eq, Hfresh. reflexivity.
  - rewrite lookup_delete_ne by congruence.
    destruct (decide (p = pl)) as [->|Hne'].
    + rewrite lookup_insert_eq, HsOld. unfold payloadOf, m1; simpl.
      rewrite lookup_insert_ne by congruence. reflexivity.
    + rewrite !lookup_insert_ne by congruence. reflexivity.
Qed.

Lemma predictLoop_frame (Hsplit : splitUpdatesNewOnly) (m : HPYPModel)
    (start from : Z) (mode : PredictMode) (fuel : nat) :
  length (fst (predictLoop m start from mode fuel)) = fuel /\
  sameState m (snd (predictLoop m start from mode fuel)).
Proof.
  revert m from. induction fuel as [|fuel IH]; intros m from;
    [split; [reflexivity|apply sameState_refl]|].
  cbn [predictLoop].
  destruct (match mode with
            | ABOVE => predict m start from (seqAt m from)
            | FRAGMENT => predictWithFragmentation m start from (seqAt m from)
            | BELOW => predictBelow m start from (seqAt m from)
            end) as [p m1] eqn:E.
  assert (H1 : sameState m m1).
  { destruct mode; simpl in E.
    - injection E as _ <-. apply sameState_refl.
    - change m1 with (snd (p, m1)). rewrite <- E.
      apply predictWithFragmentation_frame; exact Hsplit.
    - injection E as _ <-. apply sameState_refl. }
  destruct (IH m1 (from + 1)) as [Hl Hs].
  destruct (predictLoop m1 start (from + 1) mode fuel) as [ps m2].
  simpl in *. split; [congruence|]. eapply sameState_trans; eassumption.
Qed.

(** X: in every mode, [predictSequence(start, stop)] returns one probability
    per position of [start .. stop-1] and leaves the sequence, the tree, the
    parameters, the alphabet size and every restaurant as they were (for the
    [FRAGMENT] mode, given that [updateAfterSplit] in its only-new mode
    leaves the old payload alone). *)
Theorem predictSequence_frame (m : HPYPModel) (start stop : Z)
    (mode : PredictMode) :
  splitUpdatesNewOnly ->
  length (fst (predictSequence m start stop mode)) = Z.to_nat (stop - start) /\
  keepsShape m (snd (predictSequence m start stop mode)) /\
  forall p, payloadOf (snd (predictSequence m start stop mode)) p
            = payloadOf m p.
Proof.
  intros Hsplit. unfold predictSequence.
  destruct (predictLoop_frame Hsplit m start start mode (Z.to_nat (stop - start)))
    as [Hl (Hs & Ht & Hp & _ & Hn & Hr)].
  split; [exact Hl|]. split; [repeat split; assumption|exact Hr].
Qed.

End DriverProofs.

(* ------------------------------------------------------------------------ *)
(** ** Which restaurants the sweeps rewrite *)

Section SweepProofs.

Context {N : Num} {Rs : Restaurant} {CT : ContextTree} {Ps : Parameters}.

Lemma touchesOnly_refl (T : nat -> Prop) (m : HPYPModel) : touchesOnly T m m.
Proof. split; [apply keepsShape_refl|reflexivity]. Qed.

Lemma touchesOnly_trans (T : nat -> Prop) (m1 m2 m3 : HPYPModel) :
  touchesOnly T m1 m2 -> touchesOnly T m2 m3 -> touchesOnly T m1 m3.
Proof.
  intros [K1 F1] [K2 F2]. split; [eapply keepsShape_trans; eassumption|].
  intros h Hh. rewrite F2 by exact Hh. apply F1, Hh.
Qed.

Lemma touchesOnly_mono (T T' : nat -> Prop) (m m' : HPYPModel) :
  (forall h, T h -> T' h) -> touchesOnly T m m' -> touchesOnly T' m m'.
Proof.
  intros HT [K F]. split; [exact K|]. intros h Hh. apply F. intros H.
  apply Hh, HT, H.
Qed.

Lemma touchesOnly_withRest (T : nat -> Prop) (m : HPYPModel) p s g :
  T p -> touchesOnly T m (withRest m p s g).
Proof.
  intros Hp. split; [apply keepsShape_withRest|]. intros h Hh.
  apply payloadOf_withRest_ne. intros ->. contradiction.
Qed.

Lemma touchesOnly_tree (T : nat -> Prop) (m m' : HPYPModel) :
  touchesOnly T m m' -> tree m' = tree m.
Proof. intros [(_ & Ht & _) _]. exact Ht. Qed.

Lemma removeAddLoop_frame (m : HPYPModel) (start from : Z) (fuel : nat) :
  exists m', removeAddLoop m start from fuel = Ok m' /\
    touchesOnly (fun h => exists i, from <= i < from + Z.of_nat fuel /\
                   In h (map payload (findNode (tree m) start i))) m m'.
Proof.
  revert m from. induction fuel as [|fuel IH]; intros m from.
  - exists m. split; [reflexivity|]. apply touchesOnly_refl.
  - cbn [removeAddLoop].
    set (path := findNode (tree m) start from).
    destruct (removeObservation_frame m start from (seqAt m from) [] path)
      as (m1 & -> & K1 & F1).
    cbn [obind].
    set (m2 := snd (insertObservation m1 start from (seqAt m1 from)
                                      (Some path))).
    destruct (insertObservation_frame m1 start from (seqAt m1 from)
                (Some path)) as [K2 F2].
    fold m2 in K2, F2.
    destruct (IH m2 (from + 1)) as (m3 & Hm3 & H3).
    exists m3. split; [exact Hm3|].
    assert (Ht2 : tree m2 = tree m).
    { destruct K1 as (_ & T1 & _), K2 as (_ & T2 & _). congruence. }
    rewrite Ht2 in H3.
    assert (Hin : forall h, In h (map payload path) ->
              exists i, from <= i < from + Z.of_nat (S fuel) /\
                        In h (map payload (findNode (tree m) start i))).
    { intros h Hh. exists from. split; [lia|exact Hh]. }
    eapply touchesOnly_trans; [|eapply touchesOnly_trans];
      [| |eapply touchesOnly_mono; [|exact H3]].
    + split; [exact K1|]. intros h Hh. apply F1. intros Hp. apply Hh, Hin, Hp.
    + split; [exact K2|]. intros h Hh. apply F2. intros Hp. apply Hh, Hin, Hp.
    + intros h (i & Hi & Hh). exists i. split; [lia|exact Hh].
Qed.

(** X: [removeAddSweep(start, stop)] never fails, and it rewrites only the
    restaurants on the paths [findNode(start, i)] for [start <= i < stop]
    (and the random source): the sequence, the tree, the parameters, the
    alphabet size and every other restaurant are left as they were. *)
Theorem removeAddSweep_frame (m : HPYPModel) (start stop : Z) :
  exists m', removeAddSweep m start stop = Ok m' /\
    touchesOnly (fun h => exists i, start <= i < stop /\
                   In h (map payload (findNode (tree m) start i))) m m'.
Proof.
  unfold removeAddSweep.
  destruct (removeAddLoop_frame m start start (Z.to_nat (stop - start)))
    as (m' & -> & H).
  exists m'. split; [reflexivity|].
  eapply touchesOnly_mono; [|exact H].
  intros h (i & Hi & Hh). exists i. split; [lia|exact Hh].
Qed.

End SweepProofs.

(* ------------------------------------------------------------------------ *)
(** ** What the Gibbs sampler rewrites *)

Section GibbsFrameProofs.

Context {N : Num} {Rs : Restaurant} {CT : ContextTree} {Ps : Parameters}.

Lemma nth_payload_in (path : list WrappedNode) (j : nat) :
  (j < length path)%nat -> In (payload (nth j path noNode)) (map payload path).
Proof. intros Hj. apply in_map. apply nth_In. exact Hj. Qed.

Lemma fold_left_outcome_crash {A B} (f : A -> B -> Outcome A) (l : list B)
    (e : Fault) :
  fold_left (fun acc b => obind acc (fun x => f x b)) l (Crash e) = Crash e.
Proof. induction l as [|b l IH]; simpl; [reflexivity|exact IH]. Qed.

Lemma fold_left_outcome_rel {A B} (P : A -> A -> Prop)
    (f : A -> B -> Outcome A) (l : list B) (x y : A) :
  (forall x, P x x) -> (forall x y z, P x y -> P y z -> P x z) ->
  (forall x b x', f x b = Ok x' -> P x x') ->
  fold_left (fun acc b => obind acc (fun x => f x b)) l (Ok x) = Ok y ->
  P x y.
Proof.
  intros Hrefl Htrans Hstep. revert x. induction l as [|b l IH]; intros x Hf.
  - simpl in Hf. injection Hf as <-. apply Hrefl.
  - simpl in Hf. destruct (f x b) as [x'|e] eqn:E.
    + eapply Htrans; [eapply Hstep, E|]. apply IH, Hf.
    + rewrite fold_left_outcome_crash in Hf. discriminate.
Qed.

Lemma gibbsLevel_frame (m : HPYPModel) path d a pdp bp y j m1 moved :
  (j < length path)%nat ->
  gibbsLevel m path d a pdp bp y j = Ok (m1, moved) ->
  touchesOnly (fun h => In h (map payload path)) m m1.
Proof.
  intros Hj Hok. unfold gibbsLevel in Hok.
  destruct (vecAt pdp j) as [gen|f]; [|discriminate]. cbn [obind] in Hok.
  destruct (sample_unnormalized_pdf _ _) as [k g'].
  destruct j as [|jp].
  - injection Hok as <- _. apply touchesOnly_withRest, nth_payload_in, Hj.
  - cbn [obind assert_] in Hok.
    destruct (_ <=? _); [|discriminate]. cbn [obind] in Hok.
    injection Hok as <- _.
    eapply touchesOnly_trans; apply touchesOnly_withRest, nth_payload_in; lia.
Qed.

Lemma gibbsWalk_frame (m : HPYPModel) path d a pdp bp y j goUp m' :
  (j < length path)%nat ->
  gibbsWalk m path d a pdp bp y j goUp = Ok m' ->
  touchesOnly (fun h => In h (map payload path)) m m'.
Proof.
  revert m goUp. induction j as [|j IH]; intros m goUp Hj Hok;
    (destruct goUp; [|injection Hok as <-; apply touchesOnly_refl]);
    cbn [gibbsWalk] in Hok;
    (destruct (gibbsLevel m path d a pdp bp y _) as [[m1 moved]|f] eqn:E;
     [|discriminate]);
    cbn [obind] in Hok; pose proof (gibbsLevel_frame _ _ _ _ _ _ _ _ _ _ Hj E).
  - destruct moved; injection Hok as <-; assumption.
  - destruct moved; [|injection Hok as <-; assumption].
    eapply touchesOnly_trans; [eassumption|]. eapply IH; [lia|exact Hok].
Qed.

Lemma aligned_top (path : list WrappedNode) (d a : list R) :
  alignedPath path d a -> (length d - 1 < length path)%nat.
Proof.
  intros (Hp & Hd & _). rewrite Hd. destruct path; [congruence|simpl; lia].
Qed.

Lemma directGibbsSamplePath_frame (m : HPYPModel) path d a pdp bp m' :
  directGibbsSamplePath m path d a pdp bp = Ok m' ->
  touchesOnly (fun h => In h (map payload path)) m m'.
Proof.
  unfold directGibbsSamplePath.
  destruct (pathAsserts_cases path d a) as [[-> Hal]|[-> _]];
    [|discriminate].
  cbn [obind].
  apply (fold_left_outcome_rel _ (fun m' y =>
           if getCw (payloadOf m' (payload (back path))) y =? 1 then Ok m'
           else gibbsWalk m' path d a pdp bp y (length d - 1) true));
    [apply touchesOnly_refl|apply touchesOnly_trans|].
  intros x y x' Hx. destruct (_ =? 1).
  - injection Hx as <-. apply touchesOnly_refl.
  - eapply gibbsWalk_frame; [exact (aligned_top _ _ _ Hal)|exact Hx].
Qed.

Lemma arRemove_frame (m : HPYPModel) path d pdp useAD y j :
  (j < length path)%nat ->
  touchesOnly (fun h => In h (map payload path)) m
              (fst (arRemove m path d pdp useAD y j)).
Proof.
  revert m. induction j as [|j IH]; intros m Hj; cbn [arRemove];
    destruct (removeCustomer _ _ _ _ _ _) as [[f s'] g'];
    (destruct (req0 f); [apply touchesOnly_withRest, nth_payload_in, Hj|]).
  - apply touchesOnly_withRest, nth_payload_in, Hj.
  - eapply touchesOnly_trans; [apply touchesOnly_withRest, nth_payload_in, Hj|].
    apply IH. lia.
Qed.

Lemma arAdd_frame (m : HPYPModel) path pp d a pdp useAD y j :
  (j < length path)%nat ->
  touchesOnly (fun h => In h (map payload path)) m
              (arAdd m path pp d a pdp useAD y j).
Proof.
  revert m. induction j as [|j IH]; intros m Hj; cbn [arAdd];
    destruct (addCustomer _ _ _ _ _ _ _ _) as [[f s'] g'];
    (destruct (req0 f); [apply touchesOnly_withRest, nth_payload_in, Hj|]).
  - apply touchesOnly_withRest, nth_payload_in, Hj.
  - eapply touchesOnly_trans; [apply touchesOnly_withRest, nth_payload_in, Hj|].
    apply IH. lia.
Qed.

Lemma arCustomers_frame (m : HPYPModel) path d a pdp useAD y pp n :
  (length d - 1 < length path)%nat ->
  touchesOnly (fun h => In h (map payload path)) m
              (arCustomers m path d a pdp useAD y pp n).
Proof.
  intros Htop. revert m pp. induction n as [|n IH]; intros m pp;
    [apply touchesOnly_refl|].
  cbn [arCustomers]. unfold arCustomer.
  pose proof (arRemove_frame m path d pdp useAD y _ Htop) as H1.
  destruct (arRemove m path d pdp useAD y (length d - 1)) as [m1 jstop].
  simpl in H1. eapply touchesOnly_trans; [exact H1|].
  eapply touchesOnly_trans; [apply arAdd_frame, Htop|]. apply IH.
Qed.

Lemma addRemoveSamplePath_frame (m : HPYPModel) path d a pdp bp m' :
  addRemoveSamplePath m path d a pdp bp = Ok m' ->
  touchesOnly (fun h => In h (map payload path)) m m'.
Proof.
  unfold addRemoveSamplePath.
  destruct (pathAsserts_cases path d a) as [[-> Hal]|[-> _]];
    [|discriminate].
  cbn [obind].
  apply (fold_left_outcome_rel _ (fun m' y =>
      if getCw (payloadOf m' (payload (back path))) y =? 1 then Ok m'
      else Ok (arCustomers m' path d a pdp (length pdp =? length path)%nat y
                 (computeProbabilityPath m' path d a y)
                 (Z.to_nat (getCw (payloadOf m' (payload (back path))) y)))));
    [apply touchesOnly_refl|apply touchesOnly_trans|].
  intros x y x' Hx. destruct (_ =? 1); injection Hx as <-.
  - apply touchesOnly_refl.
  - apply arCustomers_frame; exact (aligned_top _ _ _ Hal).
Qed.

Lemma sampleWith_frame (dg : bool) (m : HPYPModel) p d a pdp m' :
  sampleWith dg m p d a pdp = Ok m' ->
  touchesOnly (fun h => In h (map payload p)) m m'.
Proof.
  unfold sampleWith. destruct dg;
    [apply directGibbsSamplePath_frame|apply addRemoveSamplePath_frame].
Qed.

Lemma sweepLoop_frame (dg : bool) (m : HPYPModel) paths d a pdp L m' :
  sweepLoop dg m paths d a pdp L = Ok m' ->
  touchesOnly (fun h => exists p, In p paths /\ In h (map payload p)) m m'.
Proof.
  revert m d a pdp L. induction paths as [|p rest IH];
    intros m d a pdp L Hok; cbn [sweepLoop] in Hok.
  - injection Hok as <-. apply touchesOnly_refl.
  - destruct (length p =? 0)%nat; [injection Hok as <-; apply touchesOnly_refl|].
    destruct (advance m p L d a pdp) as [[[d' a'] pdp']|f]; [|discriminate].
    cbn [obind] in Hok.
    destruct (sampleWith dg m p d' a' pdp') as [m1|f] eqn:E; [|discriminate].
    cbn [obind] in Hok.
    eapply touchesOnly_trans.
    + eapply touchesOnly_mono; [|exact (sampleWith_frame _ _ _ _ _ _ _ E)].
      intros h Hh. exists p. split; [left; reflexivity|exact Hh].
    + eapply touchesOnly_mono; [|exact (IH _ _ _ _ _ Hok)].
      intros h (q & Hq & Hh). exists q. split; [right; exact Hq|exact Hh].
Qed.

(** X: when [runGibbsSampler] returns, in either mode, it has rewritten only
    restaurants of nodes on the paths of the DFS path iterator (and the
    random source): the sequence, the tree, the parameters, the alphabet
    size and the restaurant of every handle on none of those paths are as
    they were. *)
Theorem runGibbsSampler_frame (m : HPYPModel) (directGibbs : bool)
    (m' : HPYPModel) :
  runGibbsSampler m directGibbs = Ok m' ->
  touchesOnly (fun h => exists p, In p (dfsPaths (tree m)) /\
                                  In h (map payload p)) m m'.
Proof.
  unfold runGibbsSampler.
  destruct (initPaths m (hd [] (dfsPaths (tree m)))) as [[d a] pdp].
  destruct (sampleWith directGibbs m _ d a pdp) as [m1|f] eqn:E;
    [|discriminate].
  cbn [obind]. intros Hok.
  eapply touchesOnly_trans.
  - eapply touchesOnly_mono; [|exact (sampleWith_frame _ _ _ _ _ _ _ E)].
    intros h Hh. destruct (dfsPaths (tree m)) as [|p ps]; simpl in Hh;
      [contradiction|].
    exists p. split; [left; reflexivity|exact Hh].
  - eapply touchesOnly_mono; [|exact (sweepLoop_frame _ _ _ _ _ _ _ _ Hok)].
    intros h (q & Hq & Hh). exists q. split; [|exact Hh].
    destruct (dfsPaths (tree m)); simpl in Hq; [contradiction|right; exact Hq].
Qed.

End GibbsFrameProofs.

(* ------------------------------------------------------------------------ *)
(** ** The consistency check of a node *)

Section ConsistencyProofs.

Context {N : Num} {Rs : Restaurant} {CT : ContextTree} {Ps : Parameters}.
Context {RC : RestaurantCheck Rs}.

Lemma typeOccurrences_nil (y : Z) : typeOccurrences [] y = 0.
Proof. reflexivity. Qed.

Lemma typeOccurrences_cons (y0 : Z) (ys : list Z) (y : Z) :
  typeOccurrences (y0 :: ys) y =
  (if Z.eqb y y0 then 1 else 0) + typeOccurrences ys y.
Proof.
  unfold typeOccurrences. cbn [List.filter].
  destruct (Z.eqb y y0); cbn [length]; [rewrite Nat2Z.inj_succ|]; lia.
Qed.

Lemma typeOccurrences_absent (ys : list Z) (y : Z) :
  existsb (Z.eqb y) ys = false -> typeOccurrences ys y = 0.
Proof.
  induction ys as [|y0 ys IH]; intros H; [reflexivity|].
  simpl in H. apply orb_false_iff in H as [H1 H2].
  rewrite typeOccurrences_cons, H1, IH by exact H2. reflexivity.
Qed.

Lemma keyLoop_lookup (w : Z -> Z) (ys : list Z) (tc : gmap Z Z) (y : Z) :
  fold_left (fun tc y' => <[y' := default 0 (tc !! y') + w y']> tc) ys tc !! y
  = if existsb (Z.eqb y) ys
    then Some (default 0 (tc !! y) + typeOccurrences ys y * w y)
    else tc !! y.
Proof.
  revert tc. induction ys as [|y0 ys IH]; intros tc; [reflexivity|].
  simpl. rewrite IH, typeOccurrences_cons.
  destruct (Z.eqb_spec y y0) as [->|Hne]; simpl.
  - rewrite lookup_insert_eq. simpl.
    set (d0 := default 0 (tc !! y0)).
    destruct (existsb (Z.eqb y0) ys) eqn:E.
    + f_equal. lia.
    + rewrite typeOccurrences_absent by exact E. f_equal. lia.
  - rewrite lookup_insert_ne by congruence. reflexivity.
Qed.

Lemma childTables_absent (m : HPYPModel) (children : list WrappedNode) y :
  existsb (fun ch => existsb (Z.eqb y)
             (getTypeVector (payloadOf m (payload ch)))) children = false ->
  childTables m children y = 0.
Proof.
  induction children as [|ch children IH]; intros H; [reflexivity|].
  simpl in H. apply orb_false_iff in H as [H1 H2].
  unfold childTables. simpl. fold (childTables m children y).
  rewrite typeOccurrences_absent by exact H1. rewrite IH by exact H2. lia.
Qed.

Lemma childLoop_lookup (m : HPYPModel) (children : list WrappedNode)
    (tc : gmap Z Z) (y : Z) :
  fold_left (fun tc ch =>
               let s := payloadOf m (payload ch) in
               fold_left (fun tc y => <[y := default 0 (tc !! y) + getTw s y]> tc)
                         (getTypeVector s) tc) children tc !! y
  = if existsb (fun ch => existsb (Z.eqb y)
                            (getTypeVector (payloadOf m (payload ch)))) children
    then Some (default 0 (tc !! y) + childTables m children y)
    else tc !! y.
Proof.
  revert tc. induction children as [|ch children IH]; intros tc;
    [reflexivity|].
  cbn [fold_left]. rewrite IH. rewrite keyLoop_lookup.
  unfold childTables. cbn [map fold_right existsb]. fold (childTables m children y).
  destruct (existsb (Z.eqb y) (getTypeVector (payloadOf m (payload ch)))) eqn:E;
    simpl.
  - destruct (existsb _ children) eqn:E2; simpl.
    + f_equal. lia.
    + rewrite (childTables_absent m children y E2). f_equal. lia.
  - rewrite typeOccurrences_absent by exact E.
    destruct (existsb _ children); [f_equal; lia|reflexivity].
Qed.

Lemma andFold_true (f : Z -> Z) (l : list (Z * Z)) (c : bool) :
  fold_left (fun c '(y, n) => (n <=? f y) && c) l c = true <->
  c = true /\ Forall (fun '(y, n) => n <= f y) l.
Proof.
  revert c. induction l as [|[y n] l IH]; intros c; simpl.
  - split; [intros ->; split; [reflexivity|constructor]|intros [-> _]; reflexivity].
  - rewrite IH, andb_true_iff, Z.leb_le, Forall_cons. tauto.
Qed.

(** X: [checkConsistency(node, children)] holds exactly when the node's
    restaurant passes its own check and, for every type [y] that occurs in
    the type vector of some child, the tables of type [y] summed over the
    children (a child counted once per occurrence of [y] in its type vector)
    do not exceed the node's customers of type [y]. *)
Theorem checkConsistencyNode_spec (m : HPYPModel) (node : WrappedNode)
    (children : list WrappedNode) :
  checkConsistencyNode m node children = true <->
  restCheckConsistency (payloadOf m (payload node)) = true /\
  forall y, (exists ch, In ch children /\
                        In y (getTypeVector (payloadOf m (payload ch)))) ->
            childTables m children y <= getCw (payloadOf m (payload node)) y.
Proof.
  unfold checkConsistencyNode. rewrite andFold_true.
  set (f := getCw (payloadOf m (payload node))).
  assert (Hiff : Forall (fun '(y, n) => n <= f y)
                   (map_to_list (childTableCounts m children)) <->
                 map_Forall (fun y n => n <= f y) (childTableCounts m children)).
  { rewrite map_Forall_to_list.
    split; intros HF; (eapply Forall_impl; [exact HF|]); intros [y n]; auto. }
  rewrite Hiff. apply and_iff_compat_l. unfold map_Forall.
  split.
  - intros H y (ch & Hch & Hy). apply (H y).
    unfold childTableCounts. rewrite childLoop_lookup.
    replace (existsb _ children) with true; [reflexivity|].
    symmetry. apply existsb_exists. exists ch. split; [exact Hch|].
    apply existsb_exists. exists y. split; [exact Hy|apply Z.eqb_refl].
  - intros H y n Hl. unfold childTableCounts in Hl.
    rewrite childLoop_lookup in Hl.
    destruct (existsb _ children) eqn:E; [|discriminate].
    injection Hl as <-. simpl. apply H.
    apply existsb_exists in E as (ch & Hch & Hy).
    apply existsb_exists in Hy as (y' & Hy' & Heq).
    apply Z.eqb_eq in Heq. subst y'. exists ch. split; assumption.
Qed.

End ConsistencyProofs.

(* ------------------------------------------------------------------------ *)
(** ** The predictive distribution *)

Section DistributionProofs.

Context {N : Num} {Rs : Restaurant} {CT : ContextTree} {Ps : Parameters}.

(** X: [predictiveDistribution(start, stop)] returns [numTypes] entries, the
    [i]-th being [predict(start, stop, i)]; with an empty list of mixing
    weights, [predictiveDistributionWithMixing] returns the same list (given
    [1 - 0 = 1], [1 * x = x] and [0 + x = x]). *)
Theorem predictiveDistribution_predicts (m : HPYPModel) (start stop : Z)
    (Hsub : rsub r1 r0 = r1) (Hmul : forall x, rmul r1 x = x)
    (Hadd : forall x, radd r0 x = x) :
  predictiveDistributionWithMixing m start stop [] =
  predictiveDistribution m start stop /\
  predictiveDistribution m start stop =
  (map (fun i => fst (predict m start stop i)) (seqZ 0 (numTypes m)), m) /\
  length (fst (predictiveDistribution m start stop)) = Z.to_nat (numTypes m).
Proof.
  split; [|split].
  - unfold predictiveDistributionWithMixing, predictiveDistribution.
    f_equal. apply map_ext. intros i. simpl.
    rewrite Hsub, Hmul, Hadd. reflexivity.
  - reflexivity.
  - simpl. rewrite length_map, length_seqZ. reflexivity.
Qed.

End DistributionProofs.

Lemma predictiveDistribution_predicts_witness :
  predictiveDistributionWithMixing Toy.rootModel 0 1 [] =
  predictiveDistribution Toy.rootModel 0 1.
Proof.
  apply (predictiveDistribution_predicts Toy.rootModel 0 1).
  - reflexivity.
  - intros [[|n|n] d]; reflexivity.
  - apply ToyFacts.QNum_exactAddition.
Defined.


(* ------------------------------------------------------------------------ *)
(** ** The composition and frame results at the toy models *)

Lemma updateTree_split_witness :
  updateTree Toy.rootModel 0 2 =
  obind (updateTree Toy.rootModel 0 1) (fun m' => updateTree m' 1 2).
Proof. apply updateTree_split. lia. Defined.

Lemma buildTree_then_updateTree_witness :
  buildTree Toy.rootModel 2 =
  obind (buildTree Toy.rootModel 1) (fun m' => updateTree m' 1 2).
Proof. apply buildTree_then_updateTree. lia. Defined.

Lemma computeLossesWithDeletion_large_lag_witness :
  computeLossesWithDeletion Toy.rootModel 0 2 5 = computeLosses Toy.rootModel 0 2.
Proof. apply computeLossesWithDeletion_large_lag. lia. Defined.

Lemma losses_length_witness :
  length (fst (match computeLosses Toy.rootModel 0 2 with
               | Ok r => r
               | Crash _ => (@nil Q, Toy.rootModel)
               end)) = 2%nat.
Proof.
  apply (losses_length Toy.rootModel 0 2 0 _
           (snd (match computeLosses Toy.rootModel 0 2 with
                 | Ok r => r
                 | Crash _ => (@nil Q, Toy.rootModel)
                 end))).
  left. vm_compute. reflexivity.
Defined.

Lemma predictSequence_frame_witness :
  length (fst (predictSequence Toy.rootModel 0 2 FRAGMENT)) = Z.to_nat (2 - 0) /\
  keepsShape Toy.rootModel (snd (predictSequence Toy.rootModel 0 2 FRAGMENT)) /\
  forall p, payloadOf (snd (predictSequence Toy.rootModel 0 2 FRAGMENT)) p
            = payloadOf Toy.rootModel p.
Proof.
  apply predictSequence_frame. intros o n dB dA. reflexivity.
Defined.

Lemma runGibbsSampler_frame_witness :
  touchesOnly (fun h => exists p, In p (dfsPaths (tree Toy.gibbsModel)) /\
                                  In h (map payload p))
    Toy.gibbsModel
    (match runGibbsSampler Toy.gibbsModel true with
     | Ok m' => m'
     | Crash _ => Toy.gibbsModel
     end).
Proof.
  apply (runGibbsSampler_frame Toy.gibbsModel true). vm_compute. reflexivity.
Defined.

(* ------------------------------------------------------------------------ *)
(** ** Inserting a context and an observation *)

Section InsertProofs.

Context {N : Num} {Rs : Restaurant} {CT : ContextTree} {Ps : Parameters}.

Lemma handleSplit_ok_frame (m m' : HPYPModel) A B C :
  handleSplit m A B C = Ok m' ->
  keepsShape m m' /\
  forall h, h <> payload B -> h <> payload C -> payloadOf m' h = payloadOf m h.
Proof.
  unfold handleSplit. destruct (assert_ _) as [[]|f]; [|discriminate].
  cbn [obind]. destruct (assert_ _) as [[]|f]; [|discriminate].
  cbn [obind]. destruct (updateAfterSplit _ _ _ _ _) as [sB sC].
  intros H. injection H as <-. split; [repeat split|].
  intros h HB HC. unfold payloadOf; simpl.
  rewrite !lookup_insert_ne by congruence. reflexivity.
Qed.

Lemma nth_in_or_empty (path : list WrappedNode) (k : nat) :
  (1 <= k)%nat -> path <> [] -> In (nth (length path - k) path noNode) path.
Proof.
  intros Hk Hp. apply nth_In. destruct path; [congruence|cbn [length]]. lia.
Qed.

(** X: when [insertContextAndObservation(start, stop, obs)] returns, the
    model holds the tree returned by the context insertion, the same
    sequence and alphabet size, and the returned probability path has one
    entry more than the inserted path; the only restaurants it rewrites are
    those of the nodes on that path and of the split child. *)
Theorem insertContextAndObservation_frame (m : HPYPModel) (start stop obs : Z)
    (pp : list R) (m' : HPYPModel) :
  insertContextAndObservation m start stop obs = Ok (pp, m') ->
  let '(ir, t') := insertCtx (tree m) start stop in
  tree m' = t' /\ seq m' = seq m /\ numTypes m' = numTypes m /\
  length pp = S (length (ir_path ir)) /\
  (ir_path ir <> [] ->
   forall h, ~ In h (map payload (ir_path ir)) ->
             h <> payload (ir_splitChild ir) ->
             payloadOf m' h = payloadOf m h).
Proof.
  unfold insertContextAndObservation, insertContext.
  destruct (insertCtx (tree m) start stop) as [ir t'].
  set (path := ir_path ir).
  assert (Hmid : forall m2, keepsShape (withTree m t') m2 ->
            (path <> [] -> forall h, ~ In h (map payload path) ->
               h <> payload (ir_splitChild ir) ->
               payloadOf m2 h = payloadOf m h) ->
            obind (Ok (path, m2)) (fun '(path, m1) =>
              let discountPath := getDiscounts (params m1) path in
              let concentrationPath :=
                getConcentrations (params m1) path discountPath in
              let probabilityPath :=
                computeProbabilityPath m1 path discountPath concentrationPath
                  obs in
              let m2 := withParams m1
                (accumulateParameterGradient (params m1) (payloadOf m1) path
                   probabilityPath discountPath concentrationPath obs) in
              let m3 := updatePath m2 path probabilityPath discountPath
                          concentrationPath obs in
              let m4 := withParams m3 (stepParameterGradient (params m3)
                          gradientRate) in
              Ok (probabilityPath, m4)) = Ok (pp, m') ->
            tree m' = t' /\ seq m' = seq m /\ numTypes m' = numTypes m /\
            length pp = S (length path) /\
            (path <> [] -> forall h, ~ In h (map payload path) ->
               h <> payload (ir_splitChild ir) ->
               payloadOf m' h = payloadOf m h)).
  { intros m2 (Hs & Ht & _ & Hn) Hf Hok. cbn [obind] in Hok.
    injection Hok as <- <-.
    match goal with
    | |- context [updatePath ?m3 path ?p ?d ?a obs] =>
        pose proof (updateLoop_shape m3 (rev path) (length path - 1) p d a obs
                      r1) as (Hs3 & Ht3 & _ & Hn3);
        pose proof (fun h => updateLoop_other m3 (rev path) (length path - 1)
                      p d a obs r1 h) as HU
    end.
    unfold updatePath. simpl in *. split; [congruence|split; [congruence|]].
    split; [congruence|split].
    - unfold computeProbabilityPath. simpl. rewrite length_probLoop.
      reflexivity.
    - intros Hp h Hh Hsc. specialize (HU h).
      rewrite in_map_payload_rev in HU. specialize (HU Hh).
      unfold payloadOf in HU |- *. simpl in HU |- *. rewrite HU.
      exact (Hf Hp h Hh Hsc). }
  destruct (ir_action ir); intros Hok.
  - refine (Hmid (withTree m t') _ _ Hok); [repeat split|].
    intros _ h _ _; reflexivity.
  - destruct (handleSplit _ _ _ _) as [m2|f] eqn:E; [|discriminate].
    cbn [obind] in Hok. apply handleSplit_ok_frame in E as [K F].
    refine (Hmid m2 K _ Hok).
    intros Hp h Hh Hsc. rewrite F by first [exact Hsc | intros ->; apply Hh;
      apply in_map; apply nth_in_or_empty; [lia|exact Hp]].
    reflexivity.
  - destruct (handleSplit _ _ _ _) as [m2|f] eqn:E; [|discriminate].
    cbn [obind] in Hok. apply handleSplit_ok_frame in E as [K F].
    refine (Hmid m2 K _ Hok).
    intros Hp h Hh Hsc. rewrite F by first [exact Hsc | intros ->; apply Hh;
      apply in_map; apply nth_in_or_empty; [lia|exact Hp]].
    reflexivity.
Qed.

End InsertProofs.

(** At the toy root model, the second symbol is inserted in the one-node
    tree: the tree is kept and the probability path has two entries. *)
Lemma insertContextAndObservation_frame_witness :
  let r := match insertContextAndObservation Toy.rootModel 0 1
                   (seqAt Toy.rootModel 1) with
           | Ok r => r
           | Crash _ => (@nil Q, Toy.rootModel)
           end in
  tree (snd r) = tree Toy.rootModel /\ length (fst r) = 2%nat.
Proof.
  intros r.
  destruct (insertContextAndObservation_frame Toy.rootModel 0 1
              (seqAt Toy.rootModel 1) (fst r) (snd r)
              ltac:(vm_compute; reflexivity)) as (Ht & _ & _ & Hl & _).
  split; [exact Ht|exact Hl].
Defined.

(* ------------------------------------------------------------------------ *)
(** ** The Gibbs sweeps keep the consistency invariants *)

Section InvariantProofs.

Context {N : Num} {Rs : Restaurant} {CT : ContextTree} {Ps : Parameters}.

Variable children : nat -> list nat.
Hypothesis HkidsNoDup : forall h, List.NoDup (children h).
Hypothesis HkidsParent : forall h h' c, In c (children h) -> In c (children h') -> h = h'.

Lemma restConsistent_c_pos (s : RState) y :
  restConsistent s -> getCw s y <> 0 -> 1 <= getCw s y.
Proof. intros H Hc. specialize (H y). lia. Qed.

Lemma kidTables_nonneg (m : HPYPModel) hs y :
  nodesConsistent m -> 0 <= kidTables m hs y.
Proof.
  intros Hc. unfold kidTables. induction hs as [|h hs IH]; simpl; [lia|].
  specialize (Hc h y). lia.
Qed.

Lemma kidTables_ge (m : HPYPModel) hs y h :
  nodesConsistent m -> In h hs -> getTw (payloadOf m h) y <= kidTables m hs y.
Proof.
  intros Hc Hin. induction hs as [|h' hs IH]; [destruct Hin|].
  pose proof (kidTables_nonneg m hs y Hc) as H0.
  unfold kidTables in *. simpl. destruct Hin as [->|Hin].
  - lia.
  - specialize (IH Hin). specialize (Hc h' y). lia.
Qed.

Lemma kidTables_one (m m' : HPYPModel) hs y n :
  List.NoDup hs ->
  (forall h, h <> n -> getTw (payloadOf m' h) y = getTw (payloadOf m h) y) ->
  kidTables m' hs y
  = kidTables m hs y
    + (if in_dec Nat.eq_dec n hs
       then getTw (payloadOf m' n) y - getTw (payloadOf m n) y else 0).
Proof.
  intros Hnd Hoth. induction hs as [|h hs IH]; [reflexivity|].
  inversion Hnd as [|? ? Hnin Hnd']; subst.
  unfold kidTables in *. simpl. rewrite IH by assumption.
  destruct (Nat.eq_dec h n) as [->|Hne].
  - destruct (in_dec Nat.eq_dec n hs) as [Hin|_]; [contradiction|].
    destruct (in_dec Nat.eq_dec n (n :: hs)) as [_|Hno];
      [lia|exfalso; apply Hno; left; reflexivity].
  - rewrite (Hoth h Hne).
    destruct (in_dec Nat.eq_dec n hs) as [Hin|Hnin'];
    destruct (in_dec Nat.eq_dec n (h :: hs)) as [Hin'|Hnin''].
    + lia.
    + exfalso. apply Hnin''. right. exact Hin.
    + destruct Hin' as [->|Hin']; [congruence|contradiction].
    + lia.
Qed.

Lemma slack_withRest (m : HPYPModel) n s' g' h y :
  slack children (withRest m n s' g') h y
  = slack children m h y
    + (if Nat.eq_dec h n then getCw s' y - getCw (payloadOf m n) y else 0)
    - (if in_dec Nat.eq_dec n (children h)
       then getTw s' y - getTw (payloadOf m n) y else 0).
Proof.
  unfold slack.
  rewrite (kidTables_one m (withRest m n s' g') (children h) y n)
    by (auto; intros h' Hne; rewrite payloadOf_withRest_ne by exact Hne;
        reflexivity).
  rewrite payloadOf_withRest_eq.
  destruct (Nat.eq_dec h n) as [->|Hne].
  - rewrite payloadOf_withRest_eq. lia.
  - rewrite payloadOf_withRest_ne by exact Hne. lia.
Qed.

Lemma hierConsistent_slack (m : HPYPModel) :
  hierConsistent children m <-> forall h y, 0 <= slack children m h y.
Proof.
  unfold hierConsistent, slack. split; intros H h y; specialize (H h y); lia.
Qed.

Lemma forTw_preserves (P : Vecs -> Prop) (body : Z -> Vecs -> Vecs) tw n v :
  (forall tw v, P v -> P (body tw v)) -> P v -> P (forTw body tw n v).
Proof.
  intros Hb. revert tw v. induction n as [|n IH]; intros tw v Hv; simpl;
    [exact Hv|]. apply IH, Hb, Hv.
Qed.

Lemma length_subMax_vec (v : list R) : length (subMax_vec v) = length v.
Proof. unfold subMax_vec. destruct v; [reflexivity|]. apply length_map. Qed.

(** The sampler is handed one weight per candidate [tw = 1 .. c(node, y)]. *)
Lemma levelWeights_length (m : HPYPModel) path d a bp y j :
  length (levelWeights m path d a bp y j)
  = Z.to_nat (getCw (payloadOf m (payload (nth j path noNode))) y).
Proof.
  unfold levelWeights. cbv zeta.
  set (n := Z.to_nat (getCw (payloadOf m (payload (nth j path noNode))) y)).
  set (P := fun v : Vecs => let '(l1, l2, l3, l4) := v in
     length l1 = n /\ length l2 = n /\ length l3 = n /\ length l4 = n).
  assert (Hc : forall v, P v -> length (combineWeights (repeat r0 n) v) = n).
  { intros [[[l1 l2] l3] l4] (H1 & H2 & H3 & H4). unfold combineWeights,
      exp_vec, add_vec.
    rewrite length_map, length_subMax_vec, !length_zip_with,
      !length_subMax_vec, repeat_length, H1, H2, H3, H4. lia. }
  assert (H0 : P (repeat r0 n, repeat r0 n, repeat r0 n, repeat r0 n)).
  { simpl. rewrite repeat_length. auto. }
  destruct j as [|jp]; apply Hc; apply forTw_preserves; try exact H0;
    intros tw [[[l1 l2] l3] l4] (H1 & H2 & H3 & H4);
    unfold bodyNonRoot, bodyRoot; cbv zeta;
    [|destruct (_ - _ + tw <? _)]; simpl; rewrite ?length_insert; auto.
Qed.

(** One restaurant replaced: the consistency of the others is kept and the
    slack moves by the changes of [c] at the node and of [t] below its
    parent. *)
Lemma seat_step (m : HPYPModel) n s' g' y (dc dt : Z) :
  nodesConsistent m -> restConsistent s' ->
  getCw s' y = getCw (payloadOf m n) y + dc ->
  getTw s' y = getTw (payloadOf m n) y + dt ->
  (forall y', y' <> y -> getCw s' y' = getCw (payloadOf m n) y' /\
                         getTw s' y' = getTw (payloadOf m n) y') ->
  nodesConsistent (withRest m n s' g') /\
  (forall h y', slack children (withRest m n s' g') h y'
     = slack children m h y'
       + (if Nat.eq_dec h n then (if Z.eq_dec y' y then dc else 0) else 0)
       - (if in_dec Nat.eq_dec n (children h)
          then (if Z.eq_dec y' y then dt else 0) else 0)) /\
  (forall y', getCw (payloadOf (withRest m n s' g') n) y'
     = getCw (payloadOf m n) y' + (if Z.eq_dec y' y then dc else 0)) /\
  (forall h, h <> n -> payloadOf (withRest m n s' g') h = payloadOf m h).
Proof.
  intros Hc Hs Hcy Hty Ho. split; [|split; [|split]].
  - intros h. destruct (Nat.eq_dec h n) as [->|Hne].
    + rewrite payloadOf_withRest_eq. exact Hs.
    + rewrite payloadOf_withRest_ne by exact Hne. apply Hc.
  - intros h y'. rewrite slack_withRest.
    destruct (Z.eq_dec y' y) as [->|Hne].
    + rewrite Hcy, Hty.
      destruct (Nat.eq_dec h n), (in_dec Nat.eq_dec n (children h)); lia.
    + destruct (Ho y' Hne) as [A B]. rewrite A, B.
      destruct (Nat.eq_dec h n), (in_dec Nat.eq_dec n (children h)); lia.
  - intros y'. rewrite payloadOf_withRest_eq.
    destruct (Z.eq_dec y' y) as [->|Hne]; [lia|].
    rewrite (proj1 (Ho y' Hne)). lia.
  - intros h Hne. apply payloadOf_withRest_ne, Hne.
Qed.

Lemma fold_left_outcome_inv {B} (Inv : HPYPModel -> Prop)
    (f : HPYPModel -> B -> Outcome HPYPModel) (l : list B) (x x' : HPYPModel) :
  (forall z b z', In b l -> Inv z -> f z b = Ok z' -> Inv z') ->
  Inv x ->
  fold_left (fun acc b => obind acc (fun z => f z b)) l (Ok x) = Ok x' ->
  Inv x'.
Proof.
  intros Hstep. revert x. induction l as [|b l IH]; intros x Hx Hf.
  - simpl in Hf. injection Hf as <-. exact Hx.
  - simpl in Hf. destruct (f x b) as [z|e] eqn:E.
    + apply (IH (fun z b z' Hin => Hstep z b z' (or_intror Hin)) z);
        [|exact Hf]. exact (Hstep x b z (or_introl eq_refl) Hx E).
    + rewrite fold_left_outcome_crash in Hf. discriminate.
Qed.

Lemma last_as_nth {A} (l : list A) (x : A) :
  List.last l x = nth (length l - 1) l x.
Proof.
  assert (Hc : forall l b, List.last (b :: l) x = nth (length l) (b :: l) x).
  { clear l. intros l. induction l as [|c l IH]; intros b; [reflexivity|].
    change (List.last (c :: l) x = nth (length l) (c :: l) x). apply IH. }
  destruct l as [|b l]; [reflexivity|].
  replace (length (b :: l) - 1)%nat with (length l) by (simpl; lia).
  apply Hc.
Qed.

Section OnePath.

Variable path : list WrappedNode.
Hypothesis HpNoDup : List.NoDup (map payload path).
Hypothesis HpRoot : forall h, ~ In (payload (nth 0 path noNode)) (children h).
Hypothesis HpStep : forall j, (S j < length path)%nat ->
  In (payload (nth (S j) path noNode)) (children (payload (nth j path noNode))).

Lemma path_payload_inj (i j : nat) :
  (i < length path)%nat -> (j < length path)%nat ->
  payload (nth i path noNode) = payload (nth j path noNode) -> i = j.
Proof.
  intros Hi Hj E. apply (proj1 (NoDup_nth (map payload path) 0%nat) HpNoDup);
    rewrite ?length_map; try assumption.
  change 0%nat with (payload noNode). rewrite !map_nth. exact E.
Qed.

Lemma path_parent (j : nat) h :
  (S j < length path)%nat ->
  In (payload (nth (S j) path noNode)) (children h) <->
  h = payload (nth j path noNode).
Proof.
  intros Hj. split.
  - intros Hin. eapply HkidsParent; [exact Hin|]. apply HpStep, Hj.
  - intros ->. apply HpStep, Hj.
Qed.

Lemma slack_step (m : HPYPModel) n s' g' y (dc dt : Z) h y' :
  getCw s' y = getCw (payloadOf m n) y + dc ->
  getTw s' y = getTw (payloadOf m n) y + dt ->
  (forall y'', y'' <> y -> getCw s' y'' = getCw (payloadOf m n) y'' /\
                           getTw s' y'' = getTw (payloadOf m n) y'') ->
  slack children (withRest m n s' g') h y'
  = slack children m h y'
    + (if Nat.eq_dec h n then (if Z.eq_dec y' y then dc else 0) else 0)
    - (if in_dec Nat.eq_dec n (children h)
       then (if Z.eq_dec y' y then dt else 0) else 0).
Proof.
  intros Hc Ht Ho. rewrite slack_withRest.
  destruct (Z.eq_dec y' y) as [->|Hne].
  - rewrite Hc, Ht. destruct (Nat.eq_dec h n), (in_dec Nat.eq_dec n (children h));
      lia.
  - destruct (Ho y' Hne) as [A B]. rewrite A, B.
    destruct (Nat.eq_dec h n), (in_dec Nat.eq_dec n (children h)); lia.
Qed.

Lemma gibbsLevel_keeps (Hset : settersExact) (Hsam : samplerInRange)
    (m : HPYPModel) d a pdp bp y j m1 moved :
  (j < length path)%nat -> nodesConsistent m ->
  (forall h y', 0 <= slack children m h y') ->
  1 <= getCw (payloadOf m (payload (nth j path noNode))) y ->
  gibbsLevel m path d a pdp bp y j = Ok (m1, moved) ->
  nodesConsistent m1 /\
  (forall h y', slack children m1 h y' = slack children m h y') /\
  (forall y', getCw (payloadOf m1 (payload (nth j path noNode))) y'
              = getCw (payloadOf m (payload (nth j path noNode))) y').
Proof.
  intros Hj Hcons Hslack Hcw Hok.
  destruct Hset as (HtT & HcT & HcC & HtC).
  pose proof (levelWeights_length m path d a bp y j) as Hlen.
  unfold gibbsLevel in Hok.
  destruct (vecAt pdp j) as [gen|f]; [|discriminate]. cbn [obind] in Hok.
  set (cur := payload (nth j path noNode)) in *.
  pose proof (Hsam (rng m) (levelWeights m path d a bp y j)) as Hs.
  destruct (sample_unnormalized_pdf (rng m) (levelWeights m path d a bp y j))
    as [k g'] eqn:Hk.
  assert (Hrange : 1 <= Z.of_nat k + 1 <= getCw (payloadOf m cur) y).
  { assert (Hne : levelWeights m path d a bp y j <> []).
    { intros E. rewrite E in Hlen. simpl in Hlen. lia. }
    specialize (Hs Hne). simpl in Hs. lia. }
  pose proof (Hcons cur) as Hsc.
  destruct j as [|jp].
  - injection Hok as <- _. split; [|split].
    + intros h. destruct (Nat.eq_dec h cur) as [->|Hne].
      * rewrite payloadOf_withRest_eq. intros y'. rewrite HtT, HcT.
        specialize (Hsc y'). destruct (Z.eqb_spec y' y) as [->|]; lia.
      * rewrite payloadOf_withRest_ne by exact Hne. apply Hcons.
    + intros h y'. rewrite slack_withRest, HcT.
      destruct (in_dec Nat.eq_dec cur (children h)) as [Hin|_];
        [exfalso; exact (HpRoot h Hin)|].
      destruct (Nat.eq_dec h cur); lia.
    + intros y'. rewrite payloadOf_withRest_eq, HcT. reflexivity.
  - set (par := payload (nth jp path noNode)) in *.
    assert (Hne : cur <> par).
    { intros E. apply path_payload_inj in E; lia. }
    assert (Hkid : In cur (children par)) by (apply HpStep; exact Hj).
    rewrite payloadOf_withRest_ne in Hok by congruence.
    cbn [obind assert_] in Hok.
    destruct (getTw (payloadOf m par) y
              <=? getCw (payloadOf m par) y - getTw (payloadOf m cur) y + (Z.of_nat k + 1))
      eqn:Hle; [|discriminate].
    apply Z.leb_le in Hle. cbn [obind] in Hok. injection Hok as <- _.
    pose proof (Hcons par) as Hpc.
    assert (HtP : 1 <= getTw (payloadOf m par) y).
    { pose proof (Hslack par y) as H1. unfold slack in H1.
      pose proof (kidTables_ge m (children par) y cur Hcons Hkid) as H2.
       specialize (Hsc y). specialize (Hpc y). lia. }
    split; [|split].
    + intros h. destruct (Nat.eq_dec h par) as [->|Hnp].
      * rewrite payloadOf_withRest_eq. intros y'. rewrite HtC, HcC.
        specialize (Hpc y'). destruct (Z.eqb_spec y' y) as [->|]; lia.
      * rewrite payloadOf_withRest_ne by exact Hnp.
        destruct (Nat.eq_dec h cur) as [->|Hnc].
        -- rewrite payloadOf_withRest_eq. intros y'. rewrite HtT, HcT.
           specialize (Hsc y'). destruct (Z.eqb_spec y' y) as [->|]; lia.
        -- rewrite payloadOf_withRest_ne by exact Hnc. apply Hcons.
    + intros h y'. rewrite !slack_withRest.
      rewrite payloadOf_withRest_ne by congruence.
      rewrite HcC, HtC, HtT, HcT.
      destruct (in_dec Nat.eq_dec cur (children h)) as [Hin|Hnin].
      * assert (h = par) as ->.
        { apply (path_parent jp h Hj) in Hin. exact Hin. }
        destruct (Nat.eq_dec par par) as [_|]; [|congruence].
        destruct (Nat.eq_dec par cur) as [|_]; [congruence|].
        destruct (in_dec Nat.eq_dec par (children par)), (Z.eqb_spec y' y) as [->|]; lia.
      * destruct (Nat.eq_dec h par) as [->|_]; [contradiction|].
        destruct (in_dec Nat.eq_dec par (children h)), (Nat.eq_dec h cur),
          (Z.eqb_spec y' y) as [->|]; lia.
    + intros y'. rewrite payloadOf_withRest_ne by congruence.
      rewrite payloadOf_withRest_eq, HcT. reflexivity.
Qed.

Lemma arRemove_keeps (Hseat : seatingExact) (m : HPYPModel) d pdp useAD y j :
  (j < length path)%nat -> nodesConsistent m ->
  1 <= getCw (payloadOf m (payload (nth j path noNode))) y ->
  (forall i, (i < j)%nat ->
     0 <= slack children m (payload (nth i path noNode)) y) ->
  nodesConsistent (fst (arRemove m path d pdp useAD y j)) /\
  (forall h y', slack children (fst (arRemove m path d pdp useAD y j)) h y'
     = slack children m h y'
       - (if Nat.eq_dec h (payload (nth j path noNode))
          then (if Z.eq_dec y' y then 1 else 0) else 0)) /\
  (forall y', getCw (payloadOf (fst (arRemove m path d pdp useAD y j))
                       (payload (nth j path noNode))) y'
     = getCw (payloadOf m (payload (nth j path noNode))) y'
       - (if Z.eq_dec y' y then 1 else 0)) /\
  (forall h, (forall i, (i <= j)%nat -> h <> payload (nth i path noNode)) ->
     payloadOf (fst (arRemove m path d pdp useAD y j)) h = payloadOf m h).
Proof.
  destruct Hseat as [_ Hrem].
  revert m. induction j as [|j IH]; intros m Hj Hc Hcw Hsl; cbn [arRemove].
  - set (n := payload (nth 0 path noNode)) in *.
    destruct (removeCustomer _ _ _ _ _ _) as [[f s'] g'] eqn:E.
    destruct (Hrem _ _ _ _ _ _ _ _ _ E (Hc n) Hcw) as (Hs'c & Hcy & Hty & Hoth).
    destruct (seat_step m n s' g' y (-1) (- (if req0 f then 0 else 1))
                Hc Hs'c ltac:(lia) ltac:(lia) Hoth) as (F1 & F2 & F3 & F4).
    assert (Hgoal : forall z : Z, fst (withRest m n s' g', z) = withRest m n s' g')
      by reflexivity.
    destruct (req0 f); rewrite Hgoal; (split; [exact F1|split; [|split]]).
    all: try (intros h y'; rewrite F2;
              destruct (in_dec Nat.eq_dec n (children h)) as [Hin|_];
              [exfalso; exact (HpRoot h Hin)|];
              destruct (Nat.eq_dec h n), (Z.eq_dec y' y); lia).
    all: try (intros y'; rewrite F3; destruct (Z.eq_dec y' y); lia).
    all: intros h Hh; apply F4, (Hh 0%nat); lia.
  - set (n := payload (nth (S j) path noNode)) in *.
    set (p := payload (nth j path noNode)).
    destruct (removeCustomer _ _ _ _ _ _) as [[f s'] g'] eqn:E.
    destruct (Hrem _ _ _ _ _ _ _ _ _ E (Hc n) Hcw) as (Hs'c & Hcy & Hty & Hoth).
    assert (Hpn : p <> n).
    { intros Ee. apply path_payload_inj in Ee; lia. }
    assert (Hkid : In n (children p)) by (apply HpStep; exact Hj).
    assert (Hpar : forall h, In n (children h) <-> h = p)
      by (intros h; apply path_parent; exact Hj).
    assert (Hoff : forall i, (i <= j)%nat -> n <> payload (nth i path noNode)).
    { intros i Hi Ee. apply path_payload_inj in Ee; lia. }
    destruct (req0 f) eqn:Ef.
    + destruct (seat_step m n s' g' y (-1) 0 Hc Hs'c ltac:(lia) ltac:(lia) Hoth)
        as (F1 & F2 & F3 & F4).
      cbn [fst]. split; [exact F1|split; [|split]].
      * intros h y'. rewrite F2.
        destruct (in_dec Nat.eq_dec n (children h)), (Nat.eq_dec h n),
          (Z.eq_dec y' y); lia.
      * intros y'. rewrite F3. destruct (Z.eq_dec y' y); lia.
      * intros h Hh. apply F4, (Hh (S j)). lia.
    + destruct (seat_step m n s' g' y (-1) (-1) Hc Hs'c ltac:(lia) ltac:(lia) Hoth)
        as (F1 & F2 & F3 & F4).
      assert (HtN : 1 <= getTw (payloadOf m n) y)
        by (specialize (Hs'c y); lia).
      destruct (IH (withRest m n s' g') ltac:(lia) F1) as (G1 & G2 & G3 & G4).
      { fold p. rewrite F4 by exact Hpn.
        pose proof (Hsl j ltac:(lia)) as H1. fold p in H1. unfold slack in H1.
        pose proof (kidTables_ge m (children p) y n Hc Hkid). lia. }
      { intros i Hi. rewrite F2.
        destruct (Nat.eq_dec (payload (nth i path noNode)) n) as [Ee|_].
        { exfalso. apply path_payload_inj in Ee; lia. }
        destruct (in_dec Nat.eq_dec n (children (payload (nth i path noNode))))
          as [Hin|_].
        { exfalso. apply Hpar in Hin. apply path_payload_inj in Hin; lia. }
        pose proof (Hsl i ltac:(lia)). lia. }
      split; [exact G1|split; [|split]].
      * intros h y'. rewrite G2, F2. fold p.
        destruct (in_dec Nat.eq_dec n (children h)) as [Hin|Hnin].
        -- apply Hpar in Hin. subst h.
           destruct (Nat.eq_dec p p) as [_|]; [|congruence].
           destruct (Nat.eq_dec p n) as [|_]; [congruence|].
           destruct (Z.eq_dec y' y); lia.
        -- destruct (Nat.eq_dec h p) as [Ee|_].
           { exfalso. apply Hnin, Hpar, Ee. }
           destruct (Nat.eq_dec h n), (Z.eq_dec y' y); lia.
      * intros y'. rewrite G4 by exact Hoff. rewrite F3.
        destruct (Z.eq_dec y' y); lia.
      * intros h Hh. rewrite G4 by (intros i Hi; apply Hh; lia).
        apply F4, (Hh (S j)). lia.
Qed.

Lemma arAdd_keeps (Hseat : seatingExact) (m : HPYPModel) pp d a pdp useAD y j :
  (j < length path)%nat -> nodesConsistent m ->
  nodesConsistent (arAdd m path pp d a pdp useAD y j) /\
  (forall h y', slack children (arAdd m path pp d a pdp useAD y j) h y'
     = slack children m h y'
       + (if Nat.eq_dec h (payload (nth j path noNode))
          then (if Z.eq_dec y' y then 1 else 0) else 0)) /\
  (forall y', getCw (payloadOf (arAdd m path pp d a pdp useAD y j)
                       (payload (nth j path noNode))) y'
     = getCw (payloadOf m (payload (nth j path noNode))) y'
       + (if Z.eq_dec y' y then 1 else 0)) /\
  (forall h, (forall i, (i <= j)%nat -> h <> payload (nth i path noNode)) ->
     payloadOf (arAdd m path pp d a pdp useAD y j) h = payloadOf m h).
Proof.
  destruct Hseat as [Hadd _].
  revert m. induction j as [|j IH]; intros m Hj Hc; cbn [arAdd].
  - set (n := payload (nth 0 path noNode)) in *.
    destruct (addCustomer _ _ _ _ _ _ _ _) as [[f s'] g'] eqn:E.
    destruct (Hadd _ _ _ _ _ _ _ _ _ _ _ E (Hc n)) as (Hs'c & Hcy & Hty & Hoth).
    destruct (seat_step m n s' g' y 1 (if req0 f then 0 else 1)
                Hc Hs'c ltac:(lia) ltac:(lia) Hoth) as (F1 & F2 & F3 & F4).
    destruct (req0 f); (split; [exact F1|split; [|split]]).
    all: try (intros h y'; rewrite F2;
              destruct (in_dec Nat.eq_dec n (children h)) as [Hin|_];
              [exfalso; exact (HpRoot h Hin)|];
              destruct (Nat.eq_dec h n), (Z.eq_dec y' y); lia).
    all: try (intros y'; rewrite F3; destruct (Z.eq_dec y' y); lia).
    all: intros h Hh; apply F4, (Hh 0%nat); lia.
  - set (n := payload (nth (S j) path noNode)) in *.
    set (p := payload (nth j path noNode)).
    destruct (addCustomer _ _ _ _ _ _ _ _) as [[f s'] g'] eqn:E.
    destruct (Hadd _ _ _ _ _ _ _ _ _ _ _ E (Hc n)) as (Hs'c & Hcy & Hty & Hoth).
    assert (Hpar : forall h, In n (children h) <-> h = p)
      by (intros h; apply path_parent; exact Hj).
    assert (Hoff : forall i, (i <= j)%nat -> n <> payload (nth i path noNode)).
    { intros i Hi Ee. apply path_payload_inj in Ee; lia. }
    destruct (req0 f) eqn:Ef.
    + destruct (seat_step m n s' g' y 1 0 Hc Hs'c ltac:(lia) ltac:(lia) Hoth)
        as (F1 & F2 & F3 & F4).
      split; [exact F1|split; [|split]].
      * intros h y'. rewrite F2.
        destruct (in_dec Nat.eq_dec n (children h)), (Nat.eq_dec h n),
          (Z.eq_dec y' y); lia.
      * intros y'. rewrite F3. destruct (Z.eq_dec y' y); lia.
      * intros h Hh. apply F4, (Hh (S j)). lia.
    + destruct (seat_step m n s' g' y 1 1 Hc Hs'c ltac:(lia) ltac:(lia) Hoth)
        as (F1 & F2 & F3 & F4).
      destruct (IH (withRest m n s' g') ltac:(lia) F1) as (G1 & G2 & G3 & G4).
      split; [exact G1|split; [|split]].
      * intros h y'. rewrite G2, F2. fold p.
        destruct (in_dec Nat.eq_dec n (children h)) as [Hin|Hnin].
        -- apply Hpar in Hin. subst h.
           destruct (Nat.eq_dec p p) as [_|]; [|congruence].
           destruct (Nat.eq_dec p n) as [Ee|_].
           { exfalso. apply (Hoff j); [lia|]. symmetry. exact Ee. }
           destruct (Z.eq_dec y' y); lia.
        -- destruct (Nat.eq_dec h p) as [Ee|_].
           { exfalso. apply Hnin, Hpar, Ee. }
           destruct (Nat.eq_dec h n), (Z.eq_dec y' y); lia.
      * intros y'. rewrite G4 by exact Hoff. rewrite F3.
        destruct (Z.eq_dec y' y); lia.
      * intros h Hh. rewrite G4 by (intros i Hi; apply Hh; lia).
        apply F4, (Hh (S j)). lia.
Qed.

(** One customer of type [y] moved from the top of the path to wherever
    [arAdd] seats it: the slacks and [c] at the top are restored. *)
Lemma arCustomer_keeps (Hseat : seatingExact) (m : HPYPModel) d a pdp useAD y
    pp :
  (length d - 1 < length path)%nat -> nodesConsistent m ->
  (forall h y', 0 <= slack children m h y') ->
  1 <= getCw (payloadOf m (payload (nth (length d - 1) path noNode))) y ->
  nodesConsistent (fst (arCustomer m path d a pdp useAD y pp)) /\
  (forall h y', slack children (fst (arCustomer m path d a pdp useAD y pp)) h y'
                = slack children m h y') /\
  (forall y', getCw (payloadOf (fst (arCustomer m path d a pdp useAD y pp))
                       (payload (nth (length d - 1) path noNode))) y'
              = getCw (payloadOf m (payload (nth (length d - 1) path noNode))) y').
Proof.
  intros Htop Hc Hsl Hcw. unfold arCustomer.
  set (top := (length d - 1)%nat) in *.
  destruct (arRemove_keeps Hseat m d pdp useAD y top Htop Hc Hcw
              (fun i _ => Hsl _ y)) as (R1 & R2 & R3 & _).
  destruct (arRemove m path d pdp useAD y top) as [m1 js]. cbn [fst] in R1, R2, R3.
  cbv beta iota zeta. cbn [fst].
  destruct (arAdd_keeps Hseat m1 (arRecompute m1 path d a y (Z.to_nat (Z.max js 0))
              (length pp - 1 - Z.to_nat (Z.max js 0)) pp) d a pdp useAD y top
              Htop R1) as (A1 & A2 & A3 & _).
  split; [exact A1|split].
  - intros h y'. rewrite A2, R2.
    destruct (Nat.eq_dec h (payload (nth top path noNode))), (Z.eq_dec y' y); lia.
  - intros y'. rewrite A3, R3. destruct (Z.eq_dec y' y); lia.
Qed.

Lemma arCustomers_keeps (Hseat : seatingExact) (m : HPYPModel) d a pdp useAD y
    pp n :
  (length d - 1 < length path)%nat -> nodesConsistent m ->
  (forall h y', 0 <= slack children m h y') ->
  1 <= getCw (payloadOf m (payload (nth (length d - 1) path noNode))) y ->
  nodesConsistent (arCustomers m path d a pdp useAD y pp n) /\
  (forall h y', slack children (arCustomers m path d a pdp useAD y pp n) h y'
                = slack children m h y').
Proof.
  revert m pp. induction n as [|n IH]; intros m pp Htop Hc Hsl Hcw;
    cbn [arCustomers]; [split; auto|].
  destruct (arCustomer_keeps Hseat m d a pdp useAD y pp Htop Hc Hsl Hcw)
    as (C1 & C2 & C3).
  destruct (arCustomer m path d a pdp useAD y pp) as [m1 pp1].
  cbn [fst] in C1, C2, C3. cbv beta iota.
  destruct (IH m1 pp1 Htop C1) as [I1 I2].
  - intros h y'. rewrite C2. apply Hsl.
  - rewrite C3. exact Hcw.
  - split; [exact I1|]. intros h y'. rewrite I2. apply C2.
Qed.

Lemma back_as_top (d a : list R) :
  alignedPath path d a ->
  payload (back path) = payload (nth (length d - 1) path noNode).
Proof.
  intros (_ & Hd & _). unfold back. rewrite last_as_nth, Hd. reflexivity.
Qed.

Lemma addRemoveSamplePath_keeps (Hseat : seatingExact) (m : HPYPModel) d a pdp
    bp m' :
  nodesConsistent m -> hierConsistent children m ->
  addRemoveSamplePath m path d a pdp bp = Ok m' ->
  nodesConsistent m' /\ (forall h y, slack children m' h y = slack children m h y).
Proof.
  intros Hc Hh Hok. unfold addRemoveSamplePath in Hok.
  destruct (pathAsserts_cases path d a) as [[E Hal]|[E _]]; rewrite E in Hok;
    [|discriminate].
  cbn [obind] in Hok. cbv zeta in Hok.
  pose proof (aligned_top path d a Hal) as Htop.
  rewrite (back_as_top d a Hal) in Hok.
  rewrite hierConsistent_slack in Hh.
  eapply (fold_left_outcome_inv (fun x => nodesConsistent x /\
            forall h y, slack children x h y = slack children m h y));
    [|split; [exact Hc|intros; reflexivity]|exact Hok].
  intros z y z' _ (Hz & Hzs) Hf. cbv beta in Hf.
  destruct (_ =? 1); [injection Hf as <-; auto|].
  injection Hf as <-.
  destruct (Z_le_gt_dec 1 (getCw (payloadOf z (payload (nth (length d - 1) path
              noNode))) y)) as [Hcw|Hcw].
  - destruct (arCustomers_keeps Hseat z d a pdp (length pdp =? length path)%nat y
                (computeProbabilityPath z path d a y)
                (Z.to_nat (getCw (payloadOf z (payload (nth (length d - 1) path
                   noNode))) y)) Htop Hz
                ltac:(intros h y'; rewrite Hzs; apply Hh) Hcw) as [K1 K2].
    split; [exact K1|]. intros h y'. rewrite K2. apply Hzs.
  - replace (Z.to_nat _) with 0%nat by lia. cbn [arCustomers]. auto.
Qed.

Lemma directGibbsSamplePath_keeps (Hset : settersExact) (Hsam : samplerInRange)
    (Hts : typesSeated) (m : HPYPModel) d a pdp bp m' :
  nodesConsistent m -> hierConsistent children m ->
  directGibbsSamplePath m path d a pdp bp = Ok m' ->
  nodesConsistent m' /\ (forall h y, slack children m' h y = slack children m h y).
Proof.
  intros Hc Hh Hok. unfold directGibbsSamplePath in Hok.
  destruct (pathAsserts_cases path d a) as [[E Hal]|[E _]]; rewrite E in Hok;
    [|discriminate].
  cbn [obind] in Hok. cbv zeta in Hok.
  pose proof (aligned_top path d a Hal) as Htop.
  rewrite (back_as_top d a Hal) in Hok.
  rewrite hierConsistent_slack in Hh.
  set (main := payload (nth (length d - 1) path noNode)) in *.
  cut (nodesConsistent m' /\
       (forall h y, slack children m' h y = slack children m h y) /\
       (forall y, getCw (payloadOf m' main) y = getCw (payloadOf m main) y));
    [tauto|].
  eapply (fold_left_outcome_inv (fun x => nodesConsistent x /\
            (forall h y, slack children x h y = slack children m h y) /\
            (forall y, getCw (payloadOf x main) y = getCw (payloadOf m main) y)));
    [|split; [exact Hc|split; intros; reflexivity]|exact Hok].
  intros z y z' Hin (Hz & Hzs & Hzm) Hf. cbv beta in Hf.
  destruct (_ =? 1); [injection Hf as <-; auto|].
  rewrite gibbsWalk_once in Hf.
  destruct (gibbsLevel z path d a pdp bp y (length d - 1)) as [[z1 mv]|f] eqn:Ez;
    [|discriminate].
  cbn [obind] in Hf. injection Hf as <-.
  destruct (gibbsLevel_keeps Hset Hsam z d a pdp bp y (length d - 1) z1 mv Htop Hz)
    as (K1 & K2 & K3).
  - intros h y'. rewrite Hzs. apply Hh.
  - fold main. rewrite Hzm. apply restConsistent_c_pos; [apply Hc|].
    apply Hts, Hin.
  - exact Ez.
  - split; [exact K1|split].
    + intros h y'. rewrite K2. apply Hzs.
    + intros y'. rewrite K3. apply Hzm.
Qed.

End OnePath.

End InvariantProofs.

Section SweepInvariant.

Context {N : Num} {Rs : Restaurant} {CT : ContextTree} {Ps : Parameters}.

Lemma sweepLoop_inv (Inv : HPYPModel -> Prop) (dg : bool)
    (P : list (list WrappedNode)) :
  (forall x p d a pdp x', In p P -> Inv x ->
     sampleWith dg x p d a pdp = Ok x' -> Inv x') ->
  forall rest x d a pdp L x', incl rest P -> Inv x ->
  sweepLoop dg x rest d a pdp L = Ok x' -> Inv x'.
Proof.
  intros Hstep rest. induction rest as [|p rest IH];
    intros x d a pdp L x' Hincl Hx Hrun; cbn [sweepLoop] in Hrun.
  - injection Hrun as <-. exact Hx.
  - destruct (length p =? 0)%nat; [injection Hrun as <-; exact Hx|].
    destruct (advance x p L d a pdp) as [[[d' a'] pdp']|f]; [|discriminate].
    cbn [obind] in Hrun.
    destruct (sampleWith dg x p d' a' pdp') as [x1|f] eqn:E; [|discriminate].
    cbn [obind] in Hrun.
    apply (IH x1 d' a' pdp' (length p) x'); [| |exact Hrun].
    + intros q Hq. apply Hincl. right. exact Hq.
    + apply (Hstep x p d' a' pdp' x1); [apply Hincl; left; reflexivity|exact Hx|exact E].
Qed.

(** A property kept by the sampling of every path of the DFS traversal is
    kept by the sweep. *)
Lemma runGibbsSampler_inv (Inv : HPYPModel -> Prop) (dg : bool)
    (m m' : HPYPModel) :
  (forall x p d a pdp x', In p (dfsPaths (tree m)) -> Inv x ->
     sampleWith dg x p d a pdp = Ok x' -> Inv x') ->
  Inv m -> runGibbsSampler m dg = Ok m' -> Inv m'.
Proof.
  intros Hstep Hm Hrun. unfold runGibbsSampler in Hrun. cbv zeta in Hrun.
  revert Hstep Hrun. destruct (dfsPaths (tree m)) as [|p rest];
    intros Hstep Hrun; cbn [hd tl] in Hrun.
  - destruct (initPaths m []) as [[d a] pdp].
    unfold sampleWith, directGibbsSamplePath, addRemoveSamplePath, pathAsserts
      in Hrun.
    destruct dg; simpl in Hrun; discriminate.
  - destruct (initPaths m p) as [[d a] pdp].
    destruct (sampleWith dg m p d a pdp) as [m1|f] eqn:E; [|discriminate].
    cbn [obind] in Hrun.
    apply (sweepLoop_inv Inv dg (p :: rest) Hstep rest m1 d a pdp (length p) m').
    + intros q Hq. right. exact Hq.
    + apply (Hstep m p d a pdp m1); [left; reflexivity|exact Hm|exact E].
    + exact Hrun.
Qed.

(** C4 (corrected): with a child relation that is a tree matching the paths
    of the DFS traversal (each path runs from a root down the relation and
    visits distinct restaurants), a full sweep keeps every restaurant
    consistent ([0 <= t(y) <= c(y)], [t(y) >= 1] iff [c(y) >= 1]) and keeps
    the hierarchy consistent ([c(P,y)] at least the tables of [y] of the
    children of [P]): the direct sampler when the setters write exactly the
    entry they name, the type vector lists seated types and the sampler draws
    an index of its vector; the add/remove sampler when seating and unseating
    keep a restaurant consistent and move [c(y)] by one and [t(y)] as the
    returned fraction says. *)
Theorem runGibbsSampler_keeps_consistency (children : nat -> list nat) :
  (settersExact -> typesSeated -> samplerInRange ->
   forall m m', treeShaped children (dfsPaths (tree m)) ->
   nodesConsistent m -> hierConsistent children m ->
   runGibbsSampler m true = Ok m' ->
   nodesConsistent m' /\ hierConsistent children m') /\
  (seatingExact ->
   forall m m', treeShaped children (dfsPaths (tree m)) ->
   nodesConsistent m -> hierConsistent children m ->
   runGibbsSampler m false = Ok m' ->
   nodesConsistent m' /\ hierConsistent children m').
Proof.
  split.
  - intros Hset Hts Hsam m m' (Hnd & Hpar & Hpaths) Hc Hh Hrun.
    apply (runGibbsSampler_inv (fun x => nodesConsistent x /\
             hierConsistent children x) true m m'); [|split; assumption|exact Hrun].
    intros x p d a pdp x' Hin [Hx Hhx] Hs.
    rewrite List.Forall_forall in Hpaths. destruct (Hpaths p Hin) as (HpND & HpR & HpS).
    unfold sampleWith in Hs.
    destruct (directGibbsSamplePath_keeps children Hnd Hpar p HpND HpR HpS Hset
                Hsam Hts x d a pdp (baseProb x) x' Hx Hhx Hs) as [K1 K2].
    split; [exact K1|]. rewrite hierConsistent_slack. intros h y. rewrite K2.
    revert h y. rewrite <- hierConsistent_slack. exact Hhx.
  - intros Hseat m m' (Hnd & Hpar & Hpaths) Hc Hh Hrun.
    apply (runGibbsSampler_inv (fun x => nodesConsistent x /\
             hierConsistent children x) false m m'); [|split; assumption|exact Hrun].
    intros x p d a pdp x' Hin [Hx Hhx] Hs.
    rewrite List.Forall_forall in Hpaths. destruct (Hpaths p Hin) as (HpND & HpR & HpS).
    unfold sampleWith in Hs.
    destruct (addRemoveSamplePath_keeps children Hnd Hpar p HpND HpR HpS Hseat
                x d a pdp (baseProb x) x' Hx Hhx Hs) as [K1 K2].
    split; [exact K1|]. rewrite hierConsistent_slack. intros h y. rewrite K2.
    revert h y. rewrite <- hierConsistent_slack. exact Hhx.
Qed.

End SweepInvariant.

Module ToySweep.

Import Toy.

Lemma lookupE_updE_ne {V} (dflt : V) (s : list (Z * V)) (y : Z) (v : V) y' :
  y' <> y -> lookupE dflt (updE s y v) y' = lookupE dflt s y'.
Proof.
  intros Hne. induction s as [|[z w] s IH]; simpl.
  - destruct (Z.eqb_spec y y'); [congruence|reflexivity].
  - destruct (Z.eqb_spec z y) as [->|Hz]; simpl.
    + destruct (Z.eqb_spec y y'); [congruence|reflexivity].
    + rewrite IH. reflexivity.
Qed.

Lemma lookupE_updE {V} (dflt : V) (s : list (Z * V)) (y : Z) (v : V) y' :
  lookupE dflt (updE s y v) y' = if y' =? y then v else lookupE dflt s y'.
Proof.
  destruct (Z.eqb_spec y' y) as [->|Hne].
  - apply ToyRoundTrip.lookupE_updE_eq.
  - apply lookupE_updE_ne, Hne.
Qed.

Lemma KRest_settersExact : @settersExact QNum KRest.
Proof.
  unfold settersExact. cbn.
  split; [|split; [|split]]; intros s y v y'; rewrite lookupE_updE;
    destruct (Z.eqb_spec y' y) as [->|]; reflexivity.
Qed.

Lemma KRest_typesSeated : @typesSeated QNum KRest.
Proof.
  intros s y Hin. cbn in Hin |- *. apply List.filter_In in Hin as [_ Hb].
  destruct (fst (lookupE (0, 0) s y) =? 0) eqn:E; [discriminate|].
  apply Z.eqb_neq, E.
Qed.

Lemma KRest_samplerInRange : @samplerInRange QNum KRest.
Proof.
  intros g ws Hne. destruct ws as [|w ws]; [contradiction|]. cbn. lia.
Qed.

Lemma Qeq_bool_1_0 : Qeq_bool 1 0 = false.
Proof. reflexivity. Qed.

Lemma Qeq_bool_0_0 : Qeq_bool 0 0 = true.
Proof. reflexivity. Qed.

Lemma KRest_seatingExact : @seatingExact QNum KRest.
Proof.
  unfold seatingExact, restConsistent. cbn. split.
  - intros g s y pp d a ad w f s' g' E Hc.
    destruct (lookupE (0, 0) s y) as [cw tw] eqn:El.
    pose proof (Hc y) as Hy. rewrite El in Hy. cbn in Hy.
    destruct (Z.eqb_spec cw 0) as [->|Hcw]; injection E as <- <- <-.
    all: split.
    all: try (intros y'; rewrite lookupE_updE;
              destruct (Z.eqb_spec y' y) as [->|]; [cbn; lia|apply Hc]).
    all: rewrite !lookupE_updE, Z.eqb_refl, ?Qeq_bool_1_0, ?Qeq_bool_0_0; cbn.
    all: split; [lia|split; [lia|]].
    all: intros y' Hne; rewrite !lookupE_updE.
    all: destruct (Z.eqb_spec y' y); [contradiction|split; reflexivity].
  - intros g s y d ad frac f s' g' E Hc Hcy.
    destruct (lookupE (0, 0) s y) as [cw tw] eqn:El.
    pose proof (Hc y) as Hy. rewrite El in Hy. cbn in Hy, Hcy.
    destruct (Z.eqb_spec tw cw) as [->|Htw]; injection E as <- <- <-.
    all: split.
    all: try (intros y'; rewrite lookupE_updE;
              destruct (Z.eqb_spec y' y) as [->|]; [cbn; lia|apply Hc]).
    all: rewrite !lookupE_updE, Z.eqb_refl, ?Qeq_bool_1_0, ?Qeq_bool_0_0; cbn.
    all: split; [lia|split; [lia|]].
    all: intros y' Hne; rewrite !lookupE_updE.
    all: destruct (Z.eqb_spec y' y); [contradiction|split; reflexivity].
Qed.

Lemma sweep_payloads (h : nat) :
  payloadOf sweepModel h
  = match h with
    | 0%nat => [(0, (2, 1))]
    | 1%nat => [(0, (2, 2))]
    | _ => []
    end.
Proof.
  destruct h as [|[|h]]; [reflexivity|reflexivity|].
  unfold payloadOf. cbn.
  rewrite lookup_insert_ne by lia. rewrite lookup_singleton_ne by lia.
  reflexivity.
Qed.

Lemma sweep_treeShaped :
  treeShaped sweepChildren (@dfsPaths StaticTree (tree sweepModel)).
Proof.
  split; [|split].
  - intros [|h]; cbn; repeat constructor; cbn; tauto.
  - intros [|h] [|h'] c H1 H2; cbn in *; try reflexivity; tauto.
  - cbn. repeat constructor; cbn.
    + intros [].
    + intros [|[|h]]; cbn; [intros [E|[]]; discriminate|tauto|tauto].
    + intros j Hj. cbn in Hj. lia.
    + intros [E|[]]; discriminate.
    + intros [].
    + intros [|[|h]]; cbn; [intros [E|[]]; discriminate|tauto|tauto].
    + intros [|j] Hj; cbn in *; [left; reflexivity|lia].
Qed.

Lemma sweep_nodesConsistent : nodesConsistent sweepModel.
Proof.
  intros h y. rewrite sweep_payloads.
  destruct h as [|[|h]]; cbn; destruct y; cbn; lia.
Qed.

Lemma sweep_hierConsistent : hierConsistent sweepChildren sweepModel.
Proof.
  intros h y. unfold kidTables.
  destruct h as [|[|h]]; cbn [sweepChildren map fold_right];
    rewrite ?sweep_payloads; cbn; destruct y; cbn; lia.
Qed.

(** The model after a sweep of [sweepModel] in either mode. *)
Definition sweepOut (directGibbs : bool) : HPYPModel :=
  match runGibbsSampler sweepModel directGibbs with
  | Ok m' => m'
  | Crash _ => sweepModel
  end.

End ToySweep.

(** Both sweeps of the toy model keep it consistent; the hypotheses of the
    theorem hold there. *)
Lemma runGibbsSampler_keeps_consistency_witness :
  (nodesConsistent (ToySweep.sweepOut true) /\
   hierConsistent Toy.sweepChildren (ToySweep.sweepOut true)) /\
  (nodesConsistent (ToySweep.sweepOut false) /\
   hierConsistent Toy.sweepChildren (ToySweep.sweepOut false)).
Proof.
  destruct (@runGibbsSampler_keeps_consistency Toy.QNum Toy.KRest
              Toy.StaticTree (@Toy.ConstParams Toy.KRest) Toy.sweepChildren)
    as [Hd Har].
  split.
  - apply (Hd ToySweep.KRest_settersExact ToySweep.KRest_typesSeated
             ToySweep.KRest_samplerInRange Toy.sweepModel).
    + exact ToySweep.sweep_treeShaped.
    + exact ToySweep.sweep_nodesConsistent.
    + exact ToySweep.sweep_hierConsistent.
    + vm_compute. reflexivity.
  - apply (Har ToySweep.KRest_seatingExact Toy.sweepModel).
    + exact ToySweep.sweep_treeShaped.
    + exact ToySweep.sweep_nodesConsistent.
    + exact ToySweep.sweep_hierConsistent.
    + vm_compute. reflexivity.
Defined.

(** A sweep does not keep [c(root, y)]: in both modes the root of the toy
    model goes from two customers of type [0] to one, since resampling the
    child from two tables to one takes a customer from its parent. *)
Lemma runGibbsSampler_changes_root_count :
  getCw (payloadOf Toy.sweepModel 0) 0 = 2 /\
  match runGibbsSampler Toy.sweepModel true with
  | Ok m' => getCw (payloadOf m' 0) 0 = 1
  | Crash _ => False
  end /\
  match runGibbsSampler Toy.sweepModel false with
  | Ok m' => getCw (payloadOf m' 0) 0 = 1
  | Crash _ => False
  end.
Proof. vm_compute. repeat split. Qed.
